(** * dfsanalyzer: the ingestion and aggregation core, embedded in Rocq

    The development follows the layout of the repository:
    - [Py]         the fragment of Python's built-in behaviour the core relies
                   on (str as a sequence of code points, [strip], [split],
                   [join], [sorted], [itertools.combinations], a backtracking
                   matcher for the [re] patterns in use);
    - [Util]       src/core/util.py;
    - [Ingest]     src/core/ingest.py;
    - [Aggregate]  src/core/aggregate.py;
    - [Vocabulary] what the statements are written with;
    - the properties, one part per component.

    Floats are modelled by exact rationals [Q]: every property stated below
    is about the arithmetic formula, not about rounding.  A missing value of
    a frame ([NaN], [pd.NA]) is [None], or [CNaN] in a cell read from CSV.
    Integers are unbounded, as Python's are, except where the code does
    arithmetic on the [numpy.int64] values of a column: there the result
    wraps around ([wrap64]).  A function that can raise returns an option.
    The Unicode character database is a type class, [UnicodeData], of which
    only the content on U+0000..U+00FF is fixed. *)

From Stdlib Require Import List NArith ZArith QArith Qminmax Bool Lia Permutation Sorted.
From Stdlib Require Strings.String Strings.Ascii.
From stdpp Require Import gmap.
Import ListNotations.
Import Strings.String.StringSyntax.
Delimit Scope string_scope with string.
Bind Scope string_scope with String.string.

Close Scope Q_scope.

(* ===================================================================== *)
(** * Python built-ins                                                     *)
(* ===================================================================== *)

Module Py.

Local Open Scope N_scope.

(** A Python [str] is a sequence of Unicode code points. *)
Abbreviation str := (list N).

(** Literals: an ASCII Rocq string read as a [str]. *)
Fixpoint lit (s : String.string) : str :=
  match s with
  | String.EmptyString => []
  | String.String a s' => Ascii.N_of_ascii a :: lit s'
  end.

(** A cell of a [pandas] frame read from CSV: text, a number, or missing. *)
Inductive cell :=
| CStr (s : str)
| CInt (z : Z)
| CFloat (q : Q)
| CNaN.

(** [isinstance(value, str)] *)
Definition as_str (v : cell) : option str :=
  match v with CStr s => Some s | _ => None end.

(** [Series.notna()] on one cell. *)
Definition notna (v : cell) : bool :=
  match v with CNaN => false | _ => true end.

(** ** Character classes *)

(** [str.isspace] for one code point; this is the class used by
    [str.strip()], [str.split()] and by [\s] in a [str] pattern. *)
Definition is_space (c : N) : bool :=
  ((0x09 <=? c) && (c <=? 0x0D)) || ((0x1C <=? c) && (c <=? 0x20))
  || (c =? 0x85) || (c =? 0xA0) || (c =? 0x1680)
  || ((0x2000 <=? c) && (c <=? 0x200A))
  || (c =? 0x2028) || (c =? 0x2029) || (c =? 0x202F) || (c =? 0x205F)
  || (c =? 0x3000).

Definition is_ascii (c : N) : bool := c <? 128.

(** Full compatibility decomposition (the per-character step of NFKD) on
    U+0000..U+00FF, from UnicodeData.txt. *)
Definition latin1_decomposition (c : N) : list N :=
  let acc base marks := nth (N.to_nat (c - base)) (map (fun m => Some m) marks) None in
  let on letter base marks :=
    match acc base marks with Some m => [letter; m] | None => [c] end in
  if c =? 0xA0 then [0x20]
  else if c =? 0xA8 then [0x20; 0x308]
  else if c =? 0xAA then [0x61]
  else if c =? 0xAF then [0x20; 0x304]
  else if c =? 0xB2 then [0x32]
  else if c =? 0xB3 then [0x33]
  else if c =? 0xB4 then [0x20; 0x301]
  else if c =? 0xB5 then [0x3BC]
  else if c =? 0xB8 then [0x20; 0x327]
  else if c =? 0xB9 then [0x31]
  else if c =? 0xBA then [0x6F]
  else if c =? 0xBC then [0x31; 0x2044; 0x34]
  else if c =? 0xBD then [0x31; 0x2044; 0x32]
  else if c =? 0xBE then [0x33; 0x2044; 0x34]
  else if (0xC0 <=? c) && (c <=? 0xC5) then on 0x41 0xC0 [0x300; 0x301; 0x302; 0x303; 0x308; 0x30A]
  else if c =? 0xC7 then [0x43; 0x327]
  else if (0xC8 <=? c) && (c <=? 0xCB) then on 0x45 0xC8 [0x300; 0x301; 0x302; 0x308]
  else if (0xCC <=? c) && (c <=? 0xCF) then on 0x49 0xCC [0x300; 0x301; 0x302; 0x308]
  else if c =? 0xD1 then [0x4E; 0x303]
  else if (0xD2 <=? c) && (c <=? 0xD6) then on 0x4F 0xD2 [0x300; 0x301; 0x302; 0x303; 0x308]
  else if (0xD9 <=? c) && (c <=? 0xDC) then on 0x55 0xD9 [0x300; 0x301; 0x302; 0x308]
  else if c =? 0xDD then [0x59; 0x301]
  else if (0xE0 <=? c) && (c <=? 0xE5) then on 0x61 0xE0 [0x300; 0x301; 0x302; 0x303; 0x308; 0x30A]
  else if c =? 0xE7 then [0x63; 0x327]
  else if (0xE8 <=? c) && (c <=? 0xEB) then on 0x65 0xE8 [0x300; 0x301; 0x302; 0x308]
  else if (0xEC <=? c) && (c <=? 0xEF) then on 0x69 0xEC [0x300; 0x301; 0x302; 0x308]
  else if c =? 0xF1 then [0x6E; 0x303]
  else if (0xF2 <=? c) && (c <=? 0xF6) then on 0x6F 0xF2 [0x300; 0x301; 0x302; 0x303; 0x308]
  else if (0xF9 <=? c) && (c <=? 0xFC) then on 0x75 0xF9 [0x300; 0x301; 0x302; 0x308]
  else if c =? 0xFD then [0x79; 0x301]
  else if c =? 0xFF then [0x79; 0x308]
  else [c].

(** [str.upper()] of one code point on U+0000..U+00FF (full case mapping:
    U+00DF becomes two letters). *)
Definition latin1_upper (c : N) : list N :=
  if (0x61 <=? c) && (c <=? 0x7A) then [c - 32]
  else if c =? 0xB5 then [0x39C]
  else if c =? 0xDF then [0x53; 0x53]
  else if c =? 0xF7 then [c]
  else if c =? 0xFF then [0x178]
  else if (0xE0 <=? c) && (c <=? 0xFE) then [c - 32]
  else [c].

(** Decimal value of a code point of category Nd on U+0000..U+00FF: only
    the ASCII digits. *)
Definition latin1_decimal (c : N) : option N :=
  if (0x30 <=? c) && (c <=? 0x39) then Some (c - 0x30) else None.

(** The Unicode character database behind [unicodedata.normalize],
    [str.upper], [\d] and [int()].  The tables are an interface; what the
    development relies on is their content on U+0000..U+00FF and that no
    white-space character is a decimal digit. *)
Class UnicodeData := {
  decomposition : N -> list N;
  upper : N -> list N;
  decimal : N -> option N;
  decomposition_latin1 : forall c, c < 256 -> decomposition c = latin1_decomposition c;
  upper_latin1 : forall c, c < 256 -> upper c = latin1_upper c;
  decimal_latin1 : forall c, c < 256 -> decimal c = latin1_decimal c;
  decimal_space : forall c, is_space c = true -> decimal c = None
}.

(** ** String methods *)

(** [s.lower()] for an ASCII-only [s] (the only use in the core is on the
    result of [normalize_player_name], which is ASCII-only). *)
Definition lower (s : str) : str :=
  map (fun c => if (0x41 <=? c) && (c <=? 0x5A) then c + 32 else c) s.

(** [s.upper()] *)
Definition str_upper `{UnicodeData} (s : str) : str := flat_map upper s.

Fixpoint lstrip (s : str) : str :=
  match s with
  | c :: s' => if is_space c then lstrip s' else s
  | [] => []
  end.

Definition rstrip (s : str) : str := rev (lstrip (rev s)).

(** [s.strip()] *)
Definition strip (s : str) : str := rstrip (lstrip s).

(** [s.replace(a, b)] for single characters [a], [b]. *)
Definition replace (a b : N) (s : str) : str :=
  map (fun c => if c =? a then b else c) s.

(** [s.split()]: maximal runs of non-white-space characters; [cur] is the
    run being read, reversed. *)
Fixpoint split_from (cur : str) (s : str) : list str :=
  match s with
  | [] => match cur with [] => [] | _ => [rev cur] end
  | c :: s' =>
      if is_space c
      then match cur with [] => split_from [] s' | _ => rev cur :: split_from [] s' end
      else split_from (c :: cur) s'
  end.

Definition split (s : str) : list str := split_from [] s.

(** [sep.join(parts)] *)
Fixpoint join (sep : str) (parts : list str) : str :=
  match parts with
  | [] => []
  | [p] => p
  | p :: rest => p ++ sep ++ join sep rest
  end.

(** [s.encode("ascii", "ignore").decode("ascii")] *)
Definition ascii_ignore (s : str) : str := List.filter is_ascii s.

(** [unicodedata.normalize("NFKD", s)] followed by the ASCII re-encoding.
    NFKD replaces every character by its full decomposition and then
    reorders combining marks; combining marks are not ASCII and ASCII
    characters are never moved, so after dropping the non-ASCII characters
    only the per-character decompositions remain, in order. *)
Definition nfkd_ascii `{UnicodeData} (s : str) : str :=
  flat_map (fun c => ascii_ignore (decomposition c)) s.

(** [re.sub(r"\s+", " ", s)]; [in_run] tells that the previous character
    was white space (already replaced). *)
Fixpoint sub_spaces (in_run : bool) (s : str) : str :=
  match s with
  | [] => []
  | c :: s' =>
      if is_space c
      then if in_run then sub_spaces true s' else 0x20 :: sub_spaces true s'
      else c :: sub_spaces false s'
  end.

(** ** Ordering and sorting *)

(** [a < b] on [str]: lexicographic on code points. *)
Fixpoint str_ltb (a b : str) : bool :=
  match a, b with
  | _, [] => false
  | [], _ :: _ => true
  | x :: a', y :: b' =>
      if x <? y then true else if y <? x then false else str_ltb a' b'
  end.

Definition str_eqb (a b : str) : bool := bool_decide (a = b).

Section Sorting.
Context {A : Type} (ltb : A -> A -> bool).

(** Insert [x] after the elements smaller than it and before the first
    element that is not. *)
Fixpoint insert_before (x : A) (l : list A) : list A :=
  match l with
  | [] => [x]
  | y :: l' => if ltb y x then y :: insert_before x l' else x :: y :: l'
  end.

(** [sorted(l)]: a stable sort that only uses [<]. *)
Fixpoint sorted (l : list A) : list A :=
  match l with
  | [] => []
  | x :: l' => insert_before x (sorted l')
  end.
End Sorting.

(** [list(dict.fromkeys(l))]: the distinct elements in order of first
    occurrence. *)
Fixpoint fromkeys {A : Type} `{EqDecision A} (l : list A) : list A :=
  match l with
  | [] => []
  | x :: l' => x :: List.filter (fun y => negb (bool_decide (x = y))) (fromkeys l')
  end.

(** [itertools.combinations(l, k)], in the order of the iterator. *)
Fixpoint combinations {A : Type} (l : list A) (k : nat) : list (list A) :=
  match k with
  | O => [[]]
  | S k' =>
      match l with
      | [] => []
      | x :: l' => map (cons x) (combinations l' k') ++ combinations l' (S k')
      end
  end.

(** ** Regular expressions

    The fragment of [re] the core's patterns are written in, with the
    backtracking semantics of the [re] module: [run r st] lists the states
    the matcher can reach from [st], in the order in which it tries them,
    so that the match [re] reports is the first one. *)

Inductive regex :=
| Chr (p : N -> bool)                      (* one character of a class *)
| Seq (r1 r2 : regex)                      (* r1 r2 *)
| Opt (r : regex)                          (* (?:r)? *)
| Star (p : N -> bool)                     (* [p]* *)
| Plus (p : N -> bool)                     (* [p]+ *)
| PlusLazy (p : N -> bool)                 (* [p]+? *)
| Group (name : String.string) (r : regex) (* (?P<name>r) *)
| Bos                                      (* ^ *)
| Eos.                                     (* $ *)

(** A matcher state: the groups captured so far, the number of characters
    consumed and the text still to read. *)
Record mstate := {
  caps : list (String.string * str);
  pos : nat;
  rest : str
}.

Definition advance (st : mstate) (to : nat * str) : mstate :=
  {| caps := caps st; pos := fst to; rest := snd to |}.

Definition set_group (name : String.string) (text : str) (st : mstate) : mstate :=
  {| caps := (name, text) :: caps st; pos := pos st; rest := rest st |}.

(** [m.group(name)]; [None] when the group took no part in the match. *)
Fixpoint assoc (name : String.string) (l : list (String.string * str)) : option str :=
  match l with
  | [] => None
  | (n, v) :: l' => if String.eqb n name then Some v else assoc name l'
  end.

Definition group (m : mstate) (name : String.string) : option str :=
  assoc name (caps m).

(** Greedy repetition: the longest run first, then shorter ones. *)
Fixpoint star_greedy (p : N -> bool) (n : nat) (s : str) : list (nat * str) :=
  match s with
  | c :: s' => if p c then star_greedy p (S n) s' ++ [(n, s)] else [(n, s)]
  | [] => [(n, [])]
  end.

(** Lazy repetition: the shortest run first. *)
Fixpoint star_lazy (p : N -> bool) (n : nat) (s : str) : list (nat * str) :=
  (n, s) ::
  match s with
  | c :: s' => if p c then star_lazy p (S n) s' else []
  | [] => []
  end.

Definition at_least_one (star : (N -> bool) -> nat -> str -> list (nat * str))
    (p : N -> bool) (n : nat) (s : str) : list (nat * str) :=
  match s with
  | c :: s' => if p c then star p (S n) s' else []
  | [] => []
  end.

Fixpoint run (r : regex) (st : mstate) : list mstate :=
  match r with
  | Chr p =>
      match rest st with
      | c :: s' => if p c then [advance st (S (pos st), s')] else []
      | [] => []
      end
  | Seq r1 r2 => flat_map (run r2) (run r1 st)
  | Opt r' => run r' st ++ [st]
  | Star p => map (advance st) (star_greedy p (pos st) (rest st))
  | Plus p => map (advance st) (at_least_one star_greedy p (pos st) (rest st))
  | PlusLazy p => map (advance st) (at_least_one star_lazy p (pos st) (rest st))
  | Group name r' =>
      map (fun st' => set_group name (firstn (pos st' - pos st)%nat (rest st)) st')
          (run r' st)
  | Bos => match pos st with O => [st] | S _ => [] end
  | Eos => match rest st with [] => [st] | [0x0A] => [st] | _ => [] end
  end.

(** [pattern.match(s)] *)
Definition re_match (r : regex) (s : str) : option mstate :=
  hd_error (run r {| caps := []; pos := 0; rest := s |}).

Infix ">>" := Seq (at level 60, right associativity).

(** The classes [.], [\s], [\d] and a literal character. *)
Definition dot (c : N) : bool := negb (c =? 0x0A).
Definition is_digit `{UnicodeData} (c : N) : bool :=
  match decimal c with Some _ => true | None => false end.
Definition char (a : N) (c : N) : bool := c =? a.

(** [int(s)] for a non-empty [s] of decimal digits (integers are unbounded;
    the interpreter's optional cap on the number of digits is left out). *)
Definition int `{UnicodeData} (s : str) : Z :=
  fold_left (fun acc c => 10 * acc + Z.of_N (default 0%N (decimal c)))%Z s 0%Z.

(** [pattern.search(s)]: the first match at the leftmost position that has
    one; [n] is the position of [s] in the text. *)
Fixpoint search_from (r : regex) (n : nat) (s : str) : option mstate :=
  match hd_error (run r {| caps := []; pos := n; rest := s |}) with
  | Some m => Some m
  | None =>
      match s with
      | [] => None
      | _ :: s' => search_from r (S n) s'
      end
  end.

Definition re_search (r : regex) (s : str) : option mstate := search_from r 0 s.

(** [re.sub(sep + "{2,}", sep, s)] for a character [sep] that stands for
    itself in a pattern: every run of [sep] becomes one [sep]; [in_run]
    tells that the previous character was [sep]. *)
Fixpoint collapse_runs (sep : N) (in_run : bool) (s : str) : str :=
  match s with
  | [] => []
  | c :: s' =>
      if c =? sep
      then if in_run then collapse_runs sep true s' else sep :: collapse_runs sep true s'
      else c :: collapse_runs sep false s'
  end.

(** [s.strip(sep)] for a single character [sep]. *)
Fixpoint lstrip_char (sep : N) (s : str) : str :=
  match s with
  | c :: s' => if c =? sep then lstrip_char sep s' else s
  | [] => []
  end.

Definition strip_char (sep : N) (s : str) : str :=
  rev (lstrip_char sep (rev (lstrip_char sep s))).

(** The class [[A-Z]]. *)
Definition is_AZ (c : N) : bool := (0x41 <=? c) && (c <=? 0x5A).

(** The builtins [min(xs)] and [max(xs)]: the first element, replaced by
    every later one that is smaller ([x < m]) or larger ([x > m]); [None]
    is the [ValueError] on an empty list. *)
Definition builtin_min {A : Type} (ltb : A -> A -> bool) (xs : list A) : option A :=
  match xs with
  | [] => None
  | x :: xs' => Some (fold_left (fun m y => if ltb y m then y else m) xs' x)
  end.

Definition builtin_max {A : Type} (ltb : A -> A -> bool) (xs : list A) : option A :=
  match xs with
  | [] => None
  | x :: xs' => Some (fold_left (fun m y => if ltb m y then y else m) xs' x)
  end.

(** [<] on exact numbers, and on floats, [None] being NaN: a comparison
    with NaN is false. *)
Definition Qltb (x y : Q) : bool := negb (Qle_bool y x).

Definition float_ltb (a b : option Q) : bool :=
  match a, b with
  | Some x, Some y => Qltb x y
  | _, _ => false
  end.

(** Arithmetic on [numpy.int64], which the values of an [Int64] column are
    when they are read one by one: a result outside of
    [-2^63 .. 2^63 - 1] wraps around. *)
Definition wrap64 (z : Z) : Z := ((z + 2 ^ 63) mod 2 ^ 64 - 2 ^ 63)%Z.

(** [statistics.median(data)] on [numpy.int64] values: the middle element
    of the sorted data, or half the sum of the two middle ones, the sum
    being taken in 64 bits; [None] is the [StatisticsError] on empty
    data. *)
Definition median (data : list Z) : option Q :=
  let data := sorted Z.ltb data in
  let n := length data in
  match n with
  | O => None
  | _ =>
      if Nat.odd n then inject_Z <$> data !! (n / 2)%nat
      else
        let i := (n / 2)%nat in
        a ← data !! (i - 1)%nat;
        b ← data !! i;
        Some (inject_Z (wrap64 (a + b)) / 2)%Q
  end.

(** [Index.is_unique] *)
Definition is_unique {A : Type} `{EqDecision A} (l : list A) : bool :=
  bool_decide (fromkeys l = l).

End Py.

(* ===================================================================== *)
(** * src/core/util.py                                                     *)
(* ===================================================================== *)

Module Util.
Import Py.
Local Open Scope N_scope.

Section WithUnicode.
Context `{UnicodeData}.

(** [_PUNCT_RE = re.compile(r"[^a-z0-9 ]+")]: the characters the pattern
    does not match are the ones [sub("", ...)] keeps. *)
Definition _PUNCT_RE_keeps (c : N) : bool :=
  ((0x61 <=? c) && (c <=? 0x7A)) || ((0x30 <=? c) && (c <=? 0x39)) || (c =? 0x20).

Definition normalize_player_name (name : option str) : str :=
  match name with
  | None => []
  | Some [] => []
  | Some name =>
      let normalized := nfkd_ascii name in
      sub_spaces false (strip normalized)
  end.

Definition comparable_name (name : option str) : str :=
  let normalized := lower (normalize_player_name name) in
  List.filter _PUNCT_RE_keeps normalized.

End WithUnicode.

Definition percentile_from_rank (rank total : Z) : Q :=
  if (total <=? 1)%Z then 0%Q
  else ((inject_Z (Z.max (rank - 1) 0) / inject_Z (total - 1)) * 100)%Q.

(** [percentile_from_rank] at a rank that is a [numpy.int64], as the ranks
    of the [Int64] column are: [rank - 1] is taken in 64 bits. *)
Definition percentile_from_rank_int64 (rank total : Z) : Q :=
  if (total <=? 1)%Z then 0%Q
  else ((inject_Z (Z.max (wrap64 (rank - 1)) 0) / inject_Z (total - 1)) * 100)%Q.

Module GameInfo.
Record t := {
  away_team : option str;
  home_team : option str;
  game_id : option str
}.
End GameInfo.

(** [_GAME_RE = (?P<away>[A-Z]{2,3})@(?P<home>[A-Z]{2,3})]; the greedy
    [[A-Z]{2,3}] is two letters and a third when there is one. *)
Definition _GAME_RE : regex :=
  Group "away" (Chr is_AZ >> Chr is_AZ >> Opt (Chr is_AZ)) >>
  Chr (char 0x40) >>
  Group "home" (Chr is_AZ >> Chr is_AZ >> Opt (Chr is_AZ)).

(** [parse_game_info]; the result is [None] where the function raises,
    which it does on a number other than a float or zero (it has no
    [strip]). *)
Definition parse_game_info `{UnicodeData} (info : cell) : option GameInfo.t :=
  let nothing := {| GameInfo.away_team := None; GameInfo.home_team := None;
                    GameInfo.game_id := None |} in
  match info with
  | CNaN | CFloat _ => Some nothing
  | CInt z => if (z =? 0)%Z then Some nothing else None
  | CStr [] => Some nothing
  | CStr info =>
      let info := str_upper (strip info) in
      match re_search _GAME_RE info with
      | None => Some nothing
      | Some m =>
          let away := default [] (group m "away") in
          let home := default [] (group m "home") in
          Some {| GameInfo.away_team := Some away; GameInfo.home_team := Some home;
                  GameInfo.game_id := Some (away ++ lit "@" ++ home) |}
      end
  end.

(** [slugify(value, sep)] for a separator of one character that stands for
    itself in a pattern (the default is ["-"]). *)
Definition slugify `{UnicodeData} (value : str) (sep : N) : str :=
  let normalized := comparable_name (Some value) in
  let normalized := replace 0x20 sep normalized in
  let normalized := collapse_runs sep false normalized in
  strip_char sep normalized.

End Util.

(* ===================================================================== *)
(** * src/core/ingest.py                                                   *)
(* ===================================================================== *)

Module Ingest.
Import Py Util.

Definition LINEUP_SLOTS : list str :=
  map lit ["PG"; "SG"; "SF"; "PF"; "C"; "G"; "F"; "UTIL"]%string.

(** [slot in LINEUP_SLOT_SET] *)
Definition in_LINEUP_SLOT_SET (slot : str) : bool :=
  existsb (fun s => bool_decide (slot = s)) LINEUP_SLOTS.

Record entry_name := {
  username : str;
  entries_used : Z;
  entries_max : Z
}.

(** A row of the standings sheet.  [EntryId] is an integer column; [None]
    is an empty cell. *)
Record standings_row := {
  EntryId : option Z;
  EntryName : cell;
  Rank : cell;
  Points : cell;
  Lineup : cell;
  Player : cell
}.

(** A row of [entries_raw] once the derived columns are set (the columns
    [username_lc] and [canonical_hash] are left out). *)
Record entry_row := {
  source : standings_row;
  parsed_name : entry_name;
  lineup_pairs : list (str * str);
  lineup_players : list str;
  lineup_slots : list str;
  canonical_lineup_key : str;
  dupe_count : nat;
  user_total_lineups : nat
}.

(** A record of the salary sheet, after the columns derived from
    [Game Info] are set. *)
Record salary_record := {
  Name : cell;
  Salary : option Q;
  RosterPosition : cell;
  TeamAbbrev : cell;
  away_team : option str;
  home_team : option str;
  game_id : option str
}.

(** [DataFrame.drop_duplicates(subset=[key])]: the first row of every key
    is kept; missing keys are equal to each other. *)
Fixpoint drop_duplicates {A : Type} (key : A -> option Z) (rows : list A) : list A :=
  match rows with
  | [] => []
  | r :: rows' =>
      r :: List.filter (fun r' => negb (bool_decide (key r = key r')))
             (drop_duplicates key rows')
  end.

(** [Series.nunique()]: the number of distinct values, missing ones not
    counted. *)
Definition nunique (col : list (option Z)) : nat :=
  length (fromkeys (omap id col)).

(** [Series.count()]: the number of values that are not missing. *)
Definition count (col : list (option Z)) : nat :=
  length (omap id col).

Section WithUnicode.
Context `{UnicodeData}.

(** [ENTRY_PATTERN =
     ^(?P<username>.+?)(?:\s*\((?P<used>\d+)(?:\s*/\s*(?P<max>\d+))?\))?$] *)
Definition ENTRY_PATTERN : regex :=
  Bos >> Group "username" (PlusLazy dot) >>
  Opt (Star is_space >> Chr (char 0x28) >> Group "used" (Plus is_digit) >>
       Opt (Star is_space >> Chr (char 0x2F) >> Star is_space >>
            Group "max" (Plus is_digit)) >>
       Chr (char 0x29)) >>
  Eos.

Definition parse_entry_name (value : cell) : entry_name :=
  match value with
  | CStr value =>
      let value := strip value in
      match re_match ENTRY_PATTERN value with
      | None => {| username := value; entries_used := 1; entries_max := 1 |}
      | Some m =>
          let username := strip (default [] (group m "username")) in
          let used := group m "used" in
          let max_entries := group m "max" in
          let used_int :=
            match used with Some ((_ :: _) as d) => int d | _ => 1%Z end in
          let max_int :=
            match max_entries with
            | Some ((_ :: _) as d) => int d
            | _ => Z.max used_int 1
            end in
          {| username := username; entries_used := used_int; entries_max := max_int |}
      end
  | _ => {| username := []; entries_used := 1; entries_max := 1 |}
  end.

(** The state of the loop of [parse_lineup]. *)
Record scan := {
  results : list (str * str);
  current_slot : option str;
  current_tokens : list str
}.

(** The guarded [results.append((current_slot, name))]. *)
Definition flush (st : scan) : list (str * str) :=
  match current_slot st, current_tokens st with
  | Some ((_ :: _) as slot), _ :: _ =>
      match normalize_player_name (Some (join (lit " ") (current_tokens st))) with
      | [] => results st
      | name => results st ++ [(slot, name)]
      end
  | _, _ => results st
  end.

(** One iteration of the loop over the tokens. *)
Definition step (st : scan) (token : str) : scan :=
  let slot := str_upper token in
  if in_LINEUP_SLOT_SET slot
  then {| results := flush st; current_slot := Some slot; current_tokens := [] |}
  else {| results := results st; current_slot := current_slot st;
          current_tokens := current_tokens st ++ [token] |}.

Definition scan_tokens (tokens : list str) : scan :=
  fold_left step tokens {| results := []; current_slot := None; current_tokens := [] |}.

(** [value.replace("\n", " ").split()] *)
Definition tokens_of (value : str) : list str := split (replace 0x0A 0x20 value).

Definition parse_lineup (value : cell) : list (str * str) :=
  match value with
  | CStr value => flush (scan_tokens (tokens_of value))
  | _ => []
  end.

(** ["|".join(sorted(players))] *)
Definition key_of_players (players : list str) : str :=
  join (lit "|") (sorted str_ltb players).

Definition key_of_row (r : standings_row) : str :=
  key_of_players (map snd (parse_lineup (Lineup r))).

(** [entries_raw], lines 92 to 111 of [ingest_contest]: the rows with a
    lineup, without repeated entry ids, and their derived columns.  The
    two [groupby(...).transform(...)] columns give every row the aggregate
    of its group. *)
Definition entries_raw (standings : list standings_row) : list entry_row :=
  let rows := drop_duplicates EntryId (List.filter (fun r => notna (Lineup r)) standings) in
  let group_of {K} `{EqDecision K} (key : standings_row -> K) (r : standings_row) :=
    List.filter (fun r' => bool_decide (key r' = key r)) rows in
  let name_of r := username (parse_entry_name (EntryName r)) in
  map (fun r =>
         let pairs := parse_lineup (Lineup r) in
         {| source := r;
            parsed_name := parse_entry_name (EntryName r);
            lineup_pairs := pairs;
            lineup_players := map snd pairs;
            lineup_slots := map fst pairs;
            canonical_lineup_key := key_of_row r;
            dupe_count := count (map EntryId (group_of key_of_row r));
            user_total_lineups := nunique (map EntryId (group_of name_of r)) |})
      rows.

(** The two lookup tables built from the salary records, lines 160 to 167:
    by exact name, and by comparable name. *)
Definition salary_lookups (salary_records : list salary_record)
  : gmap str salary_record * gmap str salary_record :=
  fold_left
    (fun '(salary_lookup, salary_lookup_secondary) record =>
       match Name record with
       | CStr name =>
           (<[name := record]> salary_lookup,
            <[comparable_name (Some name) := record]> salary_lookup_secondary)
       | _ => (salary_lookup, salary_lookup_secondary)
       end)
    salary_records (∅, ∅).

(** The join of a lineup player to a salary record, lines 182 to 184. *)
Definition find_salary (lookups : gmap str salary_record * gmap str salary_record)
    (player : str) : option salary_record :=
  match fst lookups !! player with
  | Some record => Some record
  | None => snd lookups !! comparable_name (Some player)
  end.

(** A row of [exploded_rows]: a roster slot of a lineup with what its
    salary record gives (the columns copied from the entry are left out). *)
Record exploded := {
  ex_player : str;
  ex_roster_slot : str;
  ex_salary : option Q;
  ex_dk_roster_position : option cell;
  ex_team : option cell;
  ex_game_id : option str;
  ex_away_team : option str;
  ex_home_team : option str
}.

(** The state of the loop over one lineup, lines 179 to 208; the set of
    unmatched players is shared by all lineups. *)
Record lineup_join := {
  salaries_for_entry : list Q;
  missing_count : nat;
  exploded_rows : list exploded;
  unmatched_players : gset str
}.

(** One iteration of the loop over [lineup_pairs]. *)
Definition join_player (lookups : gmap str salary_record * gmap str salary_record)
    (st : lineup_join) (pair : str * str) : lineup_join :=
  let '(slot, player) := pair in
  let found := find_salary lookups player in
  let unmatched :=
    match found with
    | None => {[player]} ∪ unmatched_players st
    | Some _ => unmatched_players st
    end in
  let salary_value := found ≫= Salary in
  let row :=
    {| ex_player := player;
       ex_roster_slot := slot;
       ex_salary := salary_value;
       ex_dk_roster_position := RosterPosition <$> found;
       ex_team := TeamAbbrev <$> found;
       ex_game_id := found ≫= game_id;
       ex_away_team := found ≫= away_team;
       ex_home_team := found ≫= home_team |} in
  {| salaries_for_entry :=
       match salary_value with
       | Some v => salaries_for_entry st ++ [v]
       | None => salaries_for_entry st
       end;
     missing_count :=
       match salary_value with
       | Some _ => missing_count st
       | None => S (missing_count st)
       end;
     exploded_rows := exploded_rows st ++ [row];
     unmatched_players := unmatched |}.

(** The salary columns of one entry, lines 209 to 219. *)
Record salary_columns := {
  salary_sum : option Q;
  salary_avg : option Q;
  salary_min : option Q;
  salary_max : option Q;
  salary_missing_count : nat
}.

(** [sum], [statistics.mean], [min] and [max] of a non-empty list: the
    minimum and the maximum are the first element that no later one beats. *)
Definition total (l : list Q) : Q := fold_left Qplus l 0%Q.

Definition least (x : Q) (l : list Q) : Q :=
  fold_left (fun best y => if Qle_bool best y then best else y) l x.

Definition greatest (x : Q) (l : list Q) : Q :=
  fold_left (fun best y => if Qle_bool y best then best else y) l x.

Definition salary_columns_of (st : lineup_join) : salary_columns :=
  match salaries_for_entry st with
  | [] =>
      {| salary_sum := None; salary_avg := None; salary_min := None;
         salary_max := None; salary_missing_count := missing_count st |}
  | x :: l =>
      {| salary_sum := Some (total (x :: l));
         salary_avg := Some (total (x :: l) / inject_Z (Z.of_nat (length (x :: l))))%Q;
         salary_min := Some (least x l);
         salary_max := Some (greatest x l);
         salary_missing_count := missing_count st |}
  end.

(** One iteration of the loop over the entries, lines 177 to 219: the
    lineup is joined from fresh lists, the set of unmatched players goes
    on. *)
Definition join_entry (lookups : gmap str salary_record * gmap str salary_record)
    (unmatched : gset str) (lineup_pairs : list (str * str)) : lineup_join :=
  fold_left (join_player lookups) lineup_pairs
    {| salaries_for_entry := []; missing_count := 0; exploded_rows := [];
       unmatched_players := unmatched |}.

(** The loop over the entries: the salary columns of every entry, all the
    exploded rows, and [sorted(unmatched_players)]. *)
Definition join_entries (lookups : gmap str salary_record * gmap str salary_record)
    (lineups : list (list (str * str)))
  : list salary_columns * list exploded * list str :=
  let '(columns, rows, unmatched) :=
    fold_left
      (fun '(columns, rows, unmatched) lineup_pairs =>
         let st := join_entry lookups unmatched lineup_pairs in
         (columns ++ [salary_columns_of st], rows ++ exploded_rows st,
          unmatched_players st))
      lineups ([], [], ∅) in
  (columns, rows, sorted str_ltb (elements unmatched)).

End WithUnicode.

End Ingest.

(* ===================================================================== *)
(** * src/core/aggregate.py                                                *)
(* ===================================================================== *)

Module Aggregate.
Import Py Util.

(** A row of the [Entries] frame, with the columns the aggregations read.
    [entry_id] and [rank] are nullable integer columns. *)
Record entry := {
  entry_id : option Z;
  username : str;
  rank : option Z;
  points : option Q;
  percentile : Q;
  lineup_players : list str
}.

(** A row of the [EntriesExploded] frame: one per entry and roster slot. *)
Record exploded_row := {
  x_entry_id : option Z;
  x_username : str;
  x_rank : option Z;
  x_percentile : Q;
  x_points : option Q;
  x_player : str
}.

(** A row of the [FieldPlayers] frame. *)
Record field_player := {
  f_player : str;
  field_pct : Q
}.

(** A row of the [UserExposure] frame.  [user_total_lineups] is missing for
    a user without a row in [entries], and [user_exposure_pct] is missing
    when the denominator is.  Of the aggregates of the group, [entry_count]
    and [best_rank] are kept; [max_points] and [best_percentile] are
    computed the same way and are left out. *)
Record exposure_row := {
  e_username : str;
  e_player : str;
  entry_count : nat;
  best_rank : option Z;
  user_total_lineups : option nat;
  user_exposure_pct : option Q;
  e_field_pct : Q;
  delta_vs_field : Q
}.

(** The accumulator kept per combination by [_combo_records]. *)
Record bucket := {
  entry_ids : list (option Z);
  ranks : list (option Z);
  percentiles : list Q;
  points_seen : list (option Q)
}.

(** A record returned by [_combo_dict_to_records], without the columns
    computed from [ranks], [percentiles] and [points].  Computing these
    raises on a missing rank: [_combo_dict_to_records] and [_combo_records]
    below list the records of a call that returns, and [combo_rows] is the
    function with all columns and its failure. *)
Record combo_record := {
  combo : str;
  players : list str;
  size : nat;
  frequency : nat;
  combo_entry_ids : list (option Z);
  count_in_current_percentile : nat
}.

(** The four [append]s on the bucket of one combination. *)
Definition push (row : entry) (b : bucket) : bucket :=
  {| entry_ids := entry_ids b ++ [entry_id row];
     ranks := ranks b ++ [rank row];
     percentiles := percentiles b ++ [percentile row];
     points_seen := points_seen b ++ [points row] |}.

Definition empty_bucket : bucket :=
  {| entry_ids := []; ranks := []; percentiles := []; points_seen := [] |}.

(** [bucket = records[combo]] on the [defaultdict], followed by the
    appends.  The dictionary is kept in insertion order: a new key goes to
    the end. *)
Fixpoint record_row (row : entry) (combo : list str)
    (records : list (list str * bucket)) : list (list str * bucket) :=
  match records with
  | [] => [(combo, push row empty_bucket)]
  | (k, b) :: records' =>
      if bool_decide (k = combo) then (k, push row b) :: records'
      else (k, b) :: record_row row combo records'
  end.

(** The combinations one row sends to the dictionary. *)
Definition row_combos (size : nat) (row : entry) : list (list str) :=
  let players := lineup_players row in
  match players with
  | [] => []
  | _ =>
      if (length players <? size)%nat then []
      else
        let unique_players := sorted str_ltb (fromkeys players) in
        combinations unique_players size
  end.

(** The dictionary at the end of the loop of [_combo_records]. *)
Definition combo_dict (entries : list entry) (size : nat) : list (list str * bucket) :=
  fold_left
    (fun records row => fold_left (fun records c => record_row row c records)
                                  (row_combos size row) records)
    entries [].

Definition _combo_dict_to_records (records : list (list str * bucket)) (size : nat)
  : list combo_record :=
  flat_map
    (fun '(combo, payload) =>
       match entry_ids payload with
       | [] => []
       | ids =>
           [{| combo := join (lit " | ") combo;
               players := combo;
               size := size;
               frequency := length ids;
               combo_entry_ids := ids;
               count_in_current_percentile := length ids |}]
       end)
    records.

Definition _combo_records (entries : list entry) (size : nat) : list combo_record :=
  _combo_dict_to_records (combo_dict entries size) size.

(** [Series.nunique()] and the minimum of a nullable column. *)
Definition nunique (col : list (option Z)) : nat :=
  length (fromkeys (omap id col)).

Definition min_skipna (col : list (option Z)) : option Z :=
  match omap id col with
  | [] => None
  | z :: zs => Some (fold_left Z.min zs z)
  end.

Definition pair_ltb (a b : str * str) : bool :=
  str_ltb (fst a) (fst b) || (bool_decide (fst a = fst b) && str_ltb (snd a) (snd b)).

(** [entries.groupby("username")[["entry_id"]].nunique()], read at one
    user name: [None] when the user has no row. *)
Definition user_lineups (entries : list entry) (user : str) : option nat :=
  match List.filter (fun e => bool_decide (username e = user)) entries with
  | [] => None
  | rows => Some (nunique (map entry_id rows))
  end.

(** [field_players.set_index("player")["field_pct"]] read at one player,
    then [fillna(0.0)]. *)
Definition field_pct_of (field_players : list field_player) (player : str) : Q :=
  match List.find (fun f => bool_decide (f_player f = player)) field_players with
  | Some f => field_pct f
  | None => 0%Q
  end.

(** The frame [exploded].  [pd.DataFrame(rows)] of no row has no column
    either, which is the frame of [ingest_contest] when no lineup has a
    pair; a frame that has lost its rows to a filter keeps its columns. *)
Inductive exploded_frame :=
| NoColumns
| Rows (rows : list exploded_row).

(** [compute_user_exposure]; [None] where it raises: [KeyError] in
    [groupby] on a frame without columns, [TypeError] in [astype(float)]
    when the number of lineups of a user is 0 and has been replaced by
    [pd.NA], and [InvalidIndexError] in [map] when a player occurs twice in
    the field table.  A user without a row in [entries] has no number of
    lineups (NaN), and then no percentage. *)
Definition compute_user_exposure (entries : list entry) (exploded : exploded_frame)
    (field_players : list field_player) : option (list exposure_row) :=
  match exploded with
  | NoColumns => None
  | Rows exploded =>
      let keys :=
        sorted pair_ltb (fromkeys (map (fun x => (x_username x, x_player x)) exploded)) in
      exposure ←
        mapM (fun '(user, player) =>
                let rows :=
                  List.filter (fun x => bool_decide ((x_username x, x_player x) = (user, player)))
                              exploded in
                let entry_count := nunique (map x_entry_id rows) in
                let total := user_lineups entries user in
                pct ← match total with
                      | Some O => None
                      | Some n =>
                          Some (Some ((inject_Z (Z.of_nat entry_count)
                                       / inject_Z (Z.of_nat n)) * 100)%Q)
                      | None => Some None
                      end;
                let fpct := field_pct_of field_players player in
                Some {| e_username := user;
                        e_player := player;
                        entry_count := entry_count;
                        best_rank := min_skipna (map x_rank rows);
                        user_total_lineups := total;
                        user_exposure_pct := pct;
                        e_field_pct := fpct;
                        delta_vs_field := (default 0%Q pct - fpct)%Q |})
             keys;
      if is_unique (map f_player field_players)
      then Some (sorted (fun a b => pair_ltb (e_username a, e_player a)
                                             (e_username b, e_player b)) exposure)
      else None
  end.

Definition apply_percentile_filter (entries : list entry)
    (percentile_bound : option Q) (rank_bound : option Z) : list entry :=
  let frame := entries in
  let frame :=
    match percentile_bound with
    | Some p => List.filter (fun e => Qle_bool (percentile e) p) frame
    | None => frame
    end in
  let frame :=
    match rank_bound with
    | Some r =>
        List.filter (fun e => match rank e with Some x => (x <=? r)%Z | None => false end) frame
    | None => frame
    end in
  frame.

(** [enrich_with_percentiles]; the ranks reach [percentile_from_rank] as
    [numpy.int64], and [percentile_from_rank] raises on a missing rank
    unless there is at most one entry, and then so does this. *)
Definition enrich_with_percentiles (entries : list entry) : option (list entry) :=
  let total := Z.of_nat (length entries) in
  mapM (fun e =>
          match rank e with
          | Some r => Some (percentile_from_rank_int64 r total)
          | None => if (total <=? 1)%Z then Some 0%Q else None
          end ≫= fun p =>
          Some {| entry_id := entry_id e; username := username e; rank := rank e;
                  points := points e; percentile := p;
                  lineup_players := lineup_players e |})
       entries.

(** The columns that [_combo_dict_to_records] and the stack tables compute
    from the ranks, percentiles and points of a payload. *)
Record payload_stats := {
  stat_best_rank : Z;
  stat_best_percentile : Q;
  stat_median_rank : Q;
  stat_max_points : option Q
}.

(** [min(ranks)], [min(percentiles)], [float(median(ranks))] and
    [max(points)].  The result is [None] where the source raises: on a
    missing rank, [min] compares it when it has a second element and
    [float(median(ranks))] converts it when it is the only one, and either
    fails; and on an empty payload. *)
Definition stats_of (payload : bucket) : option payload_stats :=
  present ← mapM id (ranks payload);
  best_rank ← builtin_min Z.ltb present;
  best_percentile ← builtin_min Qltb (percentiles payload);
  median_rank ← median present;
  max_points ← builtin_max float_ltb (points_seen payload);
  Some {| stat_best_rank := best_rank;
          stat_best_percentile := best_percentile;
          stat_median_rank := median_rank;
          stat_max_points := max_points |}.

(** [bucket = records[key]] and the appends, on a dictionary with keys of
    any type, as the stack tables have. *)
Fixpoint record_at {K : Type} `{EqDecision K} (row : entry) (key : K)
    (records : list (K * bucket)) : list (K * bucket) :=
  match records with
  | [] => [(key, push row empty_bucket)]
  | (k, b) :: records' =>
      if bool_decide (k = key) then (k, push row b) :: records'
      else (k, b) :: record_at row key records'
  end.

(** [ComboConfig]; the sizes are counts. *)
Record ComboConfig := {
  min_size : nat;
  max_size : nat;
  team_stack_max : nat;
  game_stack_max : nat;
  top_n_cap : nat
}.

Definition default_config : ComboConfig :=
  {| min_size := 2; max_size := 4; team_stack_max := 4; game_stack_max := 7;
     top_n_cap := 5000 |}.

(** A row of [EntriesExploded] with the columns the stack tables read (the
    frame has these columns also when it has no row); [s_team] and
    [s_game_id] are strings, or missing for a player without a salary
    record or game. *)
Record stack_row := {
  s_entry_id : option Z;
  s_player : str;
  s_team : option str;
  s_game_id : option str
}.

(** A row of the stack tables, its column [team] or [game_id] being
    [stack_key]. *)
Record stack_record := {
  stack_key : str;
  stack_combo : str;
  stack_players : list str;
  stack_size : nat;
  stack_frequency : nat;
  stack_best_rank : Z;
  stack_best_percentile : Q;
  stack_median_rank : Q;
  stack_max_points : option Q;
  stack_entry_ids : list (option Z);
  stack_count_in_current_percentile : nat
}.

Section Stacks.
(** [compute_team_stacks] and [compute_game_stacks] are the same code on
    the column [team] with [team_stack_max] and on the column [game_id]
    with [game_stack_max]. *)
Variable key : stack_row -> option str.
Variable lowest stack_max : nat.

(** The keys that the rows of one entry send: for every team of the group
    in increasing order ([dropna] and [groupby]), the combinations of its
    sorted distinct players of every size in
    [range(min_size, min(len(players), stack_max) + 1)]. *)
Definition group_stacks (group : list stack_row) : list (str * list str) :=
  flat_map
    (fun team =>
       let team_group := List.filter (fun x => bool_decide (key x = Some team)) group in
       let players := sorted str_ltb (fromkeys (map s_player team_group)) in
       let limit := Nat.min (length players) stack_max in
       flat_map (fun size => map (pair team) (combinations players size))
                (seq lowest (limit + 1 - lowest)))
    (sorted str_ltb (fromkeys (omap key group))).

(** [lookup.get(entry_id)] and the loops under it: nothing for an entry
    without id or without exploded rows. *)
Definition stack_keys (exploded : list stack_row) (row : entry) : list (str * list str) :=
  match entry_id row with
  | None => []
  | Some id =>
      match List.filter (fun x => bool_decide (s_entry_id x = Some id)) exploded with
      | [] => []
      | group => group_stacks group
      end
  end.

Definition stack_dict (entries : list entry) (exploded : list stack_row)
  : list (str * list str * bucket) :=
  fold_left
    (fun records row => fold_left (fun records k => record_at row k records)
                                  (stack_keys exploded row) records)
    entries [].

(** The record of one key, if its payload has entry ids; [None] where
    computing a column raises. *)
Definition stack_record_of (item : str * list str * bucket) : option (list stack_record) :=
  let '((team, combo), payload) := item in
  match entry_ids payload with
  | [] => Some []
  | ids =>
      stats ← stats_of payload;
      Some [{| stack_key := team;
               stack_combo := join (lit " | ") combo;
               stack_players := combo;
               stack_size := length combo;
               stack_frequency := length ids;
               stack_best_rank := stat_best_rank stats;
               stack_best_percentile := stat_best_percentile stats;
               stack_median_rank := stat_median_rank stats;
               stack_max_points := stat_max_points stats;
               stack_entry_ids := ids;
               stack_count_in_current_percentile := length ids |}]
  end.

(** The list [rows]. *)
Definition stack_rows (entries : list entry) (exploded : list stack_row)
  : option (list stack_record) :=
  @List.concat _ <$> mapM stack_record_of (stack_dict entries exploded).

(** [sort_values([key, "frequency", "best_rank"],
     ascending=[True, False, True])]: the first of the three columns in
    which two rows differ decides; the sort is stable. *)
Definition stack_before (a b : stack_record) : bool :=
  str_ltb (stack_key a) (stack_key b)
  || (bool_decide (stack_key a = stack_key b)
      && ((stack_frequency b <? stack_frequency a)%nat
          || ((stack_frequency a =? stack_frequency b)%nat
              && (stack_best_rank a <? stack_best_rank b)%Z))).

Definition compute_stacks (entries : list entry) (exploded : list stack_row)
  : option (list stack_record) :=
  sorted stack_before <$> stack_rows entries exploded.

End Stacks.

Definition compute_team_stacks (entries : list entry) (exploded : list stack_row)
    (config : ComboConfig) : option (list stack_record) :=
  compute_stacks s_team (min_size config) (team_stack_max config) entries exploded.

Definition compute_game_stacks (entries : list entry) (exploded : list stack_row)
    (config : ComboConfig) : option (list stack_record) :=
  compute_stacks s_game_id (min_size config) (game_stack_max config) entries exploded.

(** The records of [_combo_records] with the columns computed from the
    payload; [None] where computing a column raises. *)
Definition combo_record_of (size : nat) (item : list str * bucket)
  : option (list (combo_record * payload_stats)) :=
  let '(combo, payload) := item in
  match entry_ids payload with
  | [] => Some []
  | ids =>
      stats ← stats_of payload;
      Some [({| combo := join (lit " | ") combo;
                players := combo;
                size := size;
                frequency := length ids;
                combo_entry_ids := ids;
                count_in_current_percentile := length ids |}, stats)]
  end.

Definition combo_rows (entries : list entry) (size : nat)
  : option (list (combo_record * payload_stats)) :=
  @List.concat _ <$> mapM (combo_record_of size) (combo_dict entries size).

(** [sort_values(["size", "frequency", "best_rank"],
     ascending=[True, False, True])] *)
Definition combo_before (a b : combo_record * payload_stats) : bool :=
  (size (fst a) <? size (fst b))%nat
  || ((size (fst a) =? size (fst b))%nat
      && ((frequency (fst b) <? frequency (fst a))%nat
          || ((frequency (fst a) =? frequency (fst b))%nat
              && (stat_best_rank (snd a) <? stat_best_rank (snd b))%Z))).

(** [compute_name_combos]: the frame of every size of
    [range(min_size, max_size + 1)], in that order. *)
Definition compute_name_combos (entries : list entry) (config : ComboConfig)
  : option (list (nat * list (combo_record * payload_stats))) :=
  mapM (fun size =>
          records ← combo_rows entries size;
          Some (size, sorted combo_before records))
       (seq (min_size config) (max_size config + 1 - min_size config)).

End Aggregate.

(* ===================================================================== *)
(** * Vocabulary of the statements

    What the properties below are stated with: orders, the language of a
    pattern, the predicate of the specification for the filter, binomial
    coefficients, and small constructors for example rows. *)
(* ===================================================================== *)

Module Vocabulary.
Import Py Util.

(** What [sorted] needs of [<]: a strict total order. *)
Record strict_total {A : Type} (ltb : A -> A -> bool) : Prop := {
  st_irrefl : forall a, ltb a a = false;
  st_trans : forall a b c, ltb a b = true -> ltb b c = true -> ltb a c = true;
  st_total : forall a b, ltb a b = false -> ltb b a = false -> a = b
}.

(** A text within U+0000..U+00FF. *)
Definition is_latin1 (s : str) : bool := forallb (fun c => c <? 256)%N s.

(** The names of the specification's example, with their code points
    written out: "José Núñez" has U+00E9, U+00FA and U+00F1. *)
Definition Jose_Nunez_accented : str :=
  (lit "Jos" ++ [0xE9] ++ lit " N" ++ [0xFA; 0xF1] ++ lit "ez")%N.

(** The words a pattern can consume, whatever the order of the attempts. *)
Fixpoint lang (r : regex) (w : str) : Prop :=
  match r with
  | Chr p => exists c, w = [c] /\ p c = true
  | Seq r1 r2 => exists w1 w2, w = w1 ++ w2 /\ lang r1 w1 /\ lang r2 w2
  | Opt r' => w = [] \/ lang r' w
  | Star p => Forall (fun c => p c = true) w
  | Plus p | PlusLazy p => w <> [] /\ Forall (fun c => p c = true) w
  | Group _ r' => lang r' w
  | Bos | Eos => w = []
  end.

(** [$] holds at the end of the text and before a final newline. *)
Definition at_end (s : str) : bool :=
  match s with
  | [] => true
  | [c] => (c =? 0x0A)%N
  | _ => false
  end.

(** [first r st st']: the first state the matcher reaches from [st]. *)
Definition first (r : regex) (st st' : mstate) : Prop :=
  exists others, run r st = st' :: others.

(** The text at which a repetition of [p] has to stop. *)
Definition stops (p : N -> bool) (s : str) : Prop :=
  match s with [] => True | c :: _ => p c = false end.

(** A text of characters of one class. *)
Definition all (p : N -> bool) (w : str) : Prop := Forall (fun c => p c = true) w.

(** A text without white space at either end. *)
Definition trimmed (s : str) : Prop := stops is_space s /\ stops is_space (rev s).

(** The state [pattern.match(s)] starts from. *)
Definition start (s : str) : mstate := {| caps := []; pos := 0; rest := s |}.

Import Ingest.

(** The state after the group [username] has taken [name]. *)
Definition named (name rest : str) : mstate :=
  {| caps := [("username"%string, name)]; pos := length name; rest := rest |}.

(** The parts of [ENTRY_PATTERN]: [\s*/\s*(?P<max>\d+)], the parenthesised
    suffix, and what follows the user name. *)
Definition MAX_PART `{UnicodeData} : regex :=
  Star is_space >> Chr (char 0x2F) >> Star is_space >> Group "max" (Plus is_digit).

Definition SUFFIX `{UnicodeData} : regex :=
  Star is_space >> Chr (char 0x28) >> Group "used" (Plus is_digit) >>
  Opt MAX_PART >> Chr (char 0x29).

Definition TAIL `{UnicodeData} : regex := Opt SUFFIX >> Eos.

(** A standings row for an entry, as used in the examples below. *)
Definition entry_line (id : option Z) (name lineup : String.string) : standings_row :=
  {| EntryId := id; EntryName := CStr (lit name); Rank := CNaN; Points := CNaN;
     Lineup := CStr (lit lineup); Player := CNaN |}.

(** A token that is not a roster slot, in any letter case. *)
Definition not_slot `{UnicodeData} (token : str) : Prop :=
  in_LINEUP_SLOT_SET (str_upper token) = false.

(** A record of the salary sheet, as used in the examples below. *)
Definition salary_line (name : String.string) (salary : Z) : salary_record :=
  {| Name := CStr (lit name); Salary := Some (inject_Z salary);
     RosterPosition := CNaN; TeamAbbrev := CNaN;
     away_team := None; home_team := None; game_id := None |}.

(** One iteration of the loop that fills the two tables. *)
Definition index_record `{UnicodeData}
    (tables : gmap str salary_record * gmap str salary_record) (record : salary_record)
  : gmap str salary_record * gmap str salary_record :=
  match Name record with
  | CStr name =>
      (<[name := record]> (fst tables),
       <[comparable_name (Some name) := record]> (snd tables))
  | _ => tables
  end.

(** The [EntryId] cell of the entry is not empty. *)
Definition has_id (e : entry_row) : bool :=
  match EntryId (source e) with Some _ => true | None => false end.

(** [e'] has the canonical key of [e]. *)
Definition same_key (e e' : entry_row) : bool :=
  bool_decide (canonical_lineup_key e' = canonical_lineup_key e).

Import Aggregate.

(** The predicate of the specification: [(percentile <= P or P is unset)
    and (rank <= R or R is unset)].  A missing rank is not below any
    bound. *)
Definition keep (P : option Q) (R : option Z) (e : entry) : bool :=
  (match P with Some p => Qle_bool (percentile e) p | None => true end)
  && (match R with
      | Some r => match rank e with Some x => (x <=? r)%Z | None => false end
      | None => true
      end).

(** Example rows of [Entries] and [EntriesExploded]; the rank of an
    example entry is its id. *)
Definition lineup_of (id : Z) (user : String.string) : entry :=
  {| entry_id := Some id; username := lit user; rank := Some id; points := None;
     percentile := 0%Q; lineup_players := [] |}.

Definition slot_of (id : Z) (user player : String.string) : exploded_row :=
  {| x_entry_id := Some id; x_username := lit user; x_rank := Some id;
     x_percentile := 0%Q; x_points := None; x_player := lit player |}.

Definition lineup_with (id : Z) (user : String.string) (names : list String.string) : entry :=
  {| entry_id := Some id; username := lit user; rank := Some id; points := None;
     percentile := 0%Q; lineup_players := map lit names |}.

(** The binomial coefficient [C(n,k)]. *)
Fixpoint binom (n k : nat) : nat :=
  match k with
  | O => 1
  | S k' =>
      match n with
      | O => 0
      | S n' => binom n' k' + binom n' k
      end
  end.

(** The entry ids stored under one key of the dictionary. *)
Fixpoint ids_of (c : list str) (records : list (list str * bucket)) : list (option Z) :=
  match records with
  | [] => []
  | (k, b) :: records' => if bool_decide (k = c) then entry_ids b else ids_of c records'
  end.

(** The inner loop: one row and its combinations. *)
Definition record_combos (row : entry) (cs : list (list str))
    (records : list (list str * bucket)) : list (list str * bucket) :=
  fold_left (fun records c => record_row row c records) cs records.

(** An entry contributes to a record when its id is in the record's
    [entry_ids]. *)
Definition contributes (e : entry) (r : combo_record) : bool :=
  existsb (fun i => bool_decide (i = entry_id e)) (combo_entry_ids r).

(** How many times the record lists the entry's id. *)
Definition occurrences (e : entry) (r : combo_record) : nat :=
  length (List.filter (fun i => bool_decide (i = entry_id e)) (combo_entry_ids r)).

(** White space occurs only as single U+0020 characters. *)
Fixpoint spaced (s : str) : Prop :=
  match s with
  | [] => True
  | c :: s' => (is_space c = true -> c = 0x20%N /\ stops is_space s') /\ spaced s'
  end.

(** The shape of a normalized name: ASCII, no white space at the ends, and
    single spaces between its words. *)
Definition normal_form (s : str) : Prop :=
  all is_ascii s /\ trimmed s /\ spaced s.

(** What [parse_lineup] may return: a roster slot of the vocabulary with a
    non-empty normalized name. *)
Definition lineup_pair_ok (pair : str * str) : Prop :=
  in_LINEUP_SLOT_SET (fst pair) = true /\ snd pair <> [] /\ normal_form (snd pair).

(** The tokens that are roster slots, in any letter case. *)
Definition slot_tokens `{UnicodeData} (tokens : list str) : list str :=
  List.filter (fun t => in_LINEUP_SLOT_SET (str_upper t)) tokens.

(** The invariant of the loop of [parse_lineup]. *)
Definition scan_ok `{UnicodeData} (seen : nat) (st : scan) : Prop :=
  Forall lineup_pair_ok (results st)
  /\ match current_slot st with
     | Some slot =>
         in_LINEUP_SLOT_SET slot = true /\ length (results st) < seen
     | None => results st = []
     end.

(** The names of the groups of a pattern. *)
Fixpoint group_names (r : regex) : list String.string :=
  match r with
  | Seq r1 r2 => group_names r1 ++ group_names r2
  | Opt r' => group_names r'
  | Group name r' => name :: group_names r'
  | _ => []
  end.

(** A row of the standings sheet that is an entry with the given id. *)
Definition entry_with_id (id : option Z) (r : standings_row) : bool :=
  notna (Lineup r) && bool_decide (EntryId r = id).

(** A name that can stand in a canonical key: not empty, and without the
    separator ["|"]. *)
Definition key_safe (name : str) : Prop := name <> [] /\ ~ In 0x7C%N name.

(** A salary record whose name is [name], and one whose name has the
    comparable key [key]. *)
Definition has_name (name : str) (r : salary_record) : bool :=
  match Name r with CStr n => bool_decide (n = name) | _ => false end.

Definition has_key `{UnicodeData} (key : str) (r : salary_record) : bool :=
  match Name r with
  | CStr n => bool_decide (comparable_name (Some n) = key)
  | _ => false
  end.

(** The players of a lineup without a salary record. *)
Definition without_record `{UnicodeData}
    (lookups : gmap str salary_record * gmap str salary_record)
    (pairs : list (str * str)) : list str :=
  List.filter (fun p => match find_salary lookups p with Some _ => false | None => true end)
              (map snd pairs).

(** The columns that [enrich_with_percentiles] copies. *)
Definition same_columns (e o : entry) : Prop :=
  entry_id o = entry_id e /\ username o = username e /\ rank o = rank e
  /\ points o = points e /\ lineup_players o = lineup_players e.

(** The percentile that an entry gets in a frame of [total] rows. *)
Definition percentile_in (total : nat) (e : entry) : Q :=
  match rank e with
  | Some r => percentile_from_rank_int64 r (Z.of_nat total)
  | None => 0%Q
  end.

(** The values of a signed 64-bit integer. *)
Definition int64 (z : Z) : Prop := (- 2 ^ 63 <= z < 2 ^ 63)%Z.

(** The stricter of two optional bounds. *)
Definition tighter {A : Type} (least : A -> A -> A) (a b : option A) : option A :=
  match a, b with
  | Some x, Some y => Some (least x y)
  | Some x, None => Some x
  | None, _ => b
  end.

(** The key of a row of the exposure table, and of an exploded row. *)
Definition exposure_key (r : exposure_row) : str * str := (e_username r, e_player r).

Definition slot_key (x : exploded_row) : str * str := (x_username x, x_player x).

(** The exploded rows of one user and player. *)
Definition group_rows (exploded : list exploded_row) (k : str * str) : list exploded_row :=
  List.filter (fun x => bool_decide (slot_key x = k)) exploded.

(** Every exploded row repeats the user name and the id of an entry. *)
Definition exploded_from (entries : list entry) (exploded : list exploded_row) : Prop :=
  forall x : exploded_row,
    In x exploded ->
    exists e : entry, In e entries /\ username e = x_username x /\ entry_id e = x_entry_id x.

(** Player names in strictly increasing order. *)
Definition ascending (c : list str) : Prop :=
  StronglySorted (fun a b => str_ltb a b = true) c.

(** The entry lists some player, and every player of [c]. *)
Definition fielded (c : list str) (e : entry) : bool :=
  match lineup_players e with
  | [] => false
  | listed => forallb (fun p => existsb (fun q => bool_decide (q = p)) listed) c
  end.

(** The payload stored under one key of a dictionary. *)
Fixpoint payload_at {K : Type} `{EqDecision K} (key : K) (records : list (K * bucket))
  : bucket :=
  match records with
  | [] => empty_bucket
  | (k, b) :: records' => if bool_decide (k = key) then b else payload_at key records'
  end.

(** The dictionary after a loop over the entries in which every row is
    recorded under the keys [sends row]. *)
Definition dictionary {K : Type} `{EqDecision K} (sends : entry -> list K)
    (entries : list entry) : list (K * bucket) :=
  fold_left
    (fun records row => fold_left (fun records k => record_at row k records)
                                  (sends row) records)
    entries [].

(** The payload that a sequence of rows leaves. *)
Definition collected (rows : list entry) : bucket :=
  {| entry_ids := map entry_id rows;
     ranks := map rank rows;
     percentiles := map percentile rows;
     points_seen := map points rows |}.

(** The rank of the entry is present and at most (at least) [m]. *)
Definition rank_at_most (m : Q) (e : entry) : bool :=
  match rank e with Some x => Qle_bool (inject_Z x) m | None => false end.

Definition rank_at_least (m : Q) (e : entry) : bool :=
  match rank e with Some x => Qle_bool m (inject_Z x) | None => false end.

(** The entry has an id, and the exploded rows of that id have the key
    [t] (a team or a game) and, with that key, every player of [c]. *)
Definition stacked (key : stack_row -> option str) (exploded : list stack_row)
    (t : str) (c : list str) (e : entry) : bool :=
  match entry_id e with
  | None => false
  | Some id =>
      let group := List.filter (fun x => bool_decide (s_entry_id x = Some id)) exploded in
      let keyed := List.filter (fun x => bool_decide (key x = Some t)) group in
      match keyed with
      | [] => false
      | _ => forallb (fun p => existsb (fun x => bool_decide (s_player x = p)) keyed) c
      end
  end.

(** The key of a row of a stack table. *)
Definition stack_id (r : stack_record) : str * list str := (stack_key r, stack_players r).

(** The lexicographic order of pairs. *)
Definition lex_ltb {A B : Type} `{EqDecision A} (lta : A -> A -> bool)
    (ltb : B -> B -> bool) (x y : A * B) : bool :=
  lta (fst x) (fst y) || (bool_decide (fst x = fst y) && ltb (snd x) (snd y)).

(** The order of the rows of a frame of name combinations: frequencies do
    not increase, and among equal frequencies best ranks do not
    decrease. *)
Definition combo_order (a b : combo_record * payload_stats) : Prop :=
  frequency (fst b) <= frequency (fst a)
  /\ (frequency (fst a) = frequency (fst b) ->
      (stat_best_rank (snd a) <= stat_best_rank (snd b))%Z).

(** The order of the rows of a stack table: by key, then as above. *)
Definition stack_order (a b : stack_record) : Prop :=
  str_ltb (stack_key b) (stack_key a) = false
  /\ (stack_key a = stack_key b ->
      stack_frequency b <= stack_frequency a
      /\ (stack_frequency a = stack_frequency b ->
          (stack_best_rank a <= stack_best_rank b)%Z)).

(** The columns of a stack record that are computed from the payload. *)
Definition stack_stats (r : stack_record) : payload_stats :=
  {| stat_best_rank := stack_best_rank r;
     stat_best_percentile := stack_best_percentile r;
     stat_median_rank := stack_median_rank r;
     stat_max_points := stack_max_points r |}.

(** A team code of [_GAME_RE]: two or three letters from A to Z. *)
Definition team_code (s : str) : Prop := (2 <= length s <= 3)%nat /\ all is_AZ s.

(** The text holds the two team codes around ["@"]. *)
Definition names_game (text away home : str) : Prop :=
  team_code away /\ team_code home
  /\ exists before after : str, text = before ++ away ++ lit "@" ++ home ++ after.

(** A character that stands for itself in a pattern and in a replacement
    text. *)
Definition plain_char (c : N) : bool :=
  negb (existsb (N.eqb c) (lit ".^$*+?{}[]\|()")).

(** [e'] has the user name of [e]. *)
Definition same_user (e e' : entry_row) : bool :=
  bool_decide (Ingest.username (parsed_name e') = Ingest.username (parsed_name e)).

(** [n] is the number of distinct values of the column, missing values
    apart. *)
Definition distinct_ids (col : list (option Z)) (n : nat) : Prop :=
  exists ids : list Z,
    List.NoDup ids /\ (forall z, In z ids <-> In (Some z) col) /\ length ids = n.

(** A row of no table, for the head of a list that is never empty. *)
Definition no_row : exposure_row :=
  {| e_username := []; e_player := []; entry_count := 0; best_rank := None;
     user_total_lineups := None; user_exposure_pct := None; e_field_pct := 0%Q;
     delta_vs_field := 0%Q |}.


(** The forms [NAME (USED)] and [NAME (USED/MAX)] of a text: [NAME] is a
    non-empty text on one line without white space at its ends, [USED] and
    [MAX] are non-empty texts of digits, and white space may stand before
    ["("] and around ["/"]. *)
Definition used_form `{UnicodeData} (v name used : str) : Prop :=
  exists ws : str,
    v = name ++ ws ++ 0x28%N :: used ++ [0x29%N]
    /\ name <> [] /\ trimmed name /\ all dot name
    /\ all is_space ws /\ used <> [] /\ all is_digit used.

Definition used_max_form `{UnicodeData} (v name used mx : str) : Prop :=
  exists ws ws1 ws2 : str,
    v = name ++ ws ++ 0x28%N :: used ++ ws1 ++ 0x2F%N :: ws2 ++ mx ++ [0x29%N]
    /\ name <> [] /\ trimmed name /\ all dot name
    /\ all is_space ws /\ used <> [] /\ all is_digit used
    /\ all is_space ws1 /\ all is_space ws2 /\ mx <> [] /\ all is_digit mx.

End Vocabulary.

(* ===================================================================== *)
(** * Properties                                                           *)
(* ===================================================================== *)

Import Py Util Vocabulary.

(** ** An instance of the character database *)

(** The tables cut down to U+0000..U+00FF, every other code point being
    left alone: an instance to run the definitions on text in that range. *)
Lemma latin1_decimal_space (c : N) : is_space c = true -> latin1_decimal c = None.
Proof.
  unfold is_space, latin1_decimal. intros Hs.
  destruct ((0x30 <=? c)%N && (c <=? 0x39)%N) eqn:Hd; [|reflexivity].
  apply andb_prop in Hd as [H1 H2].
  apply N.leb_le in H1, H2.
  repeat (apply orb_prop in Hs as [Hs|Hs]);
    repeat match goal with
           | H : (_ && _) = true |- _ => apply andb_prop in H as [? ?]
           | H : (_ <=? _)%N = true |- _ => apply N.leb_le in H
           | H : (_ =? _)%N = true |- _ => apply N.eqb_eq in H
           end; lia.
Qed.

#[export] Instance latin1_unicode : UnicodeData := {|
  decomposition := latin1_decomposition;
  upper := latin1_upper;
  decimal := latin1_decimal;
  decomposition_latin1 := fun _ _ => eq_refl;
  upper_latin1 := fun _ _ => eq_refl;
  decimal_latin1 := fun _ _ => eq_refl;
  decimal_space := latin1_decimal_space
|}.

(** ** The order on [str] and [sorted] *)

Lemma str_ltb_irrefl (a : str) : str_ltb a a = false.
Proof.
  induction a as [|x a IH]; simpl; [reflexivity|].
  rewrite N.ltb_irrefl. exact IH.
Qed.

Lemma str_ltb_trans (a b c : str) :
  str_ltb a b = true -> str_ltb b c = true -> str_ltb a c = true.
Proof.
  revert b c. induction a as [|x a IH]; intros [|y b] [|z c]; simpl; try congruence.
  destruct (N.ltb_spec x y), (N.ltb_spec y x), (N.ltb_spec y z), (N.ltb_spec z y),
    (N.ltb_spec x z), (N.ltb_spec z x); try congruence; try lia.
  apply IH.
Qed.

Lemma str_ltb_total (a b : str) :
  str_ltb a b = false -> str_ltb b a = false -> a = b.
Proof.
  revert b. induction a as [|x a IH]; intros [|y b]; simpl; try congruence.
  destruct (N.ltb_spec x y), (N.ltb_spec y x); try congruence; try lia.
  intros H1 H2. f_equal; [lia | apply IH; assumption].
Qed.

Lemma str_ltb_strict_total : strict_total str_ltb.
Proof.
  constructor; [apply str_ltb_irrefl | apply str_ltb_trans | apply str_ltb_total].
Qed.

Lemma pair_ltb_strict_total : strict_total Aggregate.pair_ltb.
Proof.
  constructor; unfold Aggregate.pair_ltb.
  - intros [a b]; simpl. rewrite !str_ltb_irrefl, andb_false_r. reflexivity.
  - intros [a1 a2] [b1 b2] [c1 c2]; simpl. intros H1 H2.
    apply orb_prop in H1 as [H1|H1]; apply orb_prop in H2 as [H2|H2].
    + rewrite (str_ltb_trans _ _ _ H1 H2). reflexivity.
    + apply andb_prop in H2 as [E _]. apply bool_decide_eq_true in E. subst.
      rewrite H1. reflexivity.
    + apply andb_prop in H1 as [E _]. apply bool_decide_eq_true in E. subst.
      rewrite H2. reflexivity.
    + apply andb_prop in H1 as [E1 L1]. apply andb_prop in H2 as [E2 L2].
      apply bool_decide_eq_true in E1, E2. subst.
      rewrite (str_ltb_trans _ _ _ L1 L2), bool_decide_eq_true_2 by reflexivity.
      apply orb_true_r.
  - intros [a1 a2] [b1 b2]; simpl. intros H1 H2.
    apply orb_false_elim in H1 as [H1 H1'], H2 as [H2 H2'].
    assert (a1 = b1) by (apply str_ltb_total; assumption). subst.
    rewrite bool_decide_eq_true_2 in H1', H2' by reflexivity. simpl in *.
    f_equal. apply str_ltb_total; assumption.
Qed.

Section SortedFacts.
Context {A : Type} (ltb : A -> A -> bool).

Lemma insert_before_perm (x : A) (l : list A) :
  Permutation (insert_before ltb x l) (x :: l).
Proof.
  induction l as [|y l IH]; simpl; [reflexivity|].
  destruct (ltb y x); [|reflexivity].
  rewrite IH. apply perm_swap.
Qed.

Lemma sorted_perm (l : list A) : Permutation (sorted ltb l) l.
Proof.
  induction l as [|x l IH]; simpl; [reflexivity|].
  rewrite insert_before_perm, IH. reflexivity.
Qed.

Lemma sorted_In (x : A) (l : list A) : In x (sorted ltb l) <-> In x l.
Proof.
  split; apply Permutation_in; [|symmetry]; apply sorted_perm.
Qed.

Lemma sorted_length (l : list A) : length (sorted ltb l) = length l.
Proof. apply Permutation_length, sorted_perm. Qed.

Lemma sorted_NoDup (l : list A) : List.NoDup l -> List.NoDup (sorted ltb l).
Proof.
  intros Hl. eapply Permutation_NoDup; [symmetry; apply sorted_perm | exact Hl].
Qed.

(** Two inserts commute when [<] is a strict total order. *)
Lemma insert_before_comm (Hord : strict_total ltb) (x y : A) (l : list A) :
  insert_before ltb x (insert_before ltb y l)
  = insert_before ltb y (insert_before ltb x l).
Proof.
  destruct Hord as [Hirr Htr Htot].
  assert (Hle : forall a b c, ltb b a = false -> ltb b c = true -> ltb a c = true).
  { intros a b c Hba Hbc. destruct (ltb a c) eqn:Hac; [reflexivity|].
    destruct (ltb c a) eqn:Hca.
    - rewrite (Htr _ _ _ Hbc Hca) in Hba. discriminate.
    - rewrite (Htot _ _ Hac Hca) in Hba. congruence. }
  induction l as [|z l IH]; simpl.
  - destruct (ltb y x) eqn:Hyx, (ltb x y) eqn:Hxy; simpl; try reflexivity.
    + pose proof (Htr _ _ _ Hyx Hxy) as Hc. rewrite Hirr in Hc. discriminate.
    + rewrite (Htot _ _ Hxy Hyx). reflexivity.
  - destruct (ltb z y) eqn:Hzy, (ltb z x) eqn:Hzx; simpl;
      rewrite ?Hzy, ?Hzx; try reflexivity.
    + rewrite IH. reflexivity.
    + rewrite (Hle _ _ _ Hzx Hzy). simpl. rewrite ?Hzy. reflexivity.
    + rewrite (Hle _ _ _ Hzy Hzx). simpl. rewrite ?Hzx. reflexivity.
    + destruct (ltb y x) eqn:Hyx, (ltb x y) eqn:Hxy; simpl;
        rewrite ?Hzy, ?Hzx; try reflexivity.
      * pose proof (Htr _ _ _ Hyx Hxy) as Hc. rewrite Hirr in Hc. discriminate.
      * rewrite (Htot _ _ Hxy Hyx). reflexivity.
Qed.

(** The result of [sorted] depends on the elements and their
    multiplicities only. *)
Lemma sorted_permutation_eq (Hord : strict_total ltb) (l1 l2 : list A) :
  Permutation l1 l2 -> sorted ltb l1 = sorted ltb l2.
Proof.
  induction 1 as [|x l1 l2 _ IH|x y l|l1 l2 l3 _ IH1 _ IH2]; simpl.
  - reflexivity.
  - rewrite IH. reflexivity.
  - apply insert_before_comm, Hord.
  - congruence.
Qed.

Lemma insert_before_sorted (Hord : strict_total ltb) (x : A) (l : list A) :
  StronglySorted (fun a b => ltb b a = false) l ->
  StronglySorted (fun a b => ltb b a = false) (insert_before ltb x l).
Proof.
  destruct Hord as [Hirr Htr Htot].
  induction 1 as [|y l Hs IH Hy]; simpl.
  - constructor; constructor.
  - destruct (ltb y x) eqn:Hyx.
    + constructor; [exact IH|].
      eapply Permutation_Forall; [symmetry; apply insert_before_perm|].
      constructor; [|exact Hy].
      destruct (ltb x y) eqn:Hxy; [|reflexivity].
      pose proof (Htr _ _ _ Hyx Hxy) as Hc. rewrite Hirr in Hc. discriminate.
    + constructor; [constructor; assumption|].
      constructor; [exact Hyx|].
      eapply List.Forall_impl; [|exact Hy]. simpl. intros z Hzy.
      destruct (ltb z x) eqn:Hzx; [|reflexivity].
      destruct (ltb y z) eqn:Hyz.
      * rewrite (Htr _ _ _ Hyz Hzx) in Hyx. discriminate.
      * rewrite (Htot _ _ Hzy Hyz) in Hzx. congruence.
Qed.

Lemma sorted_sorted (Hord : strict_total ltb) (l : list A) :
  StronglySorted (fun a b => ltb b a = false) (sorted ltb l).
Proof.
  induction l as [|x l IH]; simpl; [constructor|].
  apply insert_before_sorted; assumption.
Qed.
End SortedFacts.

(** ** Percentiles *)

Lemma scaled_ratio_le (a b d : Z) :
  (0 < d)%Z -> (a <= b)%Z ->
  (inject_Z a / inject_Z d * 100 <= inject_Z b / inject_Z d * 100)%Q.
Proof.
  intros Hd Hab. destruct d as [|p|p]; try lia.
  unfold Qle, Qdiv, Qmult, Qinv, inject_Z; simpl.
  rewrite !Pos.mul_1_r. nia.
Qed.

Lemma scaled_ratio_zero (d : Z) : (inject_Z 0 / inject_Z d * 100 == 0)%Q.
Proof. unfold Qdiv. rewrite Qmult_0_l, Qmult_0_l. reflexivity. Qed.

Lemma scaled_ratio_one (d : Z) : (0 < d)%Z -> (inject_Z d / inject_Z d * 100 == 100)%Q.
Proof.
  intros Hd. unfold Qdiv. rewrite Qmult_inv_r.
  - apply Qmult_1_l.
  - destruct d; try lia. unfold Qeq, inject_Z; simpl. lia.
Qed.

(** C2 (amended).  [percentile_from_rank rank total] is 0 when
    [total <= 1] and [max(rank-1,0) / (total-1) * 100] otherwise; it is
    never negative, it is non-decreasing in [rank], it is 0 for a single
    entry, and it is at most 100 whenever [rank <= total]. *)
Theorem percentile_from_rank_bounds (rank total : Z) :
  ((total <= 1)%Z -> percentile_from_rank rank total = 0%Q)
  /\ ((1 < total)%Z ->
      percentile_from_rank rank total
      = (inject_Z (Z.max (rank - 1) 0) / inject_Z (total - 1) * 100)%Q)
  /\ (0 <= percentile_from_rank rank total)%Q
  /\ ((rank <= total)%Z -> (percentile_from_rank rank total <= 100)%Q)
  /\ (forall rank' : Z, (rank <= rank')%Z ->
        (percentile_from_rank rank total <= percentile_from_rank rank' total)%Q)
  /\ percentile_from_rank rank 1 = 0%Q.
Proof.
  unfold percentile_from_rank.
  destruct (Z.leb_spec total 1) as [Hle|Hgt].
  - repeat split; intros; try reflexivity; try lia; unfold Qle; simpl; lia.
  - repeat split; intros; try reflexivity; try lia.
    + apply Qle_trans with (inject_Z 0 / inject_Z (total - 1) * 100)%Q.
      * rewrite scaled_ratio_zero. apply Qle_refl.
      * apply scaled_ratio_le; lia.
    + apply Qle_trans with (inject_Z (total - 1) / inject_Z (total - 1) * 100)%Q.
      * apply scaled_ratio_le; lia.
      * rewrite scaled_ratio_one by lia. apply Qle_refl.
    + apply scaled_ratio_le; lia.
Qed.

(** C2, as stated, fails: a rank above the number of entries gives a
    percentile above 100 (rank 5 of 3 entries gives 200), and
    [enrich_with_percentiles] passes such ranks on: three entries ranked 1,
    2 and 5 get the percentiles 0, 50 and 200. *)
Lemma percentile_from_rank_above_100 :
  (percentile_from_rank 5 3 == 200)%Q
  /\ (100 < percentile_from_rank 5 3)%Q
  /\ exists es : list Aggregate.entry,
       Aggregate.enrich_with_percentiles [lineup_of 1 "ann"; lineup_of 2 "bob"; lineup_of 5 "cat"]
       = Some es
       /\ Exists (fun e => (100 < Aggregate.percentile e)%Q) es.
Proof.
  split; [reflexivity|]. split; [reflexivity|].
  eexists. split; [vm_compute; reflexivity|].
  right. right. left. reflexivity.
Qed.

(** ** The canonical lineup key *)

Import Ingest.

Lemma entries_raw_In `{UnicodeData} (standings : list standings_row) (e : entry_row) :
  In e (entries_raw standings) ->
  In (source e) (drop_duplicates EntryId (List.filter (fun r => notna (Lineup r)) standings))
  /\ lineup_pairs e = parse_lineup (Lineup (source e))
  /\ lineup_players e = map snd (parse_lineup (Lineup (source e)))
  /\ canonical_lineup_key e = key_of_players (lineup_players e).
Proof.
  unfold entries_raw. intros He. apply in_map_iff in He as (r & <- & Hr).
  simpl. repeat split; try reflexivity. exact Hr.
Qed.

(** C1 (amended).  The canonical key of an entry is its parsed player names
    in sorted order, every repeated name kept, joined by ["|"]; two entries
    whose lineups hold the same names the same number of times, in whatever
    slots and order, get the same key. *)
Theorem canonical_key_sorted_join `{UnicodeData}
    (standings : list standings_row) (e : entry_row) :
  In e (entries_raw standings) ->
  lineup_players e = map snd (parse_lineup (Lineup (source e)))
  /\ canonical_lineup_key e = join (lit "|") (sorted str_ltb (lineup_players e))
  /\ Permutation (sorted str_ltb (lineup_players e)) (lineup_players e)
  /\ StronglySorted (fun a b => str_ltb b a = false) (sorted str_ltb (lineup_players e))
  /\ forall e' : entry_row,
       In e' (entries_raw standings) ->
       Permutation (lineup_players e) (lineup_players e') ->
       canonical_lineup_key e = canonical_lineup_key e'.
Proof.
  intros He. destruct (entries_raw_In _ _ He) as (_ & _ & Hp & Hk).
  split; [exact Hp|]. split; [exact Hk|].
  split; [apply sorted_perm|].
  split; [apply sorted_sorted, str_ltb_strict_total|].
  intros e' He' Hperm.
  destruct (entries_raw_In _ _ He') as (_ & _ & _ & Hk').
  rewrite Hk, Hk'. unfold key_of_players.
  rewrite (sorted_permutation_eq str_ltb str_ltb_strict_total _ _ Hperm).
  reflexivity.
Qed.

Lemma canonical_key_sorted_join_witness :
  let standings := [entry_line (Some 1%Z) "ann" "PG A SG B";
                    entry_line (Some 2%Z) "bob" "PG B SG A"] in
  exists e : entry_row,
    In e (entries_raw standings)
    /\ canonical_lineup_key e = lit "A|B"
    /\ forall e' : entry_row,
         In e' (entries_raw standings) ->
         Permutation (lineup_players e) (lineup_players e') ->
         canonical_lineup_key e = canonical_lineup_key e'.
Proof.
  eexists. split; [left; reflexivity|]. split; [vm_compute; reflexivity|].
  eapply (canonical_key_sorted_join
            [entry_line (Some 1%Z) "ann" "PG A SG B";
             entry_line (Some 2%Z) "bob" "PG B SG A"]).
  left; reflexivity.
Defined.

(** C1, as stated, fails: repeated player names are not collapsed.  Two
    entries with the same set of players, one of them naming a player
    twice, get different keys. *)
Lemma canonical_key_keeps_repeats :
  exists e1 e2 : entry_row,
    In e1 (entries_raw [entry_line (Some 1%Z) "ann" "PG A SG B";
                        entry_line (Some 2%Z) "bob" "PG A SG A SF B"])
    /\ In e2 (entries_raw [entry_line (Some 1%Z) "ann" "PG A SG B";
                           entry_line (Some 2%Z) "bob" "PG A SG A SF B"])
    /\ lineup_players e1 = [lit "A"; lit "B"]
    /\ lineup_players e2 = [lit "A"; lit "A"; lit "B"]
    /\ (forall p : str, In p (lineup_players e1) <-> In p (lineup_players e2))
    /\ canonical_lineup_key e1 = lit "A|B"
    /\ canonical_lineup_key e2 = lit "A|A|B"
    /\ canonical_lineup_key e1 <> canonical_lineup_key e2.
Proof.
  eexists. eexists.
  split; [left; reflexivity|].
  split; [right; left; reflexivity|].
  split; [vm_compute; reflexivity|].
  split; [vm_compute; reflexivity|].
  split.
  - intros p. vm_compute. tauto.
  - split; [vm_compute; reflexivity|]. split; [vm_compute; reflexivity|].
    vm_compute. discriminate.
Qed.

(** ** The percentile/rank filter *)

Import Aggregate.

Lemma filter_filter {A : Type} (f g : A -> bool) (l : list A) :
  List.filter g (List.filter f l) = List.filter (fun x => f x && g x) l.
Proof.
  induction l as [|x l IH]; simpl; [reflexivity|].
  destruct (f x); simpl; [destruct (g x)|]; rewrite IH; reflexivity.
Qed.

Lemma filter_true {A : Type} (l : list A) : List.filter (fun _ => true) l = l.
Proof. induction l as [|x l IH]; simpl; congruence. Qed.

(** C6.  [apply_percentile_filter] keeps exactly the entries that satisfy
    [(percentile <= P or P is unset) and (rank <= R or R is unset)], in
    their order; both bounds are inclusive and an unset bound does not
    constrain. *)
Theorem apply_percentile_filter_keep
    (entries : list entry) (P : option Q) (R : option Z) :
  apply_percentile_filter entries P R = List.filter (keep P R) entries
  /\ (forall e : entry,
        In e (apply_percentile_filter entries P R) <->
        In e entries
        /\ (P = None \/ exists p, P = Some p /\ (percentile e <= p)%Q)
        /\ (R = None \/ exists r x, R = Some r /\ rank e = Some x /\ (x <= r)%Z))
  /\ apply_percentile_filter entries None None = entries.
Proof.
  assert (Heq : apply_percentile_filter entries P R = List.filter (keep P R) entries).
  { unfold apply_percentile_filter, keep.
    destruct P as [p|], R as [r|].
    - apply filter_filter.
    - apply filter_ext. intros e. rewrite andb_true_r. reflexivity.
    - reflexivity.
    - symmetry. apply filter_true. }
  split; [exact Heq|]. split; [|reflexivity].
  intros e. rewrite Heq, filter_In. unfold keep.
  split.
  - intros (Hin & Hk). apply andb_prop in Hk as [HP HR].
    split; [exact Hin|]. split.
    + destruct P as [p|]; [right|left; reflexivity].
      exists p. split; [reflexivity|]. apply Qle_bool_iff, HP.
    + destruct R as [r|]; [right|left; reflexivity].
      destruct (rank e) as [x|]; [|discriminate].
      exists r, x. repeat split. apply Z.leb_le, HR.
  - intros (Hin & HP & HR). split; [exact Hin|].
    apply andb_true_intro. split.
    + destruct HP as [->|(p & -> & Hp)]; [reflexivity|]. apply Qle_bool_iff, Hp.
    + destruct HR as [->|(r & x & -> & -> & Hx)]; [reflexivity|]. apply Z.leb_le, Hx.
Qed.

(** ** Name normalisation *)

Lemma nfkd_ascii_latin1 `{UnicodeData} (s : str) :
  is_latin1 s = true -> nfkd_ascii s = nfkd_ascii (H := latin1_unicode) s.
Proof.
  unfold nfkd_ascii, is_latin1.
  induction s as [|c s IH]; simpl; [reflexivity|].
  intros Hs. apply andb_prop in Hs as [Hc Hs].
  apply N.ltb_lt in Hc.
  rewrite (decomposition_latin1 c Hc), (IH Hs). reflexivity.
Qed.

Lemma normalize_player_name_latin1 `{UnicodeData} (s : str) :
  is_latin1 s = true ->
  normalize_player_name (Some s) = normalize_player_name (H := latin1_unicode) (Some s).
Proof.
  intros Hs. unfold normalize_player_name.
  destruct s as [|c s]; [reflexivity|].
  rewrite (nfkd_ascii_latin1 _ Hs). reflexivity.
Qed.

Lemma comparable_name_latin1 `{UnicodeData} (s : str) :
  is_latin1 s = true ->
  comparable_name (Some s) = comparable_name (H := latin1_unicode) (Some s).
Proof.
  intros Hs. unfold comparable_name.
  rewrite (normalize_player_name_latin1 _ Hs). reflexivity.
Qed.

(** C9.  Whatever the rest of the character database,
    [comparable_name] sends "José Núñez" and "Jose Nunez" to the same
    string, sends "O'Neal Jr." to "oneal jr", and returns only characters
    of [[a-z0-9 ]]. *)
Theorem comparable_name_examples `{UnicodeData} :
  comparable_name (Some Jose_Nunez_accented) = comparable_name (Some (lit "Jose Nunez"))
  /\ comparable_name (Some Jose_Nunez_accented) = lit "jose nunez"
  /\ comparable_name (Some (lit "O'Neal Jr.")) = lit "oneal jr"
  /\ forall name : option str, Forall (fun c => _PUNCT_RE_keeps c = true) (comparable_name name).
Proof.
  rewrite (comparable_name_latin1 Jose_Nunez_accented) by reflexivity.
  rewrite (comparable_name_latin1 (lit "Jose Nunez")) by reflexivity.
  rewrite (comparable_name_latin1 (lit "O'Neal Jr.")) by reflexivity.
  split; [vm_compute; reflexivity|].
  split; [vm_compute; reflexivity|].
  split; [vm_compute; reflexivity|].
  intros name. unfold comparable_name.
  apply List.Forall_forall. intros c Hc. apply filter_In in Hc. apply Hc.
Qed.

(** ** The lineup tokenizer *)

(** While no slot has been seen, the tokens read so far do not matter. *)
Lemma flush_scan_no_slot `{UnicodeData} (tokens : list str)
    (res : list (str * str)) (seen : list str) :
  flush (fold_left step tokens
           {| results := res; current_slot := None; current_tokens := seen |})
  = flush (fold_left step tokens
             {| results := res; current_slot := None; current_tokens := [] |}).
Proof.
  revert seen. induction tokens as [|t tokens IH]; intros seen; simpl.
  - reflexivity.
  - unfold step at 2 4. simpl.
    destruct (in_LINEUP_SLOT_SET (str_upper t)).
    + reflexivity.
    + rewrite (IH (seen ++ [t])), (IH [t]). reflexivity.
Qed.

Lemma scan_leading_tokens `{UnicodeData} (pre : list str) (seen : list str) :
  Forall not_slot pre ->
  fold_left step pre {| results := []; current_slot := None; current_tokens := seen |}
  = {| results := []; current_slot := None; current_tokens := seen ++ pre |}.
Proof.
  intros Hpre. revert seen.
  induction Hpre as [|t pre Ht _ IH]; intros seen; simpl.
  - rewrite app_nil_r. reflexivity.
  - unfold step at 2. rewrite Ht. simpl.
    rewrite IH, <- app_assoc. reflexivity.
Qed.

(** C10.  The tokens that come before the first roster-slot token are
    dropped: the result is the one obtained from the remaining tokens
    alone, and it is empty when no token is a slot. *)
Theorem parse_lineup_drops_leading_tokens `{UnicodeData}
    (value : str) (pre rest : list str) :
  tokens_of value = pre ++ rest ->
  Forall not_slot pre ->
  parse_lineup (CStr value) = flush (scan_tokens rest)
  /\ (rest = [] -> parse_lineup (CStr value) = []).
Proof.
  intros Htok Hpre.
  assert (Hdrop : parse_lineup (CStr value) = flush (scan_tokens rest)).
  { unfold parse_lineup, scan_tokens. rewrite Htok, fold_left_app.
    rewrite (scan_leading_tokens pre [] Hpre). simpl.
    apply flush_scan_no_slot. }
  split; [exact Hdrop|].
  intros ->. rewrite Hdrop. reflexivity.
Qed.

Lemma parse_lineup_drops_leading_tokens_witness :
  parse_lineup (CStr (lit "late swap PG LeBron James SG Stephen Curry"))
  = flush (scan_tokens (map lit ["PG"; "LeBron"; "James"; "SG"; "Stephen"; "Curry"]%string))
  /\ parse_lineup (CStr (lit "late swap PG LeBron James SG Stephen Curry"))
     = [(lit "PG", lit "LeBron James"); (lit "SG", lit "Stephen Curry")]
  /\ parse_lineup (CStr (lit "no slots here")) = [].
Proof.
  split; [|split].
  - apply (parse_lineup_drops_leading_tokens
             (lit "late swap PG LeBron James SG Stephen Curry")
             (map lit ["late"; "swap"]%string)
             (map lit ["PG"; "LeBron"; "James"; "SG"; "Stephen"; "Curry"]%string)).
    + vm_compute. reflexivity.
    + repeat constructor.
  - vm_compute. reflexivity.
  - apply (parse_lineup_drops_leading_tokens (lit "no slots here")
             (map lit ["no"; "slots"; "here"]%string) []).
    + vm_compute. reflexivity.
    + repeat constructor.
    + reflexivity.
Defined.

(** ** The salary lookup tables *)

Lemma fold_left_pointwise {A B : Type} (f g : A -> B -> A) (l : list B) (a : A) :
  (forall a x, f a x = g a x) -> fold_left f l a = fold_left g l a.
Proof.
  intros Hfg. revert a. induction l as [|x l IH]; intros a; simpl; [reflexivity|].
  rewrite Hfg. apply IH.
Qed.

Lemma salary_lookups_fold `{UnicodeData} (records : list salary_record) :
  salary_lookups records = fold_left index_record records (∅, ∅).
Proof.
  unfold salary_lookups. apply fold_left_pointwise.
  intros [t1 t2] r. unfold index_record. simpl. destruct (Name r); reflexivity.
Qed.

Lemma index_other_keys `{UnicodeData} (records : list salary_record) (key : str)
    (tables : gmap str salary_record * gmap str salary_record) :
  (forall r n, In r records -> Name r = CStr n -> comparable_name (Some n) <> key) ->
  snd (fold_left index_record records tables) !! key = snd tables !! key.
Proof.
  revert tables. induction records as [|r records IH]; intros tables Hne; simpl.
  - reflexivity.
  - rewrite IH by (intros r' n Hr'; apply Hne; right; exact Hr').
    unfold index_record. destruct (Name r) as [n| | |] eqn:Hn; try reflexivity.
    simpl. apply lookup_insert_ne. apply (Hne r n); [left; reflexivity|exact Hn].
Qed.

(** C3 (amended).  The comparable-name table is last-wins: the record it
    returns for a comparable key is the last record of the salary sheet
    whose name has that key. *)
Theorem secondary_lookup_last_wins `{UnicodeData}
    (earlier later : list salary_record) (record : salary_record) (name : str) :
  Name record = CStr name ->
  (forall r n, In r later -> Name r = CStr n ->
               comparable_name (Some n) <> comparable_name (Some name)) ->
  snd (salary_lookups (earlier ++ record :: later)) !! comparable_name (Some name)
  = Some record.
Proof.
  intros Hname Hlater.
  rewrite salary_lookups_fold, fold_left_app. simpl.
  rewrite index_other_keys by exact Hlater.
  unfold index_record at 1. rewrite Hname. simpl.
  apply lookup_insert_eq.
Qed.

Lemma secondary_lookup_last_wins_witness :
  snd (salary_lookups [salary_line "O'Neal" 5000; salary_line "ONeal" 6000;
                       salary_line "Smith" 4000])
    !! comparable_name (Some (lit "ONeal"))
  = Some (salary_line "ONeal" 6000).
Proof.
  apply (secondary_lookup_last_wins [salary_line "O'Neal" 5000]
           [salary_line "Smith" 4000] (salary_line "ONeal" 6000) (lit "ONeal")).
  - reflexivity.
  - intros r n [<-|[]] Hn. injection Hn as <-. vm_compute. discriminate.
Defined.

(** C3, as stated, fails: of two sheet names with the same comparable key
    the table keeps the second. *)
Lemma secondary_lookup_not_first_wins :
  comparable_name (Some (lit "O'Neal")) = lit "oneal"
  /\ comparable_name (Some (lit "ONeal")) = lit "oneal"
  /\ snd (salary_lookups [salary_line "O'Neal" 5000; salary_line "ONeal" 6000])
       !! lit "oneal"
     = Some (salary_line "ONeal" 6000)
  /\ snd (salary_lookups [salary_line "O'Neal" 5000; salary_line "ONeal" 6000])
       !! lit "oneal"
     <> Some (salary_line "O'Neal" 5000).
Proof.
  assert (Hsnd : snd (salary_lookups [salary_line "O'Neal" 5000; salary_line "ONeal" 6000])
                   !! lit "oneal" = Some (salary_line "ONeal" 6000)).
  { vm_compute. reflexivity. }
  split; [vm_compute; reflexivity|].
  split; [vm_compute; reflexivity|].
  split; [exact Hsnd|].
  rewrite Hsnd. intros Heq. injection Heq as Heq. vm_compute in Heq. discriminate.
Qed.

(** ** Duplicate counts *)

Lemma filter_map_comm {A B : Type} (f : A -> B) (p : B -> bool) (l : list A) :
  List.filter p (map f l) = map f (List.filter (fun x => p (f x)) l).
Proof.
  induction l as [|x l IH]; simpl; [reflexivity|].
  destruct (p (f x)); simpl; rewrite IH; reflexivity.
Qed.

Lemma count_as_filter {A : Type} (col : A -> option Z) (l : list A) :
  count (map col l)
  = length (List.filter (fun x => match col x with Some _ => true | None => false end) l).
Proof.
  unfold count. induction l as [|x l IH]; simpl; [reflexivity|].
  destruct (col x); simpl; [f_equal|]; exact IH.
Qed.

Lemma NoDup_map_filter {A B : Type} (f : A -> B) (p : A -> bool) (l : list A) :
  List.NoDup (map f l) -> List.NoDup (map f (List.filter p l)).
Proof.
  induction l as [|x l IH]; simpl; intros Hl; [constructor|].
  inversion Hl as [|? ? Hx Hl']; subst.
  destruct (p x); simpl; [|apply IH; exact Hl'].
  constructor; [|apply IH; exact Hl'].
  intros Hin. apply Hx. apply in_map_iff in Hin as (y & Hy & Hin).
  apply in_map_iff. exists y. split; [exact Hy|]. apply filter_In in Hin. apply Hin.
Qed.

(** [drop_duplicates] leaves no key twice. *)
Lemma drop_duplicates_NoDup {A : Type} (key : A -> option Z) (rows : list A) :
  List.NoDup (map key (drop_duplicates key rows)).
Proof.
  induction rows as [|r rows IH]; simpl; [constructor|].
  constructor.
  - intros Hin. apply in_map_iff in Hin as (r' & Hk & Hin).
    apply filter_In in Hin as [_ Hne].
    rewrite bool_decide_eq_true_2 in Hne by (symmetry; exact Hk). discriminate.
  - apply NoDup_map_filter, IH.
Qed.

Lemma entries_raw_ids_NoDup `{UnicodeData} (standings : list standings_row) :
  List.NoDup (map (fun e => EntryId (source e)) (entries_raw standings)).
Proof.
  unfold entries_raw. rewrite map_map. simpl. apply drop_duplicates_NoDup.
Qed.

Lemma dupe_count_as_filter `{UnicodeData} (standings : list standings_row) (e : entry_row) :
  In e (entries_raw standings) ->
  dupe_count e
  = length (List.filter (fun e' => same_key e e' && has_id e') (entries_raw standings)).
Proof.
  unfold entries_raw. intros He. apply in_map_iff in He as (r & <- & Hr).
  cbv beta zeta. rewrite filter_map_comm, length_map.
  unfold same_key, has_id. simpl.
  rewrite count_as_filter, filter_filter. reflexivity.
Qed.



(** ** Name combinations *)

Lemma combinations_length {A : Type} (l : list A) (k : nat) :
  length (combinations l k) = binom (length l) k.
Proof.
  revert k. induction l as [|x l IH]; intros [|k]; simpl; try reflexivity.
  rewrite length_app, length_map, !IH. reflexivity.
Qed.

Lemma combinations_incl {A : Type} (l : list A) (k : nat) (c : list A) :
  In c (combinations l k) -> incl c l.
Proof.
  revert k c. induction l as [|x l IH]; intros [|k] c; simpl.
  - intros [<-|[]]. apply incl_nil_l.
  - intros [].
  - intros [<-|[]]. apply incl_nil_l.
  - intros Hc. apply in_app_or in Hc as [Hc|Hc].
    + apply in_map_iff in Hc as (c' & <- & Hc').
      apply incl_cons; [left; reflexivity|].
      apply incl_tl. eapply IH, Hc'.
    + apply incl_tl. eapply IH, Hc.
Qed.

Lemma NoDup_map_cons {A : Type} (x : A) (l : list (list A)) :
  List.NoDup l -> List.NoDup (map (cons x) l).
Proof.
  induction 1 as [|c l Hc _ IH]; simpl; constructor; [|exact IH].
  intros Hin. apply in_map_iff in Hin as (c' & Heq & Hin).
  injection Heq as ->. exact (Hc Hin).
Qed.

Lemma combinations_NoDup {A : Type} (l : list A) (k : nat) :
  List.NoDup l -> List.NoDup (combinations l k).
Proof.
  intros Hl. revert k. induction Hl as [|x l Hx Hl IH]; intros [|k]; simpl.
  - constructor; [intros []|constructor].
  - constructor.
  - constructor; [intros []|constructor].
  - apply List.NoDup_app.
    + apply NoDup_map_cons, IH.
    + apply IH.
    + intros c Hc Hc'. apply in_map_iff in Hc as (c' & <- & _).
      apply Hx. apply (combinations_incl _ _ _ Hc'). left; reflexivity.
Qed.

Lemma fromkeys_In {A : Type} `{EqDecision A} (l : list A) (x : A) :
  In x (fromkeys l) <-> In x l.
Proof.
  induction l as [|y l IH]; simpl; [tauto|].
  rewrite filter_In, IH.
  destruct (decide (y = x)) as [->|Hne].
  - tauto.
  - rewrite bool_decide_eq_false_2 by exact Hne. simpl. tauto.
Qed.

Lemma fromkeys_NoDup {A : Type} `{EqDecision A} (l : list A) :
  List.NoDup (fromkeys l).
Proof.
  induction l as [|y l IH]; simpl; [constructor|].
  constructor.
  - intros Hin. apply filter_In in Hin as [_ Hne].
    rewrite bool_decide_eq_true_2 in Hne by reflexivity. discriminate.
  - apply List.NoDup_filter, IH.
Qed.

Lemma fromkeys_length {A : Type} `{EqDecision A} (l : list A) :
  length (fromkeys l) <= length l.
Proof.
  induction l as [|y l IH]; simpl; [lia|].
  pose proof (List.filter_length_le (fun y0 => negb (bool_decide (y = y0))) (fromkeys l)).
  lia.
Qed.

Lemma binom_above (n k : nat) : n < k -> binom n k = 0.
Proof.
  revert k. induction n as [|n IH]; intros [|k] Hlt; simpl; try lia.
  rewrite !IH by lia. reflexivity.
Qed.

Lemma ids_of_record_row (row : entry) (c c' : list str)
    (records : list (list str * bucket)) :
  ids_of c' (record_row row c records)
  = ids_of c' records ++ (if bool_decide (c = c') then [entry_id row] else []).
Proof.
  induction records as [|[k b] records IH]; simpl.
  - destruct (bool_decide (c = c')); reflexivity.
  - destruct (decide (k = c)) as [->|Hkc].
    + rewrite bool_decide_eq_true_2 by reflexivity. simpl.
      destruct (bool_decide (c = c')); [reflexivity|].
      rewrite app_nil_r. reflexivity.
    + rewrite (bool_decide_eq_false_2 (k = c)) by exact Hkc. simpl.
      destruct (decide (k = c')) as [->|Hkc'].
      * rewrite bool_decide_eq_true_2 by reflexivity.
        rewrite bool_decide_eq_false_2 by congruence.
        rewrite app_nil_r. reflexivity.
      * rewrite (bool_decide_eq_false_2 (k = c')) by exact Hkc'. exact IH.
Qed.

Lemma keys_record_row (row : entry) (c : list str) (records : list (list str * bucket)) :
  map fst (record_row row c records)
  = if existsb (fun k => bool_decide (k = c)) (map fst records)
    then map fst records else map fst records ++ [c].
Proof.
  induction records as [|[k b] records IH]; simpl; [reflexivity|].
  destruct (bool_decide (k = c)); simpl; [reflexivity|].
  rewrite IH. destruct (existsb _ _); reflexivity.
Qed.

Lemma keys_record_row_NoDup (row : entry) (c : list str)
    (records : list (list str * bucket)) :
  List.NoDup (map fst records) -> List.NoDup (map fst (record_row row c records)).
Proof.
  intros Hnd. rewrite keys_record_row.
  destruct (existsb _ _) eqn:Hex; [exact Hnd|].
  apply List.NoDup_app; [exact Hnd|constructor; [intros []|constructor]|].
  intros k Hk [Hkc|[]]. subst k.
  assert (Hc : existsb (fun k' => bool_decide (k' = c)) (map fst records) = true).
  { apply existsb_exists. exists c. split; [exact Hk|].
    apply bool_decide_eq_true_2. reflexivity. }
  congruence.
Qed.

Lemma ids_of_record_combos (row : entry) (cs : list (list str)) (c' : list str)
    (records : list (list str * bucket)) :
  List.NoDup cs ->
  ids_of c' (record_combos row cs records)
  = ids_of c' records
    ++ (if existsb (fun c => bool_decide (c = c')) cs then [entry_id row] else []).
Proof.
  unfold record_combos. intros Hcs. revert records.
  induction Hcs as [|c cs Hc _ IH]; intros records; simpl.
  - rewrite app_nil_r. reflexivity.
  - rewrite IH, ids_of_record_row, <- app_assoc. f_equal.
    destruct (decide (c = c')) as [->|Hne].
    + rewrite bool_decide_eq_true_2 by reflexivity. simpl.
      destruct (existsb _ cs) eqn:Hex; [|reflexivity].
      apply existsb_exists in Hex as (c & Hin & Heq).
      apply bool_decide_eq_true in Heq. subst. destruct (Hc Hin).
    + rewrite bool_decide_eq_false_2 by exact Hne. reflexivity.
Qed.

Lemma keys_record_combos_NoDup (row : entry) (cs : list (list str))
    (records : list (list str * bucket)) :
  List.NoDup (map fst records) -> List.NoDup (map fst (record_combos row cs records)).
Proof.
  unfold record_combos. revert records.
  induction cs as [|c cs IH]; intros records Hnd; simpl; [exact Hnd|].
  apply IH, keys_record_row_NoDup, Hnd.
Qed.

Lemma row_combos_NoDup (size : nat) (row : entry) : List.NoDup (row_combos size row).
Proof.
  unfold row_combos. destruct (lineup_players row) as [|p ps]; [constructor|].
  destruct (_ <? _)%nat; [constructor|].
  apply combinations_NoDup, sorted_NoDup, fromkeys_NoDup.
Qed.

(** The number of combinations a row sends is [C(u, size)], [u] being the
    number of its distinct players. *)
Lemma row_combos_length (size : nat) (row : entry) :
  length (row_combos size row) <= binom (length (fromkeys (lineup_players row))) size.
Proof.
  unfold row_combos. destruct (lineup_players row) as [|p ps] eqn:Hp; [simpl; lia|].
  destruct (_ <? _)%nat; [simpl; lia|].
  rewrite combinations_length, sorted_length. lia.
Qed.

(** The dictionary of [_combo_records]: keys are distinct, and the ids
    under a key are those of the rows that sent it, in row order. *)
Lemma combo_dict_spec (entries : list entry) (size : nat) :
  List.NoDup (map fst (combo_dict entries size))
  /\ forall c : list str,
       ids_of c (combo_dict entries size)
       = map entry_id
           (List.filter (fun e => existsb (fun c' => bool_decide (c' = c)) (row_combos size e))
                        entries).
Proof.
  unfold combo_dict.
  assert (Hgen : forall records : list (list str * bucket),
             List.NoDup (map fst records) ->
             List.NoDup (map fst (fold_left (fun records row =>
                                               record_combos row (row_combos size row) records)
                                            entries records))
             /\ forall c,
                  ids_of c (fold_left (fun records row =>
                                         record_combos row (row_combos size row) records)
                                      entries records)
                  = ids_of c records
                    ++ map entry_id
                         (List.filter (fun e => existsb (fun c' => bool_decide (c' = c))
                                                        (row_combos size e)) entries)).
  { induction entries as [|e entries IH]; intros records Hnd; simpl.
    - split; [exact Hnd|]. intros c. rewrite app_nil_r. reflexivity.
    - destruct (IH (record_combos e (row_combos size e) records)
                   (keys_record_combos_NoDup _ _ _ Hnd)) as [Hk Hid].
      split; [exact Hk|]. intros c.
      rewrite Hid, ids_of_record_combos by apply row_combos_NoDup.
      rewrite <- app_assoc. f_equal.
      destruct (existsb _ (row_combos size e)); reflexivity. }
  destruct (Hgen [] (List.NoDup_nil _)) as [Hk Hid].
  split; [exact Hk|]. intros c. exact (Hid c).
Qed.

Lemma combo_records_In (records : list (list str * bucket)) (size : nat) (r : combo_record) :
  List.NoDup (map fst records) ->
  In r (_combo_dict_to_records records size) ->
  In (players r) (map fst records)
  /\ combo_entry_ids r = ids_of (players r) records
  /\ Aggregate.size r = size
  /\ frequency r = length (combo_entry_ids r).
Proof.
  unfold _combo_dict_to_records.
  induction records as [|[k b] records IH]; simpl; intros Hnd Hr; [destruct Hr|].
  inversion Hnd as [|? ? Hk Hnd']; subst.
  apply in_app_or in Hr as [Hr|Hr].
  - destruct (entry_ids b) as [|i ids] eqn:Hb; [destruct Hr|].
    destruct Hr as [<-|[]]. simpl.
    rewrite bool_decide_eq_true_2 by reflexivity. auto.
  - destruct (IH Hnd' Hr) as (Hin & Hids & Hsz & Hfr).
    split; [right; exact Hin|].
    rewrite bool_decide_eq_false_2; [auto|].
    intros ->. exact (Hk Hin).
Qed.

Lemma combo_records_keys (records : list (list str * bucket)) (size : nat) (c : list str) :
  In c (map players (_combo_dict_to_records records size)) -> In c (map fst records).
Proof.
  unfold _combo_dict_to_records. intros Hc.
  apply in_map_iff in Hc as (r & <- & Hr).
  apply in_flat_map in Hr as ([k b] & Hkb & Hr).
  destruct (entry_ids b); [destruct Hr|]. destruct Hr as [<-|[]]. simpl.
  apply in_map_iff. exists (k, b). auto.
Qed.

Lemma combo_records_keys_NoDup (records : list (list str * bucket)) (size : nat) :
  List.NoDup (map fst records) ->
  List.NoDup (map players (_combo_dict_to_records records size)).
Proof.
  induction records as [|[k b] records IH]; simpl; intros Hnd; [constructor|].
  inversion Hnd as [|? ? Hk Hnd']; subst.
  change (_combo_dict_to_records ((k, b) :: records) size)
    with ((match entry_ids b with
           | [] => []
           | ids => [{| combo := join (lit " | ") k; players := k; size := size;
                        frequency := length ids; combo_entry_ids := ids;
                        count_in_current_percentile := length ids |}]
           end) ++ _combo_dict_to_records records size).
  rewrite map_app. apply List.NoDup_app.
  - destruct (entry_ids b); simpl; constructor; [intros []|constructor].
  - apply IH, Hnd'.
  - intros c Hc Hc'. apply combo_records_keys in Hc'.
    destruct (entry_ids b); simpl in Hc; [destruct Hc|].
    destruct Hc as [<-|[]]. exact (Hk Hc').
Qed.

Lemma NoDup_map_injective {A B : Type} (f : A -> B) (l : list A) (a b : A) :
  List.NoDup (map f l) -> In a l -> In b l -> f a = f b -> a = b.
Proof.
  induction l as [|x l IH]; simpl; intros Hnd Ha Hb Hab; [destruct Ha|].
  inversion Hnd as [|? ? Hx Hnd']; subst.
  destruct Ha as [->|Ha], Hb as [->|Hb]; try reflexivity.
  - destruct Hx. rewrite Hab. apply in_map, Hb.
  - destruct Hx. rewrite <- Hab. apply in_map, Ha.
  - apply IH; assumption.
Qed.

Lemma NoDup_occurs_once {A : Type} `{EqDecision A} (l : list A) (a : A) :
  List.NoDup l -> In a l -> length (List.filter (fun i => bool_decide (i = a)) l) = 1.
Proof.
  induction 1 as [|x l Hx Hnd IH]; simpl; intros Ha; [destruct Ha|].
  destruct (decide (x = a)) as [->|Hne].
  - rewrite bool_decide_eq_true_2 by reflexivity. simpl. f_equal.
    destruct (List.filter _ l) as [|y ys] eqn:Hf; [reflexivity|].
    assert (Hy : In y (List.filter (fun i => bool_decide (i = a)) l))
      by (rewrite Hf; left; reflexivity).
    apply filter_In in Hy as [Hy Heq]. apply bool_decide_eq_true in Heq. subst.
    destruct (Hx Hy).
  - rewrite bool_decide_eq_false_2 by exact Hne.
    destruct Ha as [Ha|Ha]; [congruence|]. apply IH, Ha.
Qed.

Lemma existsb_eq_In {A : Type} `{EqDecision A} (l : list A) (a : A) :
  existsb (fun x => bool_decide (x = a)) l = true <-> In a l.
Proof.
  rewrite existsb_exists. split.
  - intros (x & Hx & Heq). apply bool_decide_eq_true in Heq. subst. exact Hx.
  - intros Ha. exists a. split; [exact Ha|]. apply bool_decide_eq_true_2. reflexivity.
Qed.

(** The records an entry contributes to are those keyed by one of its own
    combinations. *)
Lemma contributes_iff (entries : list entry) (size : nat) (e : entry) (r : combo_record) :
  List.NoDup (map entry_id entries) ->
  In e entries ->
  In r (_combo_records entries size) ->
  contributes e r = true <-> In (players r) (row_combos size e).
Proof.
  intros Hnd He Hr. unfold _combo_records in Hr.
  destruct (combo_dict_spec entries size) as [Hkeys Hids].
  destruct (combo_records_In _ _ _ Hkeys Hr) as (_ & Hr_ids & _).
  unfold contributes. rewrite Hr_ids, Hids, existsb_eq_In. split.
  - intros Hin. apply in_map_iff in Hin as (e' & Hid & He').
    apply filter_In in He' as [He' Hc].
    assert (e' = e) by (eapply NoDup_map_injective; eassumption). subst e'.
    apply existsb_eq_In in Hc. exact Hc.
  - intros Hc. apply in_map. apply filter_In. split; [exact He|].
    apply existsb_eq_In. exact Hc.
Qed.

(** C4.  In the records of one combination size, keys are distinct; an
    entry with [u] distinct players contributes to at most [C(u, size)] of
    them, namely those keyed by the combinations of its sorted distinct
    players; it is listed exactly once in each; and it contributes to none
    when [u < size]. *)
Theorem combo_contribution (entries : list entry) (size : nat) (e : entry) :
  List.NoDup (map entry_id entries) ->
  In e entries ->
  let u := length (fromkeys (lineup_players e)) in
  let out := _combo_records entries size in
  List.NoDup (map players out)
  /\ length (List.filter (contributes e) out) <= binom u size
  /\ (forall r : combo_record, In r out -> contributes e r = true -> occurrences e r = 1)
  /\ (forall r : combo_record, In r out -> contributes e r = true ->
        In (players r) (combinations (sorted str_ltb (fromkeys (lineup_players e))) size))
  /\ (u < size -> forall r : combo_record, In r out -> contributes e r = false).
Proof.
  intros Hnd He u out.
  destruct (combo_dict_spec entries size) as [Hkeys Hids].
  assert (Hout : List.NoDup (map players out))
    by (apply combo_records_keys_NoDup, Hkeys).
  assert (Hsub : length (List.filter (contributes e) out) <= length (row_combos size e)).
  { rewrite <- (length_map players).
    apply List.NoDup_incl_length; [apply NoDup_map_filter, Hout|].
    intros c Hc. apply in_map_iff in Hc as (r & <- & Hr).
    apply filter_In in Hr as [Hr Hcr].
    apply (contributes_iff entries size e r Hnd He Hr). exact Hcr. }
  split; [exact Hout|].
  split; [pose proof (row_combos_length size e); unfold u; lia|].
  split.
  { intros r Hr Hcr. unfold occurrences.
    destruct (combo_records_In _ _ _ Hkeys Hr) as (_ & Hr_ids & _).
    apply NoDup_occurs_once.
    - rewrite Hr_ids, Hids. apply NoDup_map_filter, Hnd.
    - apply existsb_eq_In. exact Hcr. }
  split.
  { intros r Hr Hcr. apply (contributes_iff entries size e r Hnd He Hr) in Hcr.
    unfold row_combos in Hcr.
    destruct (lineup_players e) as [|p ps]; [destruct Hcr|].
    destruct (_ <? _)%nat; [destruct Hcr|exact Hcr]. }
  intros Hu r Hr. destruct (contributes e r) eqn:Hcr; [|reflexivity].
  apply (contributes_iff entries size e r Hnd He Hr) in Hcr.
  pose proof (row_combos_length size e) as Hlen.
  rewrite binom_above in Hlen by exact Hu.
  destruct (row_combos size e); [destruct Hcr|simpl in Hlen; lia].
Qed.

Lemma combo_contribution_witness :
  let e1 := lineup_with 1 "ann" ["A"; "B"; "C"; "A"]%string in
  let entries := [e1; lineup_with 2 "bob" ["C"; "B"; "A"]%string;
                  lineup_with 3 "cat" ["A"]%string] in
  map (fun r => (players r, combo_entry_ids r)) (_combo_records entries 2)
  = [ ([lit "A"; lit "B"], [Some 1%Z; Some 2%Z]);
      ([lit "A"; lit "C"], [Some 1%Z; Some 2%Z]);
      ([lit "B"; lit "C"], [Some 1%Z; Some 2%Z]) ]
  /\ length (List.filter (contributes e1) (_combo_records entries 2)) <= binom 3 2
  /\ (forall r : combo_record,
        In r (_combo_records entries 2) -> contributes e1 r = true -> occurrences e1 r = 1).
Proof.
  cbv zeta. split; [vm_compute; reflexivity|].
  assert (Hnd : List.NoDup
                  (map entry_id [lineup_with 1 "ann" ["A"; "B"; "C"; "A"]%string;
                                 lineup_with 2 "bob" ["C"; "B"; "A"]%string;
                                 lineup_with 3 "cat" ["A"]%string])).
  { simpl. repeat (constructor; [simpl; intuition congruence|]). constructor. }
  pose proof (combo_contribution _ 2 (lineup_with 1 "ann" ["A"; "B"; "C"; "A"]%string)
                Hnd (or_introl eq_refl)) as H.
  cbv zeta in H. destruct H as (_ & Hle & Honce & _).
  split; [exact Hle|exact Honce].
Defined.

(** ** The matcher *)

Lemma star_greedy_sound (p : N -> bool) (n : nat) (s : str) (k : nat) (s' : str) :
  In (k, s') (star_greedy p n s) ->
  exists w, s = w ++ s' /\ k = n + length w /\ Forall (fun c => p c = true) w.
Proof.
  revert n. induction s as [|c s IH]; intros n; simpl.
  - intros [Heq|[]]. injection Heq as <- <-. exists []. simpl. auto with arith.
  - destruct (p c) eqn:Hc.
    + intros Hin. apply in_app_or in Hin as [Hin|[Heq|[]]].
      * destruct (IH _ Hin) as (w & -> & -> & Hw).
        exists (c :: w). simpl. split; [reflexivity|]. split; [lia|].
        constructor; assumption.
      * injection Heq as <- <-. exists []. simpl. auto with arith.
    + intros [Heq|[]]. injection Heq as <- <-. exists []. simpl. auto with arith.
Qed.

Lemma star_lazy_sound (p : N -> bool) (n : nat) (s : str) (k : nat) (s' : str) :
  In (k, s') (star_lazy p n s) ->
  exists w, s = w ++ s' /\ k = n + length w /\ Forall (fun c => p c = true) w.
Proof.
  revert n. induction s as [|c s IH]; intros n; simpl.
  - intros [Heq|[]]. injection Heq as <- <-. exists []. simpl. auto with arith.
  - intros [Heq|Hin].
    + injection Heq as <- <-. exists []. simpl. auto with arith.
    + destruct (p c) eqn:Hc; [|destruct Hin].
      destruct (IH _ Hin) as (w & -> & -> & Hw).
      exists (c :: w). simpl. split; [reflexivity|]. split; [lia|].
      constructor; assumption.
Qed.

Lemma at_least_one_sound
    (star : (N -> bool) -> nat -> str -> list (nat * str)) (p : N -> bool) :
  (forall n s k s', In (k, s') (star p n s) ->
      exists w, s = w ++ s' /\ k = n + length w /\ Forall (fun c => p c = true) w) ->
  forall n s k s', In (k, s') (at_least_one star p n s) ->
      exists w, s = w ++ s' /\ k = n + length w /\ w <> []
                /\ Forall (fun c => p c = true) w.
Proof.
  intros Hstar n s k s'. unfold at_least_one.
  destruct s as [|c s]; [intros []|].
  destruct (p c) eqn:Hc; [|intros []].
  intros Hin. destruct (Hstar _ _ _ _ Hin) as (w & -> & -> & Hw).
  exists (c :: w). simpl. split; [reflexivity|]. split; [lia|].
  split; [discriminate|]. constructor; assumption.
Qed.

Lemma run_Eos (st : mstate) : run Eos st = if at_end (rest st) then [st] else [].
Proof.
  simpl. destruct (rest st) as [|c [|c' s]]; simpl; try reflexivity.
  - destruct (N.eqb_spec c 0x0A) as [->|Hne]; [reflexivity|].
    destruct c as [|q]; [reflexivity|].
    do 4 (try destruct q as [q|q|]); try reflexivity. congruence.
  - destruct c as [|q]; [reflexivity|].
    do 4 (try destruct q as [q|q|]); reflexivity.
Qed.

(** Every state the matcher reaches has consumed a word of the pattern's
    language and counted its length. *)
Lemma run_sound (r : regex) (st st' : mstate) :
  In st' (run r st) ->
  exists w, rest st = w ++ rest st' /\ pos st' = pos st + length w /\ lang r w.
Proof.
  revert st st'. induction r as [p|r1 IH1 r2 IH2|r IH|p|p|p|g r IH| |]; intros st st'; simpl.
  - destruct (rest st) as [|c s] eqn:Hs; [intros []|].
    destruct (p c) eqn:Hc; [|intros []].
    intros [<-|[]]. simpl. exists [c]. split; [reflexivity|]. split; [simpl; lia|].
    exists c. auto.
  - intros Hin. apply in_flat_map in Hin as (st1 & H1 & H2).
    destruct (IH1 _ _ H1) as (w1 & E1 & P1 & L1).
    destruct (IH2 _ _ H2) as (w2 & E2 & P2 & L2).
    exists (w1 ++ w2). rewrite E1, E2, <- app_assoc, length_app.
    split; [reflexivity|]. split; [lia|]. exists w1, w2. auto.
  - intros Hin. apply in_app_or in Hin as [Hin|[<-|[]]].
    + destruct (IH _ _ Hin) as (w & E & P & L). exists w. auto.
    + exists []. simpl. auto with arith.
  - intros Hin. apply in_map_iff in Hin as ([k s'] & <- & Hin).
    destruct (star_greedy_sound _ _ _ _ _ Hin) as (w & E & P & L).
    exists w. simpl. auto.
  - intros Hin. apply in_map_iff in Hin as ([k s'] & <- & Hin).
    destruct (at_least_one_sound _ p (star_greedy_sound p) _ _ _ _ Hin)
      as (w & E & P & Hne & L).
    exists w. simpl. auto.
  - intros Hin. apply in_map_iff in Hin as ([k s'] & <- & Hin).
    destruct (at_least_one_sound _ p (star_lazy_sound p) _ _ _ _ Hin)
      as (w & E & P & Hne & L).
    exists w. simpl. auto.
  - intros Hin. apply in_map_iff in Hin as (st1 & <- & Hin).
    destruct (IH _ _ Hin) as (w & E & P & L). exists w. simpl. auto.
  - destruct (pos st) eqn:Hp; [|intros []]. intros [<-|[]]. exists []. simpl.
    rewrite Hp. auto.
  - intros Hin. change (In st' (run Eos st)) in Hin. rewrite run_Eos in Hin.
    destruct (at_end (rest st)); [|destruct Hin].
    destruct Hin as [<-|[]]. exists []. simpl. auto with arith.
Qed.

Lemma star_greedy_first (p : N -> bool) (n : nat) (w s : str) :
  Forall (fun c => p c = true) w -> stops p s ->
  exists others, star_greedy p n (w ++ s) = (n + length w, s) :: others.
Proof.
  intros Hw Hs. revert n. induction Hw as [|c w Hc _ IH]; intros n; simpl.
  - rewrite Nat.add_0_r. destruct s as [|c s]; [eexists; reflexivity|].
    simpl in *. rewrite Hs. eexists; reflexivity.
  - rewrite Hc. destruct (IH (S n)) as [others ->].
    replace (S n + length w) with (n + S (length w)) by lia.
    eexists. reflexivity.
Qed.

Lemma first_seq (r1 r2 : regex) (st st1 st2 : mstate) :
  first r1 st st1 -> first r2 st1 st2 -> first (Seq r1 r2) st st2.
Proof.
  intros [o1 H1] [o2 H2]. unfold first. simpl. rewrite H1. simpl. rewrite H2.
  eexists. reflexivity.
Qed.

Lemma first_opt (r : regex) (st st' : mstate) : first r st st' -> first (Opt r) st st'.
Proof. intros [o Hr]. unfold first. simpl. rewrite Hr. eexists. reflexivity. Qed.

Lemma first_opt_skip (r : regex) (st : mstate) : run r st = [] -> first (Opt r) st st.
Proof. intros Hr. unfold first. simpl. rewrite Hr. eexists. reflexivity. Qed.

Lemma first_chr (a : N) (st : mstate) (s : str) :
  rest st = a :: s ->
  first (Chr (char a)) st {| caps := caps st; pos := S (pos st); rest := s |}.
Proof.
  intros Hs. unfold first. simpl. rewrite Hs. unfold char. rewrite N.eqb_refl.
  eexists. reflexivity.
Qed.

Lemma first_star (p : N -> bool) (st : mstate) (w s : str) :
  rest st = w ++ s -> Forall (fun c => p c = true) w -> stops p s ->
  first (Star p) st {| caps := caps st; pos := pos st + length w; rest := s |}.
Proof.
  intros Hs Hw Hstop. unfold first. simpl. rewrite Hs.
  destruct (star_greedy_first p (pos st) w s Hw Hstop) as [others ->].
  eexists. reflexivity.
Qed.

Lemma first_group_plus (g : String.string) (p : N -> bool) (st : mstate) (w s : str) :
  rest st = w ++ s -> w <> [] -> Forall (fun c => p c = true) w -> stops p s ->
  first (Group g (Plus p)) st
    {| caps := (g, w) :: caps st; pos := pos st + length w; rest := s |}.
Proof.
  intros Hs Hne Hw Hstop. unfold first. simpl. rewrite Hs.
  destruct w as [|c w]; [congruence|]. inversion Hw as [|? ? Hc Hw']; subst.
  simpl. rewrite Hc.
  destruct (star_greedy_first p (S (pos st)) w s Hw' Hstop) as [others ->].
  simpl. unfold set_group, advance. simpl.
  replace (S (pos st + length w) - pos st) with (S (length w)) by lia.
  replace (pos st + S (length w)) with (S (pos st + length w)) by lia.
  change (c :: w ++ s) with ((c :: w) ++ s).
  replace (S (length w)) with (length (c :: w)) by reflexivity.
  rewrite firstn_app, Nat.sub_diag, firstn_all. simpl. rewrite app_nil_r.
  eexists. reflexivity.
Qed.

Lemma first_eos (st : mstate) : rest st = [] -> first Eos st st.
Proof. intros Hs. unfold first. rewrite run_Eos, Hs. eexists. reflexivity. Qed.

(** The shortest-first attempts of [[p]+?] on a text that starts with a
    word [w] of the class: the proper prefixes of [w], then [w] itself. *)
Lemma star_lazy_split (p : N -> bool) (n : nat) (w s : str) :
  Forall (fun c => p c = true) w ->
  exists early later,
    star_lazy p n (w ++ s) = early ++ (n + length w, s) :: later
    /\ forall x, In x early ->
         exists w1 w2, w = w1 ++ w2 /\ w2 <> [] /\ x = (n + length w1, w2 ++ s).
Proof.
  intros Hw. revert n. induction Hw as [|c w Hc _ IH]; intros n.
  - exists [], (tl (star_lazy p n s)). split; [|intros x []].
    simpl. rewrite Nat.add_0_r. destruct s; reflexivity.
  - destruct (IH (S n)) as (early & later & Heq & Hearly).
    exists ((n, (c :: w) ++ s) :: early), later. split.
    + simpl. rewrite Hc, Heq.
      replace (S n + length w) with (n + S (length w)) by lia. reflexivity.
    + intros x [<-|Hx].
      * exists [], (c :: w). simpl. rewrite Nat.add_0_r.
        split; [reflexivity|]. split; [discriminate|reflexivity].
      * destruct (Hearly x Hx) as (w1 & w2 & -> & Hne & ->).
        exists (c :: w1), w2. simpl. split; [reflexivity|]. split; [exact Hne|].
        f_equal. lia.
Qed.

Lemma plus_lazy_split (p : N -> bool) (n : nat) (w s : str) :
  Forall (fun c => p c = true) w -> w <> [] ->
  exists early later,
    at_least_one star_lazy p n (w ++ s) = early ++ (n + length w, s) :: later
    /\ forall x, In x early ->
         exists w1 w2, w = w1 ++ w2 /\ w1 <> [] /\ w2 <> []
                       /\ x = (n + length w1, w2 ++ s).
Proof.
  intros Hw Hne. destruct w as [|c w]; [congruence|].
  inversion Hw as [|? ? Hc Hw']; subst. simpl. rewrite Hc.
  destruct (star_lazy_split p (S n) w s Hw') as (early & later & Heq & Hearly).
  exists early, later. split.
  - rewrite Heq. replace (S n + length w) with (n + S (length w)) by lia. reflexivity.
  - intros x Hx. destruct (Hearly x Hx) as (w1 & w2 & -> & Hne2 & ->).
    exists (c :: w1), w2. simpl. split; [reflexivity|]. split; [discriminate|].
    split; [exact Hne2|]. f_equal. lia.
Qed.

Lemma split_at_last {A : Type} (a : A) (l1 l1' l2 l2' : list A) :
  l1 ++ a :: l2 = l1' ++ a :: l2' -> ~ In a l2 -> ~ In a l2' -> l1 = l1'.
Proof.
  revert l1'. induction l1 as [|x l1 IH]; intros [|x' l1'] Heq H2 H2'; simpl in Heq.
  - reflexivity.
  - injection Heq as <- ->. destruct H2. apply in_or_app. right. left. reflexivity.
  - injection Heq as -> <-. destruct H2'. apply in_or_app. right. left. reflexivity.
  - injection Heq as <- Heq. f_equal. eapply IH; eassumption.
Qed.

Lemma flat_map_first {A B : Type} (f : A -> list B) (early later : list A) (x : A)
    (y : B) (others : list B) :
  (forall a, In a early -> f a = []) -> f x = y :: others ->
  hd_error (flat_map f (early ++ x :: later)) = Some y.
Proof.
  intros Hearly Hx. induction early as [|a early IH]; simpl.
  - rewrite Hx. reflexivity.
  - rewrite (Hearly a) by (left; reflexivity). simpl.
    apply IH. intros b Hb. apply Hearly. right. exact Hb.
Qed.

(** ** The entry-name pattern *)

Section EntryPattern.
Context `{UnicodeData}.

Lemma ENTRY_PATTERN_parts :
  ENTRY_PATTERN = Bos >> Group "username" (PlusLazy dot) >> TAIL.
Proof. reflexivity. Qed.

Lemma digit_not_space (c : N) : is_digit c = true -> is_space c = false.
Proof.
  unfold is_digit. intros Hd. destruct (is_space c) eqn:Hs; [|reflexivity].
  rewrite (decimal_space c Hs) in Hd. discriminate.
Qed.

Lemma punctuation_not_digit :
  is_digit 0x28 = false /\ is_digit 0x29 = false /\ is_digit 0x2F = false.
Proof.
  unfold is_digit. rewrite !decimal_latin1 by reflexivity. auto.
Qed.

Lemma digits_no_paren (w : str) : all is_digit w -> ~ In 0x28%N w.
Proof.
  intros Hw Hin. apply (proj1 (List.Forall_forall _ _) Hw) in Hin.
  destruct punctuation_not_digit as [H28 _]. congruence.
Qed.

Lemma spaces_no_paren (w : str) : all is_space w -> ~ In 0x28%N w.
Proof.
  intros Hw Hin. apply (proj1 (List.Forall_forall _ _) Hw) in Hin. discriminate.
Qed.

Lemma not_in_app {A : Type} (a : A) (l1 l2 : list A) :
  ~ In a l1 -> ~ In a l2 -> ~ In a (l1 ++ l2).
Proof. intros H1 H2 Hin. apply in_app_or in Hin as [Hin|Hin]; auto. Qed.

(** A word of the suffix is white space, then ["("], then a text without
    ["("] that ends in [")"]. *)
Lemma lang_SUFFIX_shape (w : str) :
  lang SUFFIX w ->
  exists ws body, w = ws ++ 0x28%N :: body ++ [0x29%N]
                  /\ all is_space ws /\ ~ In 0x28%N (body ++ [0x29%N]).
Proof.
  simpl. intros (w1 & w2 & -> & Hw1 & w3 & w4 & -> & (c & -> & Hc) & w5 & w6 & ->
                 & (_ & Hw5) & w7 & w8 & -> & Hw7 & (c' & -> & Hc')).
  unfold char in Hc, Hc'. apply N.eqb_eq in Hc, Hc'. subst c c'.
  exists w1, (w5 ++ w7). rewrite <- app_assoc. split; [reflexivity|].
  split; [exact Hw1|].
  apply not_in_app; [apply digits_no_paren, Hw5|].
  apply not_in_app; [|intros [Heq|[]]; discriminate].
  destruct Hw7 as [->|(a & b & -> & Ha & d & e & -> & (c & -> & Hc) & f & g & ->
                       & Hf & (_ & Hg))]; [intros []|].
  unfold char in Hc. apply N.eqb_eq in Hc. subst c.
  apply not_in_app; [apply spaces_no_paren, Ha|].
  apply not_in_app; [intros [Heq|[]]; discriminate|].
  apply not_in_app; [apply spaces_no_paren, Hf|apply digits_no_paren, Hg].
Qed.

(** After a text that is not only white space, the tail of the pattern
    cannot match a parenthesised suffix. *)
Lemma no_early_match (st : mstate) (pre body : str) (c : N) :
  rest st = pre ++ 0x28%N :: body ++ [0x29%N] ->
  ~ In 0x28%N (body ++ [0x29%N]) ->
  In c pre -> is_space c = false ->
  run TAIL st = [].
Proof.
  intros Hrest Hbody Hc Hsp.
  destruct (run TAIL st) as [|st' others] eqn:Hrun; [reflexivity|exfalso].
  assert (Hin : In st' (run TAIL st)) by (rewrite Hrun; left; reflexivity).
  unfold TAIL in Hin. simpl in Hin.
  apply in_flat_map in Hin as (st1 & H1 & H2).
  change (In st' (run Eos st1)) in H2. rewrite run_Eos in H2.
  destruct (at_end (rest st1)) eqn:Hend; [|destruct H2].
  change (In st1 (run (Opt SUFFIX) st)) in H1.
  apply run_sound in H1 as (w & Hw & _ & Hlang).
  rewrite Hrest in Hw.
  destruct (rest st1) as [|c1 [|c2 s1]]; simpl in Hend; try discriminate.
  - rewrite app_nil_r in Hw. subst w.
    destruct Hlang as [Hnil|Hlang]; [destruct pre; discriminate|].
    apply lang_SUFFIX_shape in Hlang as (ws & body' & Heq & Hws & Hbody').
    apply split_at_last in Heq; [|exact Hbody|exact Hbody']. subst ws.
    apply (proj1 (List.Forall_forall _ _) Hws) in Hc. congruence.
  - apply N.eqb_eq in Hend. subst c1.
    change (pre ++ 0x28%N :: body ++ [0x29%N])
      with (pre ++ (0x28%N :: body) ++ [0x29%N]) in Hw.
    rewrite app_assoc in Hw. apply app_inj_tail in Hw as [_ Hw]. discriminate.
Qed.

Lemma run_MAX_PART_at_close (st : mstate) : rest st = [0x29%N] -> run MAX_PART st = [].
Proof. intros Hs. unfold MAX_PART. simpl. rewrite Hs. reflexivity. Qed.

Lemma suffix_used (st : mstate) (ws used : str) :
  rest st = ws ++ 0x28%N :: used ++ [0x29%N] ->
  all is_space ws -> used <> [] -> all is_digit used ->
  exists n, first TAIL st {| caps := ("used"%string, used) :: caps st; pos := n; rest := [] |}.
Proof.
  intros Hrest Hws Hne Hused.
  destruct punctuation_not_digit as (_ & H29 & _).
  eexists. unfold TAIL, SUFFIX.
  eapply first_seq; [apply first_opt|apply first_eos; reflexivity].
  eapply first_seq; [eapply first_star; [exact Hrest|exact Hws|reflexivity]|].
  eapply first_seq; [apply first_chr; reflexivity|].
  eapply first_seq;
    [eapply (first_group_plus "used" is_digit _ used [0x29%N]);
     [reflexivity|exact Hne|exact Hused|exact H29]|].
  eapply first_seq; [apply first_opt_skip, run_MAX_PART_at_close; reflexivity|].
  apply first_chr. reflexivity.
Qed.

Lemma stops_digits_at_slash (ws s : str) :
  all is_space ws -> stops is_digit (ws ++ 0x2F%N :: s).
Proof.
  intros Hws. destruct punctuation_not_digit as (_ & _ & H2F).
  destruct Hws as [|c ws Hc _]; simpl; [exact H2F|].
  destruct (is_digit c) eqn:Hd; [|reflexivity].
  apply digit_not_space in Hd. congruence.
Qed.

Lemma suffix_used_max (st : mstate) (ws used ws1 ws2 mx : str) :
  rest st = ws ++ 0x28%N :: used ++ ws1 ++ 0x2F%N :: ws2 ++ mx ++ [0x29%N] ->
  all is_space ws -> used <> [] -> all is_digit used ->
  all is_space ws1 -> all is_space ws2 -> mx <> [] -> all is_digit mx ->
  exists n,
    first TAIL st {| caps := ("max"%string, mx) :: ("used"%string, used) :: caps st;
                     pos := n; rest := [] |}.
Proof.
  intros Hrest Hws Hne Hused Hws1 Hws2 Hne' Hmx.
  destruct punctuation_not_digit as (_ & H29 & _).
  eexists. unfold TAIL, SUFFIX, MAX_PART.
  eapply first_seq; [apply first_opt|apply first_eos; reflexivity].
  eapply first_seq; [eapply first_star; [exact Hrest|exact Hws|reflexivity]|].
  eapply first_seq; [apply first_chr; reflexivity|].
  eapply first_seq;
    [eapply (first_group_plus "used" is_digit _ used
               (ws1 ++ 0x2F%N :: ws2 ++ mx ++ [0x29%N]));
     [reflexivity|exact Hne|exact Hused|apply stops_digits_at_slash, Hws1]|].
  eapply first_seq.
  { apply first_opt.
    eapply first_seq; [eapply first_star; [reflexivity|exact Hws1|reflexivity]|].
    eapply first_seq; [apply first_chr; reflexivity|].
    eapply first_seq.
    - eapply (first_star is_space _ ws2 (mx ++ [0x29%N])); [reflexivity|exact Hws2|].
      destruct Hmx as [|c mx Hc _]; [congruence|]. simpl.
      apply digit_not_space, Hc.
    - eapply (first_group_plus "max" is_digit _ mx [0x29%N]);
        [reflexivity|exact Hne'|exact Hmx|exact H29]. }
  apply first_chr. reflexivity.
Qed.

End EntryPattern.

(** ** [strip] *)

Lemma lstrip_head (s : str) : stops is_space (lstrip s).
Proof.
  induction s as [|c s IH]; simpl; [exact I|].
  destruct (is_space c) eqn:Hc; [exact IH|exact Hc].
Qed.

Lemma lstrip_fixed (s : str) : stops is_space s -> lstrip s = s.
Proof. destruct s as [|c s]; simpl; [reflexivity|]. intros ->. reflexivity. Qed.

Lemma lstrip_suffix (s : str) : exists w, s = w ++ lstrip s.
Proof.
  induction s as [|c s [w IH]]; simpl; [exists []; reflexivity|].
  destruct (is_space c); [|exists []; reflexivity].
  exists (c :: w). simpl. f_equal. exact IH.
Qed.

Lemma rstrip_prefix (s : str) : exists w, s = rstrip s ++ w.
Proof.
  unfold rstrip. destruct (lstrip_suffix (rev s)) as [w Hw].
  exists (rev w). rewrite <- rev_app_distr, <- Hw, rev_involutive. reflexivity.
Qed.

Lemma lstrip_spaces (s : str) : exists sp, s = sp ++ lstrip s /\ all is_space sp.
Proof.
  induction s as [|c s (sp & IH & Hsp)]; simpl;
    [exists []; split; [reflexivity|constructor]|].
  destruct (is_space c) eqn:Hc.
  - exists (c :: sp). simpl. split; [f_equal; exact IH|constructor; assumption].
  - exists []. split; [reflexivity|constructor].
Qed.

Lemma rstrip_spaces (s : str) : exists sp, s = rstrip s ++ sp /\ all is_space sp.
Proof.
  unfold rstrip. destruct (lstrip_spaces (rev s)) as (sp & Hs & Hsp).
  exists (rev sp). split.
  - rewrite <- rev_app_distr, <- Hs, rev_involutive. reflexivity.
  - apply List.Forall_rev. exact Hsp.
Qed.

Lemma strip_trimmed (s : str) : trimmed (strip s).
Proof.
  unfold trimmed, strip. split.
  - destruct (rstrip_prefix (lstrip s)) as [w Hw].
    pose proof (lstrip_head s) as Hh. rewrite Hw in Hh.
    destruct (rstrip (lstrip s)); [exact I|exact Hh].
  - unfold rstrip. rewrite rev_involutive. apply lstrip_head.
Qed.

Lemma trimmed_strip (s : str) : trimmed s -> strip s = s.
Proof.
  intros [Hh Hl]. unfold strip, rstrip.
  rewrite (lstrip_fixed s Hh), (lstrip_fixed (rev s) Hl). apply rev_involutive.
Qed.

Lemma strip_idempotent (s : str) : strip (strip s) = strip s.
Proof. apply trimmed_strip, strip_trimmed. Qed.

Lemma trimmed_last (s init : str) (c : N) :
  trimmed s -> s = init ++ [c] -> is_space c = false.
Proof.
  intros [_ Hl] ->. rewrite rev_app_distr in Hl. exact Hl.
Qed.

(** ** Matching an entry name *)

Section EntryMatch.
Context `{UnicodeData}.

(** The candidates for the user name, shortest first. *)
Lemma username_candidates (name sfx : str) :
  all dot name -> name <> [] ->
  exists early later,
    run (Group "username" (PlusLazy dot)) (start (name ++ sfx))
    = early ++ named name sfx :: later
    /\ forall st, In st early ->
         exists w1 w2, name = w1 ++ w2 /\ w2 <> [] /\ rest st = w2 ++ sfx.
Proof.
  intros Hdot Hne.
  destruct (plus_lazy_split dot 0 name sfx Hdot Hne) as (early & later & Heq & Hearly).
  set (mk := fun x : nat * str =>
               set_group "username" (firstn (fst x - 0) (name ++ sfx))
                         (advance (start (name ++ sfx)) x)).
  exists (map mk early), (map mk later). split.
  - change (run (Group "username" (PlusLazy dot)) (start (name ++ sfx)))
      with (map (fun st' => set_group "username"
                              (firstn (pos st' - 0) (name ++ sfx)) st')
                (map (advance (start (name ++ sfx)))
                     (at_least_one star_lazy dot 0 (name ++ sfx)))).
    rewrite Heq, map_map, map_app. simpl. f_equal. f_equal.
    unfold named, set_group, advance. simpl.
    rewrite Nat.sub_0_r, firstn_app, Nat.sub_diag, firstn_all. simpl.
    rewrite app_nil_r. reflexivity.
  - intros st Hst. apply in_map_iff in Hst as (x & <- & Hx).
    destruct (Hearly x Hx) as (w1 & w2 & Hn & _ & Hw2 & ->).
    exists w1, w2. simpl. auto.
Qed.

Lemma every_candidate (v : str) (st : mstate) :
  In st (run (Group "username" (PlusLazy dot)) (start v)) ->
  exists w1 w2, v = w1 ++ w2 /\ w1 <> [] /\ all dot w1 /\ st = named w1 w2.
Proof.
  simpl. intros Hst. apply in_map_iff in Hst as (st1 & <- & Hst).
  apply in_map_iff in Hst as ([k s] & <- & Hks).
  destruct (at_least_one_sound _ dot (star_lazy_sound dot) _ _ _ _ Hks)
    as (w & -> & -> & Hne & Hdot).
  exists w, s. split; [reflexivity|]. split; [exact Hne|]. split; [exact Hdot|].
  unfold named, set_group, advance. simpl.
  rewrite Nat.sub_0_r, firstn_app, Nat.sub_diag, firstn_all. simpl.
  rewrite app_nil_r. reflexivity.
Qed.

Lemma run_ENTRY_PATTERN (v : str) :
  run ENTRY_PATTERN (start v)
  = flat_map (run TAIL) (run (Group "username" (PlusLazy dot)) (start v)).
Proof.
  rewrite ENTRY_PATTERN_parts.
  change (run (Bos >> Group "username" (PlusLazy dot) >> TAIL) (start v))
    with (flat_map (run TAIL) (run (Group "username" (PlusLazy dot)) (start v)) ++ []).
  apply app_nil_r.
Qed.

(** With a parenthesised suffix after a name that ends in a visible
    character, the first match takes that name as the user name. *)
Lemma entry_match (name ws body : str) (final : mstate) :
  name <> [] -> trimmed name -> all dot name ->
  ~ In 0x28%N (body ++ [0x29%N]) ->
  first TAIL (named name (ws ++ 0x28%N :: body ++ [0x29%N])) final ->
  re_match ENTRY_PATTERN (name ++ ws ++ 0x28%N :: body ++ [0x29%N]) = Some final.
Proof.
  intros Hne Htrim Hdot Hbody [others Hfinal].
  unfold re_match. change {| caps := []; pos := 0; rest := ?s |} with (start s).
  rewrite run_ENTRY_PATTERN.
  destruct (username_candidates name (ws ++ 0x28%N :: body ++ [0x29%N]) Hdot Hne)
    as (early & later & -> & Hearly).
  apply flat_map_first with (others := others); [|exact Hfinal].
  intros st Hst. destruct (Hearly st Hst) as (w1 & w2 & Hname & Hw2 & Hrest).
  destruct (exists_last Hw2) as (w2' & c & ->).
  assert (Hc : is_space c = false).
  { apply (trimmed_last name (w1 ++ w2') c Htrim).
    rewrite Hname, app_assoc. reflexivity. }
  apply (no_early_match st ((w2' ++ [c]) ++ ws) body c).
  - rewrite Hrest. apply app_assoc.
  - exact Hbody.
  - apply in_or_app. left. apply in_or_app. right. left. reflexivity.
  - exact Hc.
Qed.

Lemma flat_map_hd_cases {A B : Type} (f : A -> list B) (l : list A) (y : B) :
  (forall a, In a l -> f a = [] \/ f a = [y]) ->
  hd_error (flat_map f l) = None \/ hd_error (flat_map f l) = Some y.
Proof.
  induction l as [|a l IH]; simpl; intros Hf; [left; reflexivity|].
  destruct (Hf a (or_introl eq_refl)) as [->| ->]; simpl.
  - apply IH. intros b Hb. apply Hf. right. exact Hb.
  - right. reflexivity.
Qed.

(** A word of the suffix is white space and [(USED)] or [(USED/MAX)]. *)
Lemma lang_SUFFIX_forms (w : str) :
  lang SUFFIX w ->
  exists ws used,
    all is_space ws /\ used <> [] /\ all is_digit used
    /\ (w = ws ++ 0x28%N :: used ++ [0x29%N]
        \/ exists ws1 ws2 mx,
             all is_space ws1 /\ all is_space ws2 /\ mx <> [] /\ all is_digit mx
             /\ w = ws ++ 0x28%N :: used ++ ws1 ++ 0x2F%N :: ws2 ++ mx ++ [0x29%N]).
Proof.
  simpl. intros (w1 & w2 & -> & Hw1 & w3 & w4 & -> & (c & -> & Hc) & w5 & w6 & ->
                 & (Hne & Hw5) & w7 & w8 & -> & Hw7 & (c' & -> & Hc')).
  unfold char in Hc, Hc'. apply N.eqb_eq in Hc, Hc'. subst c c'.
  exists w1, w5. split; [exact Hw1|]. split; [exact Hne|]. split; [exact Hw5|].
  destruct Hw7 as [->|(a & b & -> & Ha & d & e & -> & (c & -> & Hc) & f & g & ->
                       & Hf & (Hgne & Hg))].
  - left. reflexivity.
  - unfold char in Hc. apply N.eqb_eq in Hc. subst c.
    right. exists a, f, g. repeat (split; [assumption|]).
    simpl. rewrite <- !app_assoc. simpl. rewrite <- !app_assoc. reflexivity.
Qed.

(** What a candidate for the user name is without the white space at its
    end. *)
Lemma candidate_name (v w1 w2 : str) :
  trimmed v -> v = w1 ++ w2 -> w1 <> [] -> all dot w1 ->
  exists sp, w1 = rstrip w1 ++ sp /\ all is_space sp
             /\ rstrip w1 <> [] /\ trimmed (rstrip w1) /\ all dot (rstrip w1).
Proof.
  intros [Hhead _] Hv Hne Hdot.
  destruct (rstrip_spaces w1) as (sp & Hw1 & Hsp).
  destruct w1 as [|c w1']; [congruence|].
  assert (Hc : is_space c = false) by (rewrite Hv in Hhead; exact Hhead).
  exists sp. split; [exact Hw1|]. split; [exact Hsp|].
  assert (Hlast : stops is_space (rev (rstrip (c :: w1'))))
    by (unfold rstrip; rewrite rev_involutive; apply lstrip_head).
  assert (Hchars : all dot (rstrip (c :: w1')))
    by (rewrite Hw1 in Hdot; apply List.Forall_app in Hdot; apply Hdot).
  destruct (rstrip (c :: w1')) as [|c0 name] eqn:Hname.
  - exfalso. simpl in Hw1. subst sp. inversion Hsp; congruence.
  - split; [discriminate|]. split; [|exact Hchars].
    split; [|exact Hlast].
    simpl in Hw1. injection Hw1 as <- _. exact Hc.
Qed.

(** A text of neither form is matched, if at all, as a user name: a
    suffix that is not well formed, or follows a line break, or is followed
    by other text, belongs to the name. *)
Lemma entry_match_other (v : str) :
  trimmed v ->
  (forall name used, ~ used_form v name used) ->
  (forall name used mx, ~ used_max_form v name used mx) ->
  re_match ENTRY_PATTERN v = None \/ re_match ENTRY_PATTERN v = Some (named v []).
Proof.
  intros Htrim Hused Hmax.
  unfold re_match. change {| caps := []; pos := 0; rest := ?s |} with (start s).
  rewrite run_ENTRY_PATTERN. apply flat_map_hd_cases.
  intros st Hst. apply every_candidate in Hst as (w1 & w2 & Hv & Hw1 & Hdot & ->).
  destruct w2 as [|c2 w2].
  - right. rewrite app_nil_r in Hv. subst w1. reflexivity.
  - left. destruct (run TAIL (named w1 (c2 :: w2))) as [|st' others] eqn:Hrun;
      [reflexivity|exfalso].
    assert (Hin : In st' (run TAIL (named w1 (c2 :: w2))))
      by (rewrite Hrun; left; reflexivity).
    unfold TAIL in Hin. simpl in Hin.
    apply in_flat_map in Hin as (st1 & H1 & H2).
    change (In st' (run Eos st1)) in H2. rewrite run_Eos in H2.
    destruct (at_end (rest st1)) eqn:Hend; [|destruct H2].
    change (In st1 (run (Opt SUFFIX) (named w1 (c2 :: w2)))) in H1.
    apply run_sound in H1 as (w & Hw & _ & Hlang). simpl in Hw.
    destruct (rest st1) as [|c1 [|c1' s1]]; simpl in Hend; try discriminate.
    + rewrite app_nil_r in Hw. subst w.
      destruct Hlang as [Hnil|Hlang]; [discriminate|].
      apply lang_SUFFIX_forms in Hlang as (ws & used & Hws & Hne & Hdigits & Hform).
      destruct (candidate_name v w1 (c2 :: w2) Htrim Hv Hw1 Hdot)
        as (sp & Hsplit & Hsp & Hname & Hntrim & Hndot).
      assert (Hspaces : all is_space (sp ++ ws)) by (apply List.Forall_app; auto).
      destruct Hform as [Hw|(ws1 & ws2 & mx & Hws1 & Hws2 & Hmne & Hmx & Hw)].
      * apply (Hused (rstrip w1) used). exists (sp ++ ws).
        split; [|auto 10].
        transitivity ((rstrip w1 ++ sp) ++ ws ++ 0x28%N :: used ++ [0x29%N]);
          [rewrite <- Hsplit, Hv, Hw; reflexivity|rewrite <- !app_assoc; reflexivity].
      * apply (Hmax (rstrip w1) used mx). exists (sp ++ ws), ws1, ws2.
        split; [|auto 15].
        transitivity ((rstrip w1 ++ sp) ++ ws ++ 0x28%N :: used ++ ws1 ++ 0x2F%N
                                                  :: ws2 ++ mx ++ [0x29%N]);
          [rewrite <- Hsplit, Hv, Hw; reflexivity|rewrite <- !app_assoc; reflexivity].
    + apply N.eqb_eq in Hend. subst c1.
      assert (Hsp : is_space 0x0A = false).
      { apply (trimmed_last v (w1 ++ w) 0x0A%N Htrim).
        rewrite Hv, Hw, app_assoc. reflexivity. }
      discriminate.
Qed.

(** A text of one of the two forms ends in a digit and [")"]. *)
Lemma forms_end (v : str) :
  (exists name used, used_form v name used)
  \/ (exists name used mx, used_max_form v name used mx) ->
  exists init d, v = init ++ [d; 0x29%N] /\ is_digit d = true.
Proof.
  assert (Hlast : forall w : str, w <> [] -> all is_digit w ->
            exists w' d, w = w' ++ [d] /\ is_digit d = true).
  { intros w Hne Hw. destruct (exists_last Hne) as (w' & d & ->).
    exists w', d. split; [reflexivity|].
    apply List.Forall_app in Hw as [_ Hd]. inversion Hd. assumption. }
  intros [(name & used & ws & -> & _ & _ & _ & _ & Hne & Hused)
         |(name & used & mx & ws & ws1 & ws2 & -> & _ & _ & _ & _ & _ & _ & _ & _
           & Hne & Hmx)].
  - destruct (Hlast used Hne Hused) as (w' & d & -> & Hd).
    exists (name ++ ws ++ 0x28%N :: w'), d. split; [|exact Hd].
    repeat (rewrite <- ?app_assoc; simpl). reflexivity.
  - destruct (Hlast mx Hne Hmx) as (w' & d & -> & Hd).
    exists (name ++ ws ++ 0x28%N :: used ++ ws1 ++ 0x2F%N :: ws2 ++ w'), d.
    split; [|exact Hd].
    repeat (rewrite <- ?app_assoc; simpl). reflexivity.
Qed.

End EntryMatch.

(** C8.  [parse_entry_name] on a text that is not a string gives
    [("", 1, 1)].  On a string, after [strip]: a text of the form
    [NAME (USED)] gives [NAME], [USED] and [max(USED, 1)]; one of the form
    [NAME (USED/MAX)] gives [NAME], [USED] and [MAX]; and every other text
    is the user name as a whole, with 1 and 1: the pattern is anchored at
    both ends, and a suffix that is not well formed is part of the name.
    [NAME] is any non-empty text on one line without white space at its
    ends, and white space may stand before ["("] and around ["/"]. *)
Theorem parse_entry_name_forms `{UnicodeData} :
  (forall value : cell,
      as_str value = None ->
      parse_entry_name value = {| Ingest.username := []; entries_used := 1; entries_max := 1 |})
  /\ (forall value name used : str,
        used_form (strip value) name used ->
        parse_entry_name (CStr value)
        = {| Ingest.username := name; entries_used := int used;
             entries_max := Z.max (int used) 1 |})
  /\ (forall value name used mx : str,
        used_max_form (strip value) name used mx ->
        parse_entry_name (CStr value)
        = {| Ingest.username := name; entries_used := int used; entries_max := int mx |})
  /\ (forall value : str,
        (forall name used, ~ used_form (strip value) name used) ->
        (forall name used mx, ~ used_max_form (strip value) name used mx) ->
        parse_entry_name (CStr value)
        = {| Ingest.username := strip value; entries_used := 1; entries_max := 1 |}).
Proof.
  split; [|split; [|split]].
  - intros [s| | |] Hv; try discriminate; reflexivity.
  - intros value name used (ws & Hv & Hne & Htrim & Hdot & Hws & Hune & Hused).
    destruct (suffix_used (named name (ws ++ 0x28%N :: used ++ [0x29%N])) ws used
                eq_refl Hws Hune Hused) as [n Hfirst].
    assert (Hin : ~ In 0x28%N (used ++ [0x29%N])).
    { apply not_in_app; [apply digits_no_paren, Hused|intros [Heq|[]]; discriminate]. }
    unfold parse_entry_name. rewrite Hv.
    rewrite (entry_match name ws used _ Hne Htrim Hdot Hin Hfirst).
    simpl. rewrite (trimmed_strip name Htrim).
    destruct used as [|d used]; [congruence|]. reflexivity.
  - intros value name used mx
           (ws & ws1 & ws2 & Hv & Hne & Htrim & Hdot & Hws & Hune & Hused & Hws1 & Hws2
            & Hmne & Hmx).
    destruct (suffix_used_max
                (named name (ws ++ 0x28%N :: used ++ ws1 ++ 0x2F%N :: ws2 ++ mx ++ [0x29%N]))
                ws used ws1 ws2 mx eq_refl Hws Hune Hused Hws1 Hws2 Hmne Hmx)
      as [n Hfirst].
    unfold parse_entry_name. rewrite Hv.
    assert (Hbody : (used ++ ws1 ++ 0x2F%N :: ws2 ++ mx ++ [0x29%N])
                    = (used ++ ws1 ++ 0x2F%N :: ws2 ++ mx) ++ [0x29%N]).
    { rewrite <- !app_assoc. simpl. rewrite <- !app_assoc. reflexivity. }
    assert (Hin : ~ In 0x28%N ((used ++ ws1 ++ 0x2F%N :: ws2 ++ mx) ++ [0x29%N])).
    { rewrite <- Hbody.
      apply not_in_app; [apply digits_no_paren, Hused|].
      apply not_in_app; [apply spaces_no_paren, Hws1|].
      intros [Heq|Hin]; [discriminate|]. revert Hin.
      apply not_in_app; [apply spaces_no_paren, Hws2|].
      apply not_in_app; [apply digits_no_paren, Hmx|intros [Heq|[]]; discriminate]. }
    rewrite Hbody in Hfirst |- *.
    rewrite (entry_match name ws (used ++ ws1 ++ 0x2F%N :: ws2 ++ mx) _ Hne Htrim Hdot
               Hin Hfirst).
    simpl. rewrite (trimmed_strip name Htrim).
    destruct used as [|d used]; [congruence|].
    destruct mx as [|m mx]; [congruence|]. reflexivity.
  - intros value Hused Hmax. unfold parse_entry_name.
    destruct (entry_match_other (strip value) (strip_trimmed value) Hused Hmax)
      as [-> | ->].
    + reflexivity.
    + simpl. rewrite strip_idempotent. reflexivity.
Qed.

(** The side conditions of the forms, on literal text. *)
Ltac literal_form :=
  try (vm_compute; reflexivity); try discriminate; try (split; reflexivity);
  repeat constructor.

(** A literal text that does not end in a digit and [")"] has neither
    form. *)
Ltac other_end Hinit Hd d :=
  apply (f_equal (@rev N)) in Hinit; rewrite rev_app_distr in Hinit;
  vm_compute in Hinit; try discriminate;
  let Heq := fresh "Heq" in
  injection Hinit as Heq _; subst d; vm_compute in Hd; discriminate.

Ltac no_form :=
  let Hform := fresh "Hform" in
  let init := fresh "init" in
  let d := fresh "d" in
  let Hinit := fresh "Hinit" in
  let Hd := fresh "Hd" in
  intros; intros Hform;
  match type of Hform with
  | used_form _ _ _ =>
      destruct (forms_end (H := latin1_unicode) _
                  (or_introl (ex_intro _ _ (ex_intro _ _ Hform))))
        as (init & d & Hinit & Hd)
  | used_max_form _ _ _ _ =>
      destruct (forms_end (H := latin1_unicode) _
                  (or_intror (ex_intro _ _ (ex_intro _ _ (ex_intro _ _ Hform)))))
        as (init & d & Hinit & Hd)
  end;
  other_end Hinit Hd d.

Lemma parse_entry_name_forms_witness :
  parse_entry_name (CStr (lit "  bob smith  (3) "))
  = {| Ingest.username := lit "bob smith"; entries_used := 3; entries_max := 3 |}
  /\ parse_entry_name (CStr (lit "bob (3 / 150)"))
     = {| Ingest.username := lit "bob"; entries_used := 3; entries_max := 150 |}
  /\ parse_entry_name (CStr (lit "bob (0)"))
     = {| Ingest.username := lit "bob"; entries_used := 0; entries_max := 1 |}
  /\ parse_entry_name (CStr (lit "bob (3) jr"))
     = {| Ingest.username := lit "bob (3) jr"; entries_used := 1; entries_max := 1 |}
  /\ parse_entry_name (CStr (lit "bob (x)"))
     = {| Ingest.username := lit "bob (x)"; entries_used := 1; entries_max := 1 |}
  /\ parse_entry_name (CStr (lit "bob (3/)"))
     = {| Ingest.username := lit "bob (3/)"; entries_used := 1; entries_max := 1 |}
  /\ parse_entry_name (CInt 7)
     = {| Ingest.username := []; entries_used := 1; entries_max := 1 |}.
Proof.
  destruct (parse_entry_name_forms (H := latin1_unicode)) as (Hnone & Hused & Hmax & Hother).
  split; [|split; [|split; [|split; [|split; [|split]]]]].
  - apply (Hused (lit "  bob smith  (3) ") (lit "bob smith") (lit "3")).
    exists (lit "  "). repeat split; literal_form.
  - apply (Hmax (lit "bob (3 / 150)") (lit "bob") (lit "3") (lit "150")).
    exists (lit " "), (lit " "), (lit " "). repeat split; literal_form.
  - apply (Hused (lit "bob (0)") (lit "bob") (lit "0")).
    exists (lit " "). repeat split; literal_form.
  - apply (Hother (lit "bob (3) jr")); no_form.
  - apply (Hother (lit "bob (x)")); no_form.
  - apply (Hother (lit "bob (3/)")); no_form.
  - apply Hnone. reflexivity.
Defined.

(* ===================================================================== *)
(** * Further properties                                                   *)
(* ===================================================================== *)

(** ** Normalized names *)

Lemma latin1_decomposition_ascii (c : N) : (c < 128)%N -> latin1_decomposition c = [c].
Proof.
  intros Hc. unfold latin1_decomposition.
  repeat match goal with
         | |- context [(c =? ?k)%N] =>
             replace (c =? k)%N with false by (symmetry; apply N.eqb_neq; lia)
         | |- context [(?k <=? c)%N] =>
             replace (k <=? c)%N with false by (symmetry; apply N.leb_gt; lia)
         end.
  reflexivity.
Qed.

Lemma nfkd_ascii_is_ascii `{UnicodeData} (s : str) : all is_ascii (nfkd_ascii s).
Proof.
  unfold nfkd_ascii, all. apply List.Forall_forall. intros c Hc.
  apply in_flat_map in Hc as (c0 & _ & Hc).
  unfold ascii_ignore in Hc. apply filter_In in Hc. apply Hc.
Qed.

Lemma nfkd_ascii_fixed `{UnicodeData} (s : str) : all is_ascii s -> nfkd_ascii s = s.
Proof.
  unfold nfkd_ascii. induction 1 as [|c s Hc _ IH]; simpl; [reflexivity|].
  unfold is_ascii in Hc. apply N.ltb_lt in Hc.
  rewrite decomposition_latin1 by lia. rewrite latin1_decomposition_ascii by exact Hc.
  simpl. unfold is_ascii. rewrite (proj2 (N.ltb_lt _ _) Hc). simpl.
  f_equal. exact IH.
Qed.

Lemma lstrip_incl (s : str) : incl (lstrip s) s.
Proof.
  destruct (lstrip_suffix s) as [w Hw]. intros c Hc.
  rewrite Hw. apply in_or_app. right. exact Hc.
Qed.

Lemma strip_incl (s : str) : incl (strip s) s.
Proof.
  unfold strip, rstrip. intros c Hc.
  apply in_rev, lstrip_incl in Hc. apply in_rev in Hc. apply lstrip_incl, Hc.
Qed.

Lemma sub_spaces_chars (b : bool) (s : str) (c : N) :
  In c (sub_spaces b s) -> c = 0x20%N \/ In c s.
Proof.
  revert b. induction s as [|x s IH]; intros b; simpl; [tauto|].
  destruct (is_space x); [destruct b|]; simpl; intros Hc.
  - destruct (IH _ Hc); tauto.
  - destruct Hc as [<-|Hc]; [tauto|]. destruct (IH _ Hc); tauto.
  - destruct Hc as [<-|Hc]; [tauto|]. destruct (IH _ Hc); tauto.
Qed.

Lemma sub_spaces_spaced (b : bool) (s : str) :
  spaced (sub_spaces b s) /\ (b = true -> stops is_space (sub_spaces b s)).
Proof.
  revert b. induction s as [|x s IH]; intros b; simpl; [tauto|].
  destruct (is_space x) eqn:Hx.
  - destruct b.
    + apply IH.
    + split; [|discriminate]. simpl. split; [|apply IH].
      intros _. split; [reflexivity|]. apply IH. reflexivity.
  - split; [|intros _; exact Hx]. simpl. split; [|apply IH].
    rewrite Hx. discriminate.
Qed.

Lemma sub_spaces_fixed (b : bool) (s : str) :
  spaced s -> (b = true -> stops is_space s) -> sub_spaces b s = s.
Proof.
  revert b. induction s as [|x s IH]; intros b; simpl; [reflexivity|].
  intros [Hx Hs] Hb. destruct (is_space x) eqn:Ex.
  - destruct (Hx eq_refl) as [-> Hnext].
    destruct b; [specialize (Hb eq_refl); simpl in Hb; congruence|].
    f_equal. apply IH; [exact Hs|intros _; exact Hnext].
  - f_equal. apply IH; [exact Hs|discriminate].
Qed.

Lemma sub_spaces_snoc (b : bool) (s : str) (c : N) :
  is_space c = false -> sub_spaces b (s ++ [c]) = sub_spaces b s ++ [c].
Proof.
  intros Hc. revert b. induction s as [|x s IH]; intros b; simpl.
  - rewrite Hc. reflexivity.
  - destruct (is_space x); [destruct b|]; simpl; rewrite IH; reflexivity.
Qed.

Lemma sub_spaces_trimmed (s : str) : trimmed s -> trimmed (sub_spaces false s).
Proof.
  intros [Hh Hl]. split.
  - destruct s as [|c s]; simpl in *; [exact I|]. rewrite Hh. exact Hh.
  - destruct (rev s) as [|c r] eqn:Hr.
    + apply (f_equal (@rev N)) in Hr. rewrite rev_involutive in Hr. subst s. exact I.
    + apply (f_equal (@rev N)) in Hr. rewrite rev_involutive in Hr. subst s.
      simpl in Hl. simpl. rewrite sub_spaces_snoc by exact Hl.
      rewrite rev_app_distr. exact Hl.
Qed.

Lemma normalize_player_name_normal `{UnicodeData} (name : option str) :
  normal_form (normalize_player_name name).
Proof.
  assert (Hnil : normal_form []).
  { split; [constructor|]. split; [split; exact I|exact I]. }
  unfold normalize_player_name. destruct name as [[|c s]|]; try exact Hnil.
  split; [|split].
  - apply List.Forall_forall. intros x Hx.
    apply sub_spaces_chars in Hx as [->|Hx]; [reflexivity|].
    apply strip_incl in Hx.
    apply (proj1 (List.Forall_forall _ _) (nfkd_ascii_is_ascii (c :: s))). exact Hx.
  - apply sub_spaces_trimmed, strip_trimmed.
  - apply sub_spaces_spaced.
Qed.

Lemma normalize_player_name_fixed `{UnicodeData} (s : str) :
  normal_form s -> normalize_player_name (Some s) = s.
Proof.
  intros (Ha & Ht & Hs). unfold normalize_player_name.
  destruct s as [|c s]; [reflexivity|].
  rewrite (nfkd_ascii_fixed _ Ha), (trimmed_strip _ Ht).
  apply sub_spaces_fixed; [exact Hs|discriminate].
Qed.

(** X1.  A normalized name is ASCII, has no white space at its ends and
    only single spaces inside, and normalizing it again changes nothing. *)
Theorem normalize_player_name_idempotent `{UnicodeData} (name : option str) :
  normal_form (normalize_player_name name)
  /\ normalize_player_name (Some (normalize_player_name name))
     = normalize_player_name name.
Proof.
  split; [apply normalize_player_name_normal|].
  apply normalize_player_name_fixed, normalize_player_name_normal.
Qed.

(** X2.  The comparable key of a name is that of its normalized form, so a
    raw name and the normalized name stored for it meet on the same key. *)
Theorem comparable_name_of_normalized `{UnicodeData} (name : option str) :
  comparable_name (Some (normalize_player_name name)) = comparable_name name.
Proof.
  unfold comparable_name.
  rewrite (normalize_player_name_fixed _ (normalize_player_name_normal name)).
  reflexivity.
Qed.

(** ** What the tokenizer returns *)

Lemma flush_ok `{UnicodeData} (seen : nat) (st : scan) :
  scan_ok seen st ->
  Forall lineup_pair_ok (flush st) /\ length (flush st) <= seen.
Proof.
  intros [Hres Hslot]. unfold flush.
  destruct (current_slot st) as [[|c slot]|] eqn:Hcur.
  - destruct Hslot as [Hin _]. discriminate.
  - destruct Hslot as [Hin Hlen].
    destruct (current_tokens st) as [|t ts]; [split; [exact Hres|lia]|].
    destruct (normalize_player_name (Some (join (lit " ") (t :: ts)))) as [|n name] eqn:Hn;
      [split; [exact Hres|lia]|].
    split.
    + apply Forall_app. split; [exact Hres|]. constructor; [|constructor].
      split; [exact Hin|]. split; [discriminate|].
      simpl. rewrite <- Hn. apply normalize_player_name_normal.
    + rewrite length_app. simpl. lia.
  - rewrite Hslot. split; [constructor|simpl; lia].
Qed.

Lemma step_ok `{UnicodeData} (seen : nat) (st : scan) (token : str) :
  scan_ok seen st ->
  scan_ok (seen + length (slot_tokens [token])) (step st token).
Proof.
  intros Hst. unfold step, slot_tokens. simpl.
  destruct (in_LINEUP_SLOT_SET (str_upper token)) eqn:Hslot; simpl.
  - destruct (flush_ok seen st Hst) as [Hres Hlen].
    split; [exact Hres|]. simpl. split; [exact Hslot|lia].
  - rewrite Nat.add_0_r. exact Hst.
Qed.

Lemma scan_tokens_ok `{UnicodeData} (tokens : list str) (seen : nat) (st : scan) :
  scan_ok seen st ->
  scan_ok (seen + length (slot_tokens tokens)) (fold_left step tokens st).
Proof.
  revert seen st. induction tokens as [|t tokens IH]; intros seen st Hst; simpl.
  - rewrite Nat.add_0_r. exact Hst.
  - apply (step_ok seen st t) in Hst. apply IH in Hst.
    unfold slot_tokens in *. simpl in *.
    destruct (in_LINEUP_SLOT_SET (str_upper t)); simpl in *;
      [|rewrite Nat.add_0_r in Hst; exact Hst].
    replace (seen + S (length (List.filter _ tokens)))
      with (seen + 1 + length (List.filter (fun t0 => in_LINEUP_SLOT_SET (str_upper t0)) tokens))
      by lia.
    exact Hst.
Qed.

Lemma parse_lineup_ok `{UnicodeData} (value : cell) :
  Forall lineup_pair_ok (parse_lineup value).
Proof.
  assert (Hinit : scan_ok 0 {| results := []; current_slot := None; current_tokens := [] |}).
  { split; [constructor|reflexivity]. }
  destruct value as [text| | |]; simpl; try constructor.
  pose proof (scan_tokens_ok (tokens_of text) 0 _ Hinit) as Hscan.
  apply flush_ok in Hscan. apply Hscan.
Qed.

(** X3.  Every pair [parse_lineup] returns has a slot of the roster
    vocabulary and a non-empty normalized player name, there are no more
    pairs than slot tokens in the text, and a value that is not a string
    gives no pair. *)
Theorem parse_lineup_pairs `{UnicodeData} (value : cell) :
  Forall lineup_pair_ok (parse_lineup value)
  /\ (forall text : str, value = CStr text ->
        length (parse_lineup value) <= length (slot_tokens (tokens_of text)))
  /\ (as_str value = None -> parse_lineup value = []).
Proof.
  split; [apply parse_lineup_ok|].
  assert (Hinit : scan_ok 0 {| results := []; current_slot := None; current_tokens := [] |}).
  { split; [constructor|reflexivity]. }
  destruct value as [text| | |]; simpl;
    try (split; [intros ? [=]|reflexivity]).
  pose proof (scan_tokens_ok (tokens_of text) 0 _ Hinit) as Hscan.
  apply flush_ok in Hscan as [Hres Hlen].
  split; [|discriminate].
  intros ? [= <-]. exact Hlen.
Qed.

(** ** What the entry-name parser returns *)

(** A match adds captures of the pattern's groups and keeps the others. *)
Lemma run_caps (r : regex) (st st' : mstate) :
  In st' (run r st) ->
  exists new, caps st' = new ++ caps st
              /\ Forall (fun gv => In (fst gv) (group_names r)) new.
Proof.
  revert st st'. induction r as [p|r1 IH1 r2 IH2|r IH|p|p|p|g r IH| |]; intros st st' Hin.
  - simpl in Hin. destruct (rest st) as [|c s]; [destruct Hin|].
    destruct (p c); [|destruct Hin]. destruct Hin as [<-|[]]. exists []. auto.
  - simpl in Hin. apply in_flat_map in Hin as (st1 & H1 & H2).
    destruct (IH1 _ _ H1) as (n1 & E1 & F1). destruct (IH2 _ _ H2) as (n2 & E2 & F2).
    exists (n2 ++ n1). rewrite E2, E1, app_assoc. split; [reflexivity|].
    apply Forall_app. split; (eapply List.Forall_impl; [|eassumption]); simpl;
      intros gv Hgv; apply in_or_app; auto.
  - simpl in Hin. apply in_app_or in Hin as [Hin|[<-|[]]]; [apply IH, Hin|].
    exists []. auto.
  - simpl in Hin. apply in_map_iff in Hin as (x & <- & _). exists []. auto.
  - simpl in Hin. apply in_map_iff in Hin as (x & <- & _). exists []. auto.
  - simpl in Hin. apply in_map_iff in Hin as (x & <- & _). exists []. auto.
  - simpl in Hin. apply in_map_iff in Hin as (st1 & <- & H1).
    destruct (IH _ _ H1) as (n1 & E1 & F1).
    exists ((g, firstn (pos st1 - pos st) (rest st)) :: n1). simpl.
    rewrite E1. split; [reflexivity|].
    constructor; [left; reflexivity|].
    eapply List.Forall_impl; [|exact F1]. simpl. auto.
  - simpl in Hin. destruct (pos st); [|destruct Hin]. destruct Hin as [<-|[]].
    exists []. auto.
  - change (In st' (run Eos st)) in Hin. rewrite run_Eos in Hin.
    destruct (at_end (rest st)); [|destruct Hin]. destruct Hin as [<-|[]].
    exists []. auto.
Qed.

Lemma assoc_app_other (name : String.string) (new old : list (String.string * str)) :
  Forall (fun gv => fst gv <> name) new -> assoc name (new ++ old) = assoc name old.
Proof.
  induction 1 as [|[g v] new Hg _ IH]; simpl; [reflexivity|].
  simpl in Hg. destruct (String.eqb_spec g name); [congruence|exact IH].
Qed.

Lemma int_nonneg `{UnicodeData} (s : str) : (0 <= int s)%Z.
Proof.
  unfold int.
  assert (Hgen : forall acc, (0 <= acc)%Z ->
            (0 <= fold_left (fun acc c => 10 * acc + Z.of_N (default 0%N (decimal c)))%Z
                            s acc)%Z).
  { induction s as [|c s IH]; intros acc Hacc; simpl; [exact Hacc|].
    apply IH. lia. }
  apply Hgen. lia.
Qed.

Lemma lstrip_keeps (s : str) (c : N) :
  In c s -> is_space c = false -> In c (lstrip s).
Proof.
  induction s as [|x s IH]; simpl; [tauto|].
  intros [->|Hc] Hsp.
  - rewrite Hsp. left. reflexivity.
  - destruct (is_space x); [apply IH; assumption|right; exact Hc].
Qed.

Lemma strip_keeps (s : str) (c : N) :
  In c s -> is_space c = false -> In c (strip s).
Proof.
  intros Hc Hsp. unfold strip, rstrip.
  apply in_rev. rewrite rev_involutive.
  apply lstrip_keeps; [|exact Hsp]. apply in_rev. rewrite rev_involutive.
  apply lstrip_keeps; assumption.
Qed.

(** Every match of the entry pattern has taken a non-empty prefix of the
    text as the group [username]. *)
Lemma entry_match_username `{UnicodeData} (v : str) (m : mstate) :
  re_match ENTRY_PATTERN v = Some m ->
  exists w1 w2, v = w1 ++ w2 /\ w1 <> [] /\ group m "username" = Some w1.
Proof.
  unfold re_match. change {| caps := []; pos := 0; rest := v |} with (start v).
  rewrite run_ENTRY_PATTERN. intros Hhd.
  assert (Hin : In m (flat_map (run TAIL)
                        (run (Group "username" (PlusLazy dot)) (start v)))).
  { destruct (flat_map _ _) as [|x l]; [discriminate|].
    injection Hhd as ->. left. reflexivity. }
  apply in_flat_map in Hin as (st & Hst & Hm).
  apply every_candidate in Hst as (w1 & w2 & Hv & Hw1 & _ & ->).
  apply run_caps in Hm as (new & Hcaps & Hnew).
  exists w1, w2. split; [exact Hv|]. split; [exact Hw1|].
  unfold group. rewrite Hcaps. simpl caps.
  rewrite assoc_app_other; [reflexivity|].
  eapply List.Forall_impl; [|exact Hnew]. simpl.
  intros gv [<-|[<-|[]]]; discriminate.
Qed.

(** X4.  Whatever the value, the user name [parse_entry_name] returns has
    no white space at its ends and the two counts are not negative; for a
    string, the user name is empty only when the string is blank. *)
Theorem parse_entry_name_result `{UnicodeData} (value : cell) :
  trimmed (Ingest.username (parse_entry_name value))
  /\ (0 <= entries_used (parse_entry_name value))%Z
  /\ (0 <= entries_max (parse_entry_name value))%Z
  /\ (forall text : str, value = CStr text ->
        (Ingest.username (parse_entry_name value) = [] <-> strip text = [])).
Proof.
  destruct value as [text| | |]; simpl;
    try (split; [split; exact I|split; [lia|split; [lia|intros ? [=]]]]).
  destruct (re_match ENTRY_PATTERN (strip text)) as [m|] eqn:Hm; simpl.
  - destruct (entry_match_username _ _ Hm) as (w1 & w2 & Hv & Hw1 & ->). simpl.
    split; [apply strip_trimmed|].
    split; [destruct (group m "used") as [[|c d]|]; try lia; apply int_nonneg|].
    split.
    + pose proof (int_nonneg) as Hint.
      destruct (group m "used") as [[|c d]|], (group m "max") as [[|c' d']|];
        try apply Hint; lia.
    + intros ? [= <-]. split.
      * intros Hnil. exfalso.
        destruct w1 as [|c w1]; [congruence|].
        assert (Hc : is_space c = false).
        { pose proof (strip_trimmed text) as [Hh _]. rewrite Hv in Hh. exact Hh. }
        pose proof (strip_keeps (c :: w1) c (or_introl eq_refl) Hc) as Hin.
        rewrite Hnil in Hin. destruct Hin.
      * intros Hnil. rewrite Hnil in Hv. destruct w1; [congruence|discriminate].
  - split; [apply strip_trimmed|]. split; [lia|]. split; [lia|].
    intros ? [= <-]. reflexivity.
Qed.

(** ** De-duplication of the entries *)

Lemma find_filter {A : Type} (p q : A -> bool) (l : list A) :
  find p (List.filter q l) = find (fun x => q x && p x) l.
Proof.
  induction l as [|x l IH]; simpl; [reflexivity|].
  destruct (q x); simpl; [destruct (p x); [reflexivity|exact IH]|exact IH].
Qed.

Lemma drop_duplicates_first {A : Type} (key : A -> option Z) (rows : list A) (r : A) :
  In r (drop_duplicates key rows) ->
  find (fun x => bool_decide (key x = key r)) rows = Some r.
Proof.
  induction rows as [|x rows IH]; simpl; [intros []|].
  intros [->|Hr].
  - rewrite bool_decide_eq_true_2 by reflexivity. reflexivity.
  - apply filter_In in Hr as [Hr Hne].
    rewrite bool_decide_eq_false_2; [apply IH, Hr|].
    intros Heq. rewrite bool_decide_eq_true_2 in Hne by exact Heq. discriminate.
Qed.

Lemma drop_duplicates_covers {A : Type} (key : A -> option Z) (rows : list A) (r : A) :
  In r rows -> exists r', In r' (drop_duplicates key rows) /\ key r' = key r.
Proof.
  induction rows as [|x rows IH]; simpl; [intros []|].
  intros [->|Hr].
  - exists r. auto.
  - destruct (IH Hr) as (r' & Hr' & Hk).
    destruct (decide (key x = key r')) as [Heq|Hne].
    + exists x. split; [left; reflexivity|congruence].
    + exists r'. split; [|exact Hk]. right. apply filter_In. split; [exact Hr'|].
      rewrite bool_decide_eq_false_2 by exact Hne. reflexivity.
Qed.

(** X5.  Of the standings rows with a lineup, [entries_raw] keeps for every
    entry id the first one in the sheet, and leaves no id out. *)
Theorem entries_raw_first_rows `{UnicodeData}
    (standings : list standings_row) (e : entry_row) :
  In e (entries_raw standings) ->
  find (entry_with_id (EntryId (source e))) standings = Some (source e)
  /\ forall r : standings_row,
       In r standings -> notna (Lineup r) = true ->
       exists e' : entry_row,
         In e' (entries_raw standings) /\ EntryId (source e') = EntryId r.
Proof.
  intros He. split.
  - apply entries_raw_In in He as (Hsrc & _).
    apply drop_duplicates_first in Hsrc. rewrite find_filter in Hsrc. exact Hsrc.
  - intros r Hr Hl.
    destruct (drop_duplicates_covers EntryId
                (List.filter (fun r => notna (Lineup r)) standings) r)
      as (r' & Hr' & Hk).
    { apply filter_In. auto. }
    unfold entries_raw.
    eexists. split; [apply in_map_iff; eexists; split; [reflexivity|exact Hr']|].
    exact Hk.
Qed.

Lemma entries_raw_first_rows_witness :
  let standings := [entry_line (Some 4%Z) "ann" "PG A SG B";
                    entry_line (Some 4%Z) "ann" "PG C SG D";
                    entry_line (Some 9%Z) "bob" "PG A SG B"] in
  map (fun e => (EntryId (source e), Ingest.lineup_players e)) (entries_raw standings)
  = [(Some 4%Z, [lit "A"; lit "B"]); (Some 9%Z, [lit "A"; lit "B"])]
  /\ exists e : entry_row,
       In e (entries_raw standings)
       /\ find (entry_with_id (EntryId (source e))) standings = Some (source e).
Proof.
  cbv zeta. split; [vm_compute; reflexivity|].
  eexists. split; [left; reflexivity|].
  eapply (entries_raw_first_rows
            [entry_line (Some 4%Z) "ann" "PG A SG B";
             entry_line (Some 4%Z) "ann" "PG C SG D";
             entry_line (Some 9%Z) "bob" "PG A SG B"]).
  left; reflexivity.
Defined.

(** ** When two entries have the same key *)

Lemma join_cons (sep : str) (x : str) (l : list str) :
  join sep (x :: l) = x ++ match l with [] => [] | _ :: _ => sep ++ join sep l end.
Proof. destruct l; simpl; [rewrite app_nil_r|]; reflexivity. Qed.

(** Two texts without the separator, each followed by nothing or by the
    separator, are equal when the whole texts are. *)
Lemma split_at_first (a : N) (x y t1 t2 : str) :
  ~ In a x -> ~ In a y ->
  (t1 = [] \/ exists u, t1 = a :: u) -> (t2 = [] \/ exists u, t2 = a :: u) ->
  x ++ t1 = y ++ t2 -> x = y /\ t1 = t2.
Proof.
  revert y. induction x as [|c x IH]; intros [|d y] Hx Hy H1 H2 Heq; simpl in *.
  - auto.
  - exfalso. destruct H1 as [->|[u ->]]; [discriminate|].
    injection Heq as <- _. apply Hy. left. reflexivity.
  - exfalso. destruct H2 as [->|[u ->]]; [discriminate|].
    injection Heq as -> _. apply Hx. left. reflexivity.
  - injection Heq as <- Heq.
    destruct (IH y) as [-> ->]; auto.
Qed.

Lemma join_injective (l1 l2 : list str) :
  Forall key_safe l1 -> Forall key_safe l2 ->
  join (lit "|") l1 = join (lit "|") l2 -> l1 = l2.
Proof.
  intros H1. revert l2. induction H1 as [|x l1 [Hx Hxs] Hl1 IH]; intros l2 H2 Heq.
  - destruct H2 as [|y l2 [Hy _] _]; [reflexivity|].
    rewrite join_cons in Heq. simpl in Heq. destruct y; [congruence|discriminate].
  - destruct H2 as [|y l2 [Hy Hys] Hl2].
    + rewrite join_cons in Heq. simpl in Heq. destruct x; [congruence|discriminate].
    + rewrite !join_cons in Heq.
      apply split_at_first with (a := 0x7C%N) in Heq as [-> Htail];
        try assumption;
        try (match goal with |- context [match ?l with _ => _ end] => destruct l end;
             [left; reflexivity|right; eexists; reflexivity]).
      f_equal. destruct l1 as [|a l1], l2 as [|b l2]; try reflexivity; try discriminate.
      simpl in Htail. injection Htail as Htail. apply IH; assumption.
Qed.

Lemma lineup_players_nonempty `{UnicodeData}
    (standings : list standings_row) (e : entry_row) (name : str) :
  In e (entries_raw standings) -> In name (Ingest.lineup_players e) -> name <> [].
Proof.
  intros He Hname.
  apply entries_raw_In in He as (_ & _ & Hp & _). rewrite Hp in Hname.
  apply in_map_iff in Hname as ([slot n] & <- & Hin).
  pose proof (parse_lineup_ok (Lineup (source e))) as Hok.
  apply (proj1 (List.Forall_forall _ _) Hok) in Hin. apply Hin.
Qed.

(** X6.  For two entries whose player names have no ["|"], the canonical
    keys are equal exactly when the lineups hold the same names the same
    number of times. *)
Theorem canonical_key_exact `{UnicodeData}
    (standings : list standings_row) (e e' : entry_row) :
  In e (entries_raw standings) -> In e' (entries_raw standings) ->
  (forall name, In name (Ingest.lineup_players e ++ Ingest.lineup_players e') ->
                ~ In 0x7C%N name) ->
  canonical_lineup_key e = canonical_lineup_key e'
  <-> Permutation (Ingest.lineup_players e) (Ingest.lineup_players e').
Proof.
  intros He He' Hbar.
  destruct (entries_raw_In _ _ He) as (_ & _ & _ & ->).
  destruct (entries_raw_In _ _ He') as (_ & _ & _ & ->).
  unfold key_of_players. split.
  - intros Heq. apply join_injective in Heq.
    + rewrite <- (sorted_perm str_ltb (Ingest.lineup_players e)), Heq.
      apply sorted_perm.
    + apply List.Forall_forall. intros name Hname. apply sorted_In in Hname.
      split; [exact (lineup_players_nonempty standings e name He Hname)|].
      apply Hbar, in_or_app. auto.
    + apply List.Forall_forall. intros name Hname. apply sorted_In in Hname.
      split; [exact (lineup_players_nonempty standings e' name He' Hname)|].
      apply Hbar, in_or_app. auto.
  - intros Hperm.
    rewrite (sorted_permutation_eq str_ltb str_ltb_strict_total _ _ Hperm).
    reflexivity.
Qed.

Lemma canonical_key_exact_witness :
  let standings := [entry_line (Some 1%Z) "ann" "PG A SG B";
                    entry_line (Some 2%Z) "bob" "PG B SG A"] in
  exists e e' : entry_row,
    In e (entries_raw standings) /\ In e' (entries_raw standings)
    /\ EntryId (source e) <> EntryId (source e')
    /\ (canonical_lineup_key e = canonical_lineup_key e'
        <-> Permutation (Ingest.lineup_players e) (Ingest.lineup_players e')).
Proof.
  cbv zeta. eexists. eexists.
  split; [left; reflexivity|]. split; [right; left; reflexivity|].
  split; [vm_compute; discriminate|].
  eapply (canonical_key_exact
            [entry_line (Some 1%Z) "ann" "PG A SG B";
             entry_line (Some 2%Z) "bob" "PG B SG A"]).
  - left; reflexivity.
  - right; left; reflexivity.
  - intros name Hname. vm_compute in Hname.
    repeat (destruct Hname as [<-|Hname]; [intros [Hb|[]]; discriminate|]).
    destruct Hname.
Defined.

Lemma NoDup_map_other {A B : Type} `{EqDecision B} (f : A -> B) (l : list A) (a : A) :
  List.NoDup (map f l) -> 1 < length l -> exists b, In b l /\ f b <> f a.
Proof.
  intros Hnd Hlen. destruct l as [|x [|y l]]; simpl in Hlen; try lia.
  simpl in Hnd. inversion Hnd as [|? ? Hx _]; subst.
  destruct (decide (f x = f a)) as [Hxa|Hxa].
  - exists y. split; [right; left; reflexivity|].
    intros Hya. apply Hx. left. congruence.
  - exists x. split; [left; reflexivity|exact Hxa].
Qed.

(** X7.  An entry with an entry id has [dupe_count] above 1 exactly when
    another entry with an entry id has its canonical key. *)
Theorem dupe_count_above_one `{UnicodeData}
    (standings : list standings_row) (e : entry_row) :
  In e (entries_raw standings) -> has_id e = true ->
  1 < dupe_count e
  <-> exists e' : entry_row,
        In e' (entries_raw standings)
        /\ EntryId (source e') <> EntryId (source e)
        /\ has_id e' = true
        /\ canonical_lineup_key e' = canonical_lineup_key e.
Proof.
  intros He Hid. rewrite (dupe_count_as_filter standings e He).
  set (same := List.filter (fun e' => same_key e e' && has_id e') (entries_raw standings)).
  assert (Hsame : forall e', In e' same <->
            In e' (entries_raw standings)
            /\ canonical_lineup_key e' = canonical_lineup_key e /\ has_id e' = true).
  { intros e'. unfold same. rewrite filter_In, andb_true_iff. unfold same_key.
    rewrite bool_decide_eq_true. tauto. }
  split.
  - intros Hlen.
    destruct (NoDup_map_other (fun e' => EntryId (source e')) same e) as (e' & He' & Hne).
    + apply NoDup_map_filter, entries_raw_ids_NoDup.
    + exact Hlen.
    + apply Hsame in He' as (Hin & Hkey & Hid'). exists e'. auto.
  - intros (e' & Hin & Hne & Hid' & Hkey).
    assert (He1 : In e same) by (apply Hsame; auto).
    assert (He2 : In e' same) by (apply Hsame; auto).
    destruct same as [|x [|y l]]; simpl; try lia.
    + destruct He1.
    + destruct He1 as [->|[]], He2 as [->|[]]. congruence.
Qed.

Lemma dupe_count_above_one_witness :
  let standings := [entry_line (Some 1%Z) "ann" "PG A SG B";
                    entry_line (Some 2%Z) "bob" "PG B SG A";
                    entry_line (Some 3%Z) "cat" "PG A SG D"] in
  map dupe_count (entries_raw standings) = [2; 2; 1]
  /\ exists e : entry_row,
       In e (entries_raw standings)
       /\ (1 < dupe_count e
           <-> exists e' : entry_row,
                 In e' (entries_raw standings)
                 /\ EntryId (source e') <> EntryId (source e)
                 /\ has_id e' = true
                 /\ canonical_lineup_key e' = canonical_lineup_key e).
Proof.
  cbv zeta. split; [vm_compute; reflexivity|].
  eexists. split; [left; reflexivity|].
  eapply (dupe_count_above_one
            [entry_line (Some 1%Z) "ann" "PG A SG B";
             entry_line (Some 2%Z) "bob" "PG B SG A";
             entry_line (Some 3%Z) "cat" "PG A SG D"]).
  - left; reflexivity.
  - reflexivity.
Defined.

(** ** Looking a player up in the salary sheet *)

(** Both tables return the last record of the sheet with the key. *)
Lemma salary_lookups_last `{UnicodeData} (records : list salary_record) (k : str) :
  fst (salary_lookups records) !! k = find (has_name k) (rev records)
  /\ snd (salary_lookups records) !! k = find (has_key k) (rev records).
Proof.
  rewrite salary_lookups_fold.
  induction records as [|x records IH] using rev_ind; [split; reflexivity|].
  rewrite fold_left_app, rev_app_distr. simpl.
  destruct IH as [IH1 IH2]. unfold index_record at 1 3, has_name, has_key.
  destruct (Name x) as [n| | |]; simpl; try (split; assumption).
  split.
  - destruct (decide (n = k)) as [->|Hne].
    + rewrite bool_decide_eq_true_2 by reflexivity. apply lookup_insert_eq.
    + rewrite bool_decide_eq_false_2 by exact Hne.
      rewrite lookup_insert_ne by exact Hne. exact IH1.
  - destruct (decide (comparable_name (Some n) = k)) as [<-|Hne].
    + rewrite bool_decide_eq_true_2 by reflexivity. apply lookup_insert_eq.
    + rewrite bool_decide_eq_false_2 by exact Hne.
      rewrite lookup_insert_ne by exact Hne. exact IH2.
Qed.

Lemma has_name_key `{UnicodeData} (player : str) (r : salary_record) :
  has_name player r = true -> has_key (comparable_name (Some player)) r = true.
Proof.
  unfold has_name, has_key. destruct (Name r); try discriminate.
  intros Hn. apply bool_decide_eq_true in Hn. subst.
  apply bool_decide_eq_true_2. reflexivity.
Qed.

Lemma find_salary_last `{UnicodeData} (records : list salary_record) (player : str) :
  find_salary (salary_lookups records) player
  = match find (has_name player) (rev records) with
    | Some r => Some r
    | None => find (has_key (comparable_name (Some player))) (rev records)
    end.
Proof.
  unfold find_salary.
  destruct (salary_lookups_last records player) as [-> _].
  destruct (salary_lookups_last records (comparable_name (Some player))) as [_ ->].
  reflexivity.
Qed.

(** X8.  The join of a player to the salary sheet returns the last record
    with exactly that name, or else the last record whose name has the
    player's comparable key; what it returns is a record of the sheet with
    that key; it finds nothing exactly when no name of the sheet has the
    key; and a record with the player's name is never passed over for one
    with another name. *)
Theorem find_salary_spec `{UnicodeData} (records : list salary_record) (player : str) :
  find_salary (salary_lookups records) player
  = match find (has_name player) (rev records) with
    | Some r => Some r
    | None => find (has_key (comparable_name (Some player))) (rev records)
    end
  /\ (forall r : salary_record,
        find_salary (salary_lookups records) player = Some r ->
        In r records /\ has_key (comparable_name (Some player)) r = true)
  /\ (find_salary (salary_lookups records) player = None
      <-> forall r : salary_record,
            In r records -> has_key (comparable_name (Some player)) r = false)
  /\ (forall r : salary_record,
        In r records -> has_name player r = true ->
        exists r' : salary_record,
          find_salary (salary_lookups records) player = Some r'
          /\ has_name player r' = true).
Proof.
  rewrite find_salary_last.
  split; [reflexivity|]. split; [|split].
  - intros r Hr.
    destruct (find (has_name player) (rev records)) as [r0|] eqn:Hf.
    + injection Hr as ->. apply find_some in Hf as [Hin Hn].
      split; [apply in_rev, Hin|apply has_name_key, Hn].
    + apply find_some in Hr as [Hin Hk]. split; [apply in_rev, Hin|exact Hk].
  - split.
    + intros Hnone r Hr.
      destruct (find (has_name player) (rev records)) as [r0|] eqn:Hf; [discriminate|].
      apply (find_none _ _ Hnone). apply in_rev in Hr. exact Hr.
    + intros Hall.
      destruct (find (has_name player) (rev records)) as [r0|] eqn:Hf.
      * apply find_some in Hf as [Hin Hn]. apply has_name_key in Hn.
        rewrite (Hall r0) in Hn by (apply in_rev, Hin). discriminate.
      * destruct (find (has_key _) (rev records)) as [r0|] eqn:Hg; [|reflexivity].
        apply find_some in Hg as [Hin Hk].
        rewrite (Hall r0) in Hk by (apply in_rev, Hin). discriminate.
  - intros r Hr Hn.
    destruct (find (has_name player) (rev records)) as [r0|] eqn:Hf.
    + exists r0. split; [reflexivity|]. apply find_some in Hf. apply Hf.
    + apply in_rev in Hr. rewrite (find_none _ _ Hf r Hr) in Hn. discriminate.
Qed.

(** ** The salaries of a lineup *)

Lemma join_player_step `{UnicodeData}
    (lookups : gmap str salary_record * gmap str salary_record)
    (st : lineup_join) (slot player : str) :
  let st' := join_player lookups st (slot, player) in
  length (salaries_for_entry st') + missing_count st'
  = S (length (salaries_for_entry st) + missing_count st)
  /\ map (fun x => (ex_roster_slot x, ex_player x)) (exploded_rows st')
     = map (fun x => (ex_roster_slot x, ex_player x)) (exploded_rows st) ++ [(slot, player)]
  /\ (forall p : str,
        p ∈ unmatched_players st'
        <-> p ∈ unmatched_players st \/ (p = player /\ find_salary lookups player = None))
  /\ missing_count st <= missing_count st'
  /\ (find_salary lookups player = None -> missing_count st' = S (missing_count st)).
Proof.
  cbv zeta. unfold join_player. simpl.
  split; [|split; [|split; [|split]]].
  - destruct (find_salary lookups player ≫= Salary); simpl;
      rewrite ?length_app; simpl; lia.
  - rewrite map_app. reflexivity.
  - intros p. destruct (find_salary lookups player) as [r|]; simpl.
    + split; [auto|]. intros [Hp|[_ Hn]]; [exact Hp|discriminate].
    + rewrite elem_of_union, elem_of_singleton. split.
      * intros [->|Hp]; auto.
      * intros [Hp|[-> _]]; auto.
  - destruct (find_salary lookups player ≫= Salary); simpl; lia.
  - intros ->. reflexivity.
Qed.

Lemma join_player_invariants `{UnicodeData}
    (lookups : gmap str salary_record * gmap str salary_record)
    (pairs : list (str * str)) (st : lineup_join) :
  let st' := fold_left (join_player lookups) pairs st in
  length (salaries_for_entry st') + missing_count st'
  = length (salaries_for_entry st) + missing_count st + length pairs
  /\ map (fun x => (ex_roster_slot x, ex_player x)) (exploded_rows st')
     = map (fun x => (ex_roster_slot x, ex_player x)) (exploded_rows st) ++ pairs
  /\ (forall p : str,
        p ∈ unmatched_players st'
        <-> p ∈ unmatched_players st \/ In p (without_record lookups pairs))
  /\ missing_count st + length (without_record lookups pairs) <= missing_count st'.
Proof.
  revert st. induction pairs as [|[slot player] pairs IH]; intros st; cbv zeta.
  - simpl. rewrite app_nil_r. split; [lia|]. split; [reflexivity|].
    split; [tauto|lia].
  - change (fold_left (join_player lookups) ((slot, player) :: pairs) st)
      with (fold_left (join_player lookups) pairs (join_player lookups st (slot, player))).
    pose proof (join_player_step lookups st slot player) as Hstep. cbv zeta in Hstep.
    destruct Hstep as (Slen & Srows & Sun & Smono & Smiss).
    specialize (IH (join_player lookups st (slot, player))). cbv zeta in IH.
    destruct IH as (Hlen & Hrows & Hun & Hmiss).
    set (st1 := join_player lookups st (slot, player)) in *.
    assert (Hwr : without_record lookups ((slot, player) :: pairs)
                  = match find_salary lookups player with
                    | Some _ => without_record lookups pairs
                    | None => player :: without_record lookups pairs
                    end).
    { unfold without_record. simpl. destruct (find_salary lookups player); reflexivity. }
    split; [|split; [|split]].
    + rewrite Hlen, Slen. simpl. lia.
    + rewrite Hrows, Srows, <- app_assoc. reflexivity.
    + intros p. rewrite Hun, Sun, Hwr.
      destruct (find_salary lookups player) as [r|]; simpl.
      * split; [intros [[Hp|[_ [=]]]|Hp]; auto|tauto].
      * split; [intros [[Hp|[-> _]]|Hp]; auto|intros [Hp|[->|Hp]]; auto].
    + rewrite Hwr. destruct (find_salary lookups player) as [r|]; simpl.
      * lia.
      * specialize (Smiss eq_refl). lia.
Qed.


(** X9.  Joining a lineup to the salary sheet gives one exploded row per
    roster slot, in order; every slot is either counted with a salary or
    counted as missing; the players without a record are exactly those
    added to the unmatched set; and each of their slots is counted as
    missing. *)
Theorem join_entry_counts `{UnicodeData}
    (lookups : gmap str salary_record * gmap str salary_record)
    (unmatched : gset str) (lineup_pairs : list (str * str)) :
  let st := join_entry lookups unmatched lineup_pairs in
  length (salaries_for_entry st) + missing_count st = length lineup_pairs
  /\ map (fun x => (ex_roster_slot x, ex_player x)) (exploded_rows st) = lineup_pairs
  /\ (forall p : str,
        p ∈ unmatched_players st
        <-> p ∈ unmatched \/ In p (without_record lookups lineup_pairs))
  /\ length (without_record lookups lineup_pairs) <= missing_count st
  /\ salary_missing_count (salary_columns_of st) = missing_count st.
Proof.
  cbv zeta. unfold join_entry.
  pose proof (join_player_invariants lookups lineup_pairs
                {| salaries_for_entry := []; missing_count := 0; exploded_rows := [];
                   unmatched_players := unmatched |}) as Hinv.
  cbv zeta in Hinv. simpl in Hinv. destruct Hinv as (Hlen & Hrows & Hun & Hmiss).
  split; [exact Hlen|]. split; [exact Hrows|]. split; [exact Hun|].
  split; [exact Hmiss|].
  unfold salary_columns_of. destruct (salaries_for_entry _); reflexivity.
Qed.







Lemma join_entries_fold `{UnicodeData}
    (lookups : gmap str salary_record * gmap str salary_record)
    (lineups : list (list (str * str)))
    (columns : list salary_columns) (rows : list exploded) (unmatched : gset str) :
  let '(columns', rows', unmatched') :=
    fold_left
      (fun '(columns, rows, unmatched) lineup_pairs =>
         let st := join_entry lookups unmatched lineup_pairs in
         (columns ++ [salary_columns_of st], rows ++ exploded_rows st,
          unmatched_players st))
      lineups (columns, rows, unmatched) in
  length columns' = length columns + length lineups
  /\ map (fun x => (ex_roster_slot x, ex_player x)) rows'
     = map (fun x => (ex_roster_slot x, ex_player x)) rows ++ concat lineups
  /\ forall p : str,
       p ∈ unmatched'
       <-> p ∈ unmatched
           \/ exists pairs, In pairs lineups /\ In p (without_record lookups pairs).
Proof.
  revert columns rows unmatched.
  induction lineups as [|pairs lineups IH]; intros columns rows unmatched; simpl.
  - rewrite app_nil_r. split; [lia|]. split; [reflexivity|].
    intros p. split; [auto|]. intros [Hp|(pairs & [] & _)]. exact Hp.
  - specialize (IH (columns ++ [salary_columns_of (join_entry lookups unmatched pairs)])
                   (rows ++ exploded_rows (join_entry lookups unmatched pairs))
                   (unmatched_players (join_entry lookups unmatched pairs))).
    destruct (fold_left _ lineups _) as [[columns' rows'] unmatched'].
    destruct IH as (Hlen & Hrows & Hun).
    pose proof (join_player_invariants lookups pairs
                  {| salaries_for_entry := []; missing_count := 0; exploded_rows := [];
                     unmatched_players := unmatched |}) as Hinv.
    cbv zeta in Hinv. simpl in Hinv. destruct Hinv as (_ & Hrows1 & Hun1 & _).
    fold (join_entry lookups unmatched pairs) in Hrows1, Hun1.
    split; [|split].
    + rewrite Hlen, length_app. simpl. lia.
    + rewrite Hrows, map_app, Hrows1, <- app_assoc. reflexivity.
    + intros p. rewrite Hun, Hun1. split.
      * intros [[Hp|Hp]|(ps & Hps & Hp)]; [auto|right|right].
        -- exists pairs. auto.
        -- exists ps. auto.
      * intros [Hp|(ps & [<-|Hps] & Hp)]; [auto|auto|].
        right. exists ps. auto.
Qed.

(** X11.  Over all the entries, the salary join gives one set of salary
    columns per entry and one exploded row per roster slot, in order, and
    the list of unmatched players is sorted, has no repetition, and holds
    exactly the lineup players without a salary record. *)
Theorem join_entries_tables `{UnicodeData}
    (lookups : gmap str salary_record * gmap str salary_record)
    (lineups : list (list (str * str))) :
  let '(columns, rows, unmatched) := join_entries lookups lineups in
  length columns = length lineups
  /\ map (fun x => (ex_roster_slot x, ex_player x)) rows = concat lineups
  /\ (forall p : str,
        In p unmatched
        <-> exists pairs, In pairs lineups /\ In p (without_record lookups pairs))
  /\ List.NoDup unmatched
  /\ StronglySorted (fun a b => str_ltb b a = false) unmatched.
Proof.
  unfold join_entries.
  pose proof (join_entries_fold lookups lineups [] [] ∅) as Hfold.
  destruct (fold_left _ lineups _) as [[columns rows] unmatched].
  destruct Hfold as (Hlen & Hrows & Hun).
  split; [exact Hlen|]. split; [exact Hrows|]. split; [|split].
  - intros p. rewrite sorted_In, <- list_elem_of_In, elem_of_elements, Hun.
    split; [intros [Hp|Hp]; [|exact Hp]|auto].
    apply elem_of_empty in Hp. destruct Hp.
  - apply sorted_NoDup, NoDup_ListNoDup, NoDup_elements.
  - apply sorted_sorted, str_ltb_strict_total.
Qed.

(** ** Percentiles of a frame and the filter *)

Lemma mapM_None_inv {A B : Type} (f : A -> option B) (l : list A) :
  mapM f l = None <-> exists x, In x l /\ f x = None.
Proof.
  induction l as [|a l IH]; simpl.
  - split; [discriminate|]. intros (x & [] & _).
  - unfold mbind, option_bind. destruct (f a) as [b|] eqn:Hfa.
    + unfold mret, option_ret. 
      destruct (mapM f l) as [bs|] eqn:Hl; simpl.
      * split; [discriminate|]. intros (x & [<-|Hx] & Hfx); [congruence|].
        destruct IH as [_ IH]. discriminate IH. eauto.
      * split; [|reflexivity]. intros _. destruct IH as [IH _].
        destruct (IH eq_refl) as (x & Hx & Hfx). eauto.
    + split; [|reflexivity]. intros _. exists a. auto.
Qed.

Lemma mapM_Some_inv {A B : Type} (f : A -> option B) (l : list A) (out : list B) :
  mapM f l = Some out -> List.Forall2 (fun x y => f x = Some y) l out.
Proof.
  revert out. induction l as [|a l IH]; simpl; intros out Hout.
  - injection Hout as <-. constructor.
  - unfold mbind, option_bind in Hout. destruct (f a) as [b|] eqn:Hfa; [|discriminate].
    destruct (mapM f l) as [bs|]; [|discriminate].
    injection Hout as <-. constructor; [exact Hfa|]. apply IH. reflexivity.
Qed.

Lemma mapM_Some_intro {A B : Type} (f : A -> option B) (l : list A) (out : list B) :
  List.Forall2 (fun x y => f x = Some y) l out -> mapM f l = Some out.
Proof.
  induction 1 as [|a b l out Hab _ IH]; simpl; [reflexivity|].
  rewrite Hab. simpl. rewrite IH. reflexivity.
Qed.

Lemma Forall2_In_right {A B : Type} (P : A -> B -> Prop) (l : list A) (l' : list B) :
  List.Forall2 P l l' -> forall y, In y l' -> exists x, In x l /\ P x y.
Proof.
  induction 1 as [|x y l l' Hxy _ IH]; intros y' [].
  - subst y'. exists x. split; [left; reflexivity|exact Hxy].
  - destruct (IH y' H) as (x' & Hx' & HP). exists x'. split; [right; exact Hx'|exact HP].
Qed.

Lemma enrich_row (entries : list entry) (out : list entry) :
  enrich_with_percentiles entries = Some out ->
  List.Forall2 (fun e o => same_columns e o
                           /\ percentile o = percentile_in (length entries) e)
               entries out.
Proof.
  intros Hout. apply mapM_Some_inv in Hout.
  eapply List.Forall2_impl; [|exact Hout].
  intros e o Ho. cbv beta in Ho. unfold percentile_in, same_columns.
  destruct (rank e) as [r|] eqn:Hr; simpl in Ho.
  - injection Ho as <-. simpl. auto 10.
  - destruct (Z.of_nat (length entries) <=? 1)%Z; [|discriminate].
    injection Ho as <-. simpl. auto 10.
Qed.

Lemma wrap64_small (z : Z) : (- 2 ^ 63 <= z < 2 ^ 63)%Z -> wrap64 z = z.
Proof.
  intros Hz. unfold wrap64.
  rewrite Z.mod_small by lia. lia.
Qed.

Lemma percentile_from_rank_int64_small (r total : Z) :
  (- 2 ^ 63 < r <= 2 ^ 63)%Z ->
  percentile_from_rank_int64 r total = percentile_from_rank r total.
Proof.
  intros Hr. unfold percentile_from_rank_int64, percentile_from_rank.
  rewrite wrap64_small by lia. reflexivity.
Qed.

(** X12.  [enrich_with_percentiles] fails exactly on a frame of two or more
    entries one of which has no rank.  Otherwise it returns the entries in
    their order with every other column unchanged, the percentile of each
    being that of its rank among [len(entries)] (0 where the rank is
    missing), with [rank - 1] taken in 64 bits.  For a rank above the least
    64-bit integer this is the value of [percentile_from_rank]; at the least
    one, among several entries, [rank - 1] wraps to [2^63 - 1].  Ranks
    between 1 and the number of entries give percentiles between 0 and 100;
    among several entries the percentile of a 64-bit rank is 0 exactly when
    the rank is at most 1 and not the least one; and enriching the result
    again changes nothing. *)
Theorem enrich_with_percentiles_result (entries : list entry) :
  (enrich_with_percentiles entries = None
   <-> 2 <= length entries /\ exists e : entry, In e entries /\ rank e = None)
  /\ forall out : list entry,
       enrich_with_percentiles entries = Some out ->
       List.Forall2 (fun e o => same_columns e o
                                /\ percentile o = percentile_in (length entries) e)
                    entries out
       /\ (forall (o : entry) (r : Z),
             In o out -> rank o = Some r -> (- 2 ^ 63 < r < 2 ^ 63)%Z ->
             percentile o = percentile_from_rank r (Z.of_nat (length entries)))
       /\ (forall o : entry,
             In o out -> rank o = Some (- 2 ^ 63)%Z -> 2 <= length entries ->
             percentile o
             = (inject_Z (2 ^ 63 - 1) / inject_Z (Z.of_nat (length entries) - 1) * 100)%Q)
       /\ (forall (o : entry) (r : Z),
             In o out -> rank o = Some r -> int64 r ->
             (1 <= r <= Z.of_nat (length entries))%Z ->
             (0 <= percentile o)%Q /\ (percentile o <= 100)%Q)
       /\ (forall (o : entry) (r : Z),
             In o out -> rank o = Some r -> int64 r -> 2 <= length entries ->
             (percentile o == 0)%Q <-> (- 2 ^ 63 < r <= 1)%Z)
       /\ enrich_with_percentiles out = Some out.
Proof.
  split.
  - unfold enrich_with_percentiles. rewrite mapM_None_inv. split.
    + intros (e & He & Hfe). destruct (rank e) as [r|] eqn:Hr; [discriminate|].
      simpl in Hfe.
      destruct (Z.leb_spec (Z.of_nat (length entries)) 1) as [Hle|Hgt]; [discriminate|].
      split; [lia|]. exists e. auto.
    + intros (Hlen & e & He & Hr). exists e. split; [exact He|]. rewrite Hr. simpl.
      destruct (Z.leb_spec (Z.of_nat (length entries)) 1) as [Hle|Hgt]; [lia|reflexivity].
  - intros out Hout. pose proof (enrich_row entries out Hout) as Hrows.
    assert (Hlen : length out = length entries)
      by (symmetry; eapply List.Forall2_length; exact Hrows).
    assert (Hback : forall o r, In o out -> rank o = Some r ->
              percentile o = percentile_from_rank_int64 r (Z.of_nat (length entries))).
    { intros o r Ho Hr.
      destruct (Forall2_In_right _ _ _ Hrows o Ho) as (e & _ & (_ & _ & Hrank & _) & Hp).
      rewrite Hp. unfold percentile_in. rewrite <- Hrank, Hr. reflexivity. }
    assert (Hsmall : forall o r, In o out -> rank o = Some r -> (- 2 ^ 63 < r < 2 ^ 63)%Z ->
              percentile o = percentile_from_rank r (Z.of_nat (length entries))).
    { intros o r Ho Hr Hrange. rewrite (Hback o r Ho Hr).
      apply percentile_from_rank_int64_small. lia. }
    split; [exact Hrows|]. split; [exact Hsmall|]. split; [|split; [|split]].
    + intros o Ho Hr Hmany. rewrite (Hback o _ Ho Hr).
      unfold percentile_from_rank_int64.
      destruct (Z.leb_spec (Z.of_nat (length entries)) 1) as [Hle|Hgt]; [lia|].
      replace (Z.max (wrap64 (- 2 ^ 63 - 1)) 0) with (2 ^ 63 - 1)%Z
        by (vm_compute; reflexivity).
      reflexivity.
    + intros o r Ho Hr Hint Hrange. unfold int64 in Hint.
      rewrite (Hsmall o r Ho Hr) by lia.
      unfold percentile_from_rank.
      destruct (Z.leb_spec (Z.of_nat (length entries)) 1) as [Hle|Hgt].
      * split; unfold Qle; simpl; lia.
      * split.
        -- apply Qle_trans with (inject_Z 0 / inject_Z (Z.of_nat (length entries) - 1) * 100)%Q.
           ++ rewrite scaled_ratio_zero. apply Qle_refl.
           ++ apply scaled_ratio_le; lia.
        -- apply Qle_trans with (inject_Z (Z.of_nat (length entries) - 1)
                                 / inject_Z (Z.of_nat (length entries) - 1) * 100)%Q.
           ++ apply scaled_ratio_le; lia.
           ++ rewrite scaled_ratio_one by lia. apply Qle_refl.
    + intros o r Ho Hr Hint Hmany. unfold int64 in Hint.
      rewrite (Hback o r Ho Hr). unfold percentile_from_rank_int64.
      destruct (Z.leb_spec (Z.of_nat (length entries)) 1) as [Hle|Hgt]; [lia|].
      assert (Hpositive : forall m : Z, (1 <= m)%Z ->
                ~ (inject_Z (Z.max m 0) / inject_Z (Z.of_nat (length entries) - 1) * 100
                   == 0)%Q).
      { intros m Hm Hz.
        assert (Hpos : (inject_Z 1 / inject_Z (Z.of_nat (length entries) - 1) * 100
                        <= inject_Z (Z.max m 0)
                           / inject_Z (Z.of_nat (length entries) - 1) * 100)%Q)
          by (apply scaled_ratio_le; lia).
        rewrite Hz in Hpos. revert Hpos.
        destruct (length entries) as [|[|n]]; [lia|lia|].
        unfold Qle, Qdiv, Qmult, Qinv, inject_Z. simpl.
        replace (Z.of_nat (S (S n)) - 1)%Z with (Z.pos (Pos.of_succ_nat n)) by lia.
        simpl. lia. }
      destruct (Z.eq_dec r (- 2 ^ 63)%Z) as [->|Hne].
      * split; [|lia]. intros Hz. exfalso.
        apply (Hpositive (wrap64 (- 2 ^ 63 - 1))); [vm_compute; discriminate|exact Hz].
      * rewrite wrap64_small by lia. split.
        -- intros Hz. destruct (Z.le_gt_cases r 1) as [Hr1|Hr1]; [lia|exfalso].
           apply (Hpositive (r - 1)%Z); [lia|exact Hz].
        -- intros Hr1. replace (Z.max (r - 1) 0) with 0%Z by lia.
           apply scaled_ratio_zero.
    + unfold enrich_with_percentiles in *. apply mapM_Some_intro. rewrite Hlen.
      apply mapM_Some_inv in Hout. clear Hlen Hback Hrows Hsmall.
      set (total := Z.of_nat (length entries)) in *. clearbody total.
      induction Hout as [|e o es os Heo _ IH]; constructor; [|exact IH].
      clear IH. destruct (rank e) as [x|] eqn:Hx; simpl in Heo.
      * injection Heo as <-. reflexivity.
      * destruct (total <=? 1)%Z eqn:Htotal; [|discriminate].
        injection Heo as <-. reflexivity.
Qed.

Lemma enrich_with_percentiles_result_witness :
  let entries := [lineup_of 1 "ann"; lineup_of 2 "bob"; lineup_of 3 "cat"] in
  exists out : list entry,
    enrich_with_percentiles entries = Some out
    /\ map rank out = [Some 1; Some 2; Some 3]%Z
    /\ enrich_with_percentiles out = Some out
    /\ forall (o : entry) (r : Z),
         In o out -> rank o = Some r ->
         (0 <= percentile o)%Q /\ (percentile o <= 100)%Q
         /\ ((percentile o == 0)%Q <-> (r <= 1)%Z).
Proof.
  cbv zeta.
  destruct (enrich_with_percentiles
              [lineup_of 1 "ann"; lineup_of 2 "bob"; lineup_of 3 "cat"])
    as [out|] eqn:Hout; [|vm_compute in Hout; discriminate].
  exists out. split; [reflexivity|].
  destruct (enrich_with_percentiles_result
              [lineup_of 1 "ann"; lineup_of 2 "bob"; lineup_of 3 "cat"]) as [_ Hsome].
  destruct (Hsome out Hout) as (_ & _ & _ & Hbounds & Hzero & Hagain).
  assert (Hranks : map rank out = [Some 1; Some 2; Some 3]%Z)
    by (vm_compute in Hout; injection Hout as <-; reflexivity).
  split; [exact Hranks|]. split; [exact Hagain|].
  intros o r Ho Hr.
  assert (Hrange : (1 <= r <= 3)%Z).
  { apply (in_map rank) in Ho. rewrite Hranks, Hr in Ho.
    destruct Ho as [Heq|[Heq|[Heq|[]]]]; injection Heq as <-; lia. }
  assert (Hint : int64 r) by (unfold int64; lia).
  destruct (Hbounds o r Ho Hr Hint) as [Hlow Hhigh]; [simpl; lia|].
  split; [exact Hlow|]. split; [exact Hhigh|].
  rewrite (Hzero o r Ho Hr Hint) by (simpl; lia). lia.
Defined.

Lemma keep_tighter (P P' : option Q) (R R' : option Z) (e : entry) :
  keep (tighter Qmin P P') (tighter Z.min R R') e = keep P R e && keep P' R' e.
Proof.
  assert (HQ : forall x p p', Qle_bool x (Qmin p p') = Qle_bool x p && Qle_bool x p').
  { intros x p p'. apply eq_true_iff_eq.
    rewrite andb_true_iff, !Qle_bool_iff. apply Q.min_glb_iff. }
  assert (HZ : forall x r r', (x <=? Z.min r r')%Z = (x <=? r)%Z && (x <=? r')%Z).
  { intros x r r'. apply eq_true_iff_eq.
    rewrite andb_true_iff, !Z.leb_le. apply Z.min_glb_iff. }
  unfold keep.
  destruct P as [p|], P' as [p'|], R as [r|], R' as [r'|]; simpl;
    rewrite ?HQ; destruct (rank e) as [x|]; rewrite ?HZ;
    repeat match goal with |- context [Qle_bool ?a ?b] => destruct (Qle_bool a b) end;
    repeat match goal with |- context [(?a <=? ?b)%Z] => destruct (a <=? b)%Z end;
    reflexivity.
Qed.

Lemma filter_keep (entries : list entry) (P : option Q) (R : option Z) :
  apply_percentile_filter entries P R = List.filter (keep P R) entries.
Proof.
  unfold apply_percentile_filter, keep.
  destruct P as [p|], R as [r|].
  - apply filter_filter.
  - apply filter_ext. intros e. rewrite andb_true_r. reflexivity.
  - reflexivity.
  - symmetry. apply filter_true.
Qed.

(** X13.  Filtering twice is filtering once by the stricter bounds: the
    smaller of two percentile bounds and the smaller of two rank bounds, an
    unset bound giving way to the other.  So the filter is idempotent, the
    order of two filters does not matter, and the percentile and the rank
    bound can be applied one after the other. *)
Theorem apply_percentile_filter_twice
    (entries : list entry) (P P' : option Q) (R R' : option Z) :
  apply_percentile_filter (apply_percentile_filter entries P R) P' R'
  = apply_percentile_filter entries (tighter Qmin P P') (tighter Z.min R R')
  /\ apply_percentile_filter (apply_percentile_filter entries P R) P R
     = apply_percentile_filter entries P R
  /\ apply_percentile_filter (apply_percentile_filter entries P R) P' R'
     = apply_percentile_filter (apply_percentile_filter entries P' R') P R
  /\ apply_percentile_filter entries P R
     = apply_percentile_filter (apply_percentile_filter entries P None) None R.
Proof.
  rewrite !filter_keep.
  assert (Htwice : forall P P' R R',
            List.filter (keep P' R') (List.filter (keep P R) entries)
            = List.filter (fun e => keep P R e && keep P' R' e) entries)
    by (intros; apply filter_filter).
  rewrite !Htwice. repeat split.
  - apply filter_ext. intros e. symmetry. apply keep_tighter.
  - apply filter_ext. intros e. destruct (keep P R e); reflexivity.
  - apply filter_ext. intros e. apply andb_comm.
  - apply filter_ext. intros e. unfold keep.
    destruct P, R; simpl; rewrite ?andb_true_r; reflexivity.
Qed.

(** ** The exposure table *)

Section SortedAgain.
Context {A : Type} (ltb : A -> A -> bool).

Lemma insert_before_least (x : A) (l : list A) :
  List.Forall (fun y => ltb y x = false) l -> insert_before ltb x l = x :: l.
Proof.
  intros Hl. destruct l as [|y l]; simpl; [reflexivity|].
  inversion Hl as [|? ? Hy _]; subst. rewrite Hy. reflexivity.
Qed.

Lemma sorted_fixed (l : list A) :
  StronglySorted (fun a b => ltb b a = false) l -> sorted ltb l = l.
Proof.
  induction 1 as [|x l Hl IH Hx]; simpl; [reflexivity|].
  rewrite IH. apply insert_before_least, Hx.
Qed.

Lemma sorted_strictly (Hord : strict_total ltb) (l : list A) :
  List.NoDup l -> StronglySorted (fun a b => ltb a b = true) (sorted ltb l).
Proof.
  intros Hnd. apply (sorted_NoDup ltb) in Hnd.
  pose proof (sorted_sorted ltb Hord l) as Hs.
  induction Hs as [|x s Hs IH Hx]; constructor.
  - apply IH. inversion Hnd; assumption.
  - inversion Hnd as [|? ? Hnotin _]; subst.
    rewrite List.Forall_forall in Hx |- *. intros y Hy.
    destruct (ltb x y) eqn:Hxy; [reflexivity|].
    exfalso. apply Hnotin. rewrite (st_total ltb Hord x y Hxy (Hx y Hy)). exact Hy.
Qed.

End SortedAgain.

Lemma StronglySorted_map {A B : Type} (f : A -> B) (R : B -> B -> Prop) (l : list A) :
  StronglySorted (fun a b => R (f a) (f b)) l -> StronglySorted R (map f l).
Proof.
  induction 1 as [|x l Hl IH Hx]; simpl; constructor; [exact IH|].
  rewrite List.Forall_forall in Hx |- *. intros y Hy.
  apply in_map_iff in Hy as (a & <- & Ha). apply Hx, Ha.
Qed.

Lemma StronglySorted_unmap {A B : Type} (f : A -> B) (R : B -> B -> Prop) (l : list A) :
  StronglySorted R (map f l) -> StronglySorted (fun a b => R (f a) (f b)) l.
Proof.
  induction l as [|x l IH]; simpl; intros Hs; constructor.
  - apply IH. inversion Hs; assumption.
  - inversion Hs as [|? ? _ Hx]; subst.
    rewrite List.Forall_forall in Hx |- *. intros y Hy. apply Hx, in_map, Hy.
Qed.

Lemma StronglySorted_weaken {A : Type} (R R' : A -> A -> Prop) (l : list A) :
  (forall a b, R a b -> R' a b) -> StronglySorted R l -> StronglySorted R' l.
Proof.
  intros HR. induction 1 as [|x l Hl IH Hx]; constructor; [exact IH|].
  eapply List.Forall_impl; [|exact Hx]. intros y. apply HR.
Qed.

Lemma strict_total_asym {A : Type} (ltb : A -> A -> bool) (Hord : strict_total ltb) (a b : A) :
  ltb a b = true -> ltb b a = false.
Proof.
  intros Hab. destruct (ltb b a) eqn:Hba; [|reflexivity].
  rewrite <- (st_irrefl ltb Hord a). symmetry. apply (st_trans ltb Hord a b a Hab Hba).
Qed.

Lemma omap_id_In (col : list (option Z)) (z : Z) : In z (omap id col) <-> In (Some z) col.
Proof.
  induction col as [|[y|] col IH]; simpl.
  - reflexivity.
  - rewrite IH. split; intros [Hz|Hz]; auto; left; congruence.
  - rewrite IH. split; [auto|]. intros [Hz|Hz]; [discriminate|exact Hz].
Qed.

Lemma omap_id_length (col : list (option Z)) : length (omap id col) <= length col.
Proof. induction col as [|[y|] col IH]; simpl; [lia| |]; change (list_omap _ _ id col) with (omap id col); lia. Qed.

Lemma nunique_le (col : list (option Z)) : Aggregate.nunique col <= length col.
Proof.
  unfold Aggregate.nunique.
  pose proof (fromkeys_length (omap id col)). pose proof (omap_id_length col). lia.
Qed.

Lemma nunique_zero (col : list (option Z)) :
  Aggregate.nunique col = 0 <-> forall i, In i col -> i = None.
Proof.
  unfold Aggregate.nunique. split.
  - intros Hz [z|] Hi; [exfalso|reflexivity].
    apply (proj2 (omap_id_In col z)), (proj2 (fromkeys_In (omap id col) z)) in Hi.
    destruct (fromkeys (omap id col)); [destruct Hi|discriminate].
  - intros Hall. destruct (omap id col) as [|z zs] eqn:Hcol; [reflexivity|exfalso].
    assert (Hz : In z (omap id col)) by (rewrite Hcol; left; reflexivity).
    apply (proj1 (omap_id_In col z)), Hall in Hz. discriminate.
Qed.

Lemma nunique_incl (col col' : list (option Z)) :
  (forall z : Z, In (Some z) col -> In (Some z) col') ->
  Aggregate.nunique col <= Aggregate.nunique col'.
Proof.
  intros Hincl. unfold Aggregate.nunique.
  apply List.NoDup_incl_length; [apply fromkeys_NoDup|].
  intros z Hz. apply fromkeys_In, omap_id_In, Hincl, omap_id_In.
  exact (proj1 (fromkeys_In _ _) Hz).
Qed.

Lemma fold_min_spec (zs : list Z) (z : Z) :
  In (fold_left Z.min zs z) (z :: zs)
  /\ forall y, In y (z :: zs) -> (fold_left Z.min zs z <= y)%Z.
Proof.
  revert z. induction zs as [|a zs IH]; intros z; simpl.
  - split; [auto|]. intros y [<-|[]]. lia.
  - destruct (IH (Z.min z a)) as [Hin Hle]. split.
    + destruct Hin as [Hin|Hin]; [|auto].
      rewrite <- Hin.
      destruct (Z.min_spec z a) as [[_ Hm]|[_ Hm]]; rewrite Hm; auto.
    + intros y [<-|[<-|Hy]].
      * specialize (Hle (Z.min z a) (or_introl eq_refl)). lia.
      * specialize (Hle (Z.min z a) (or_introl eq_refl)). lia.
      * apply Hle. right. exact Hy.
Qed.

Lemma min_skipna_spec (col : list (option Z)) :
  (min_skipna col = None <-> forall i, In i col -> i = None)
  /\ forall z : Z, min_skipna col = Some z ->
       In (Some z) col /\ forall y : Z, In (Some y) col -> (z <= y)%Z.
Proof.
  unfold min_skipna. destruct (omap id col) as [|a zs] eqn:Hcol.
  - split; [|discriminate]. split; [|reflexivity].
    intros _ [z|] Hi; [exfalso|reflexivity].
    apply (proj2 (omap_id_In col z)) in Hi. rewrite Hcol in Hi. destruct Hi.
  - split.
    + split; [discriminate|]. intros Hall. exfalso.
      assert (Ha : In a (omap id col)) by (rewrite Hcol; left; reflexivity).
      apply (proj1 (omap_id_In col a)), Hall in Ha. discriminate.
    + intros z Hz. injection Hz as <-.
      destruct (fold_min_spec zs a) as [Hin Hle]. rewrite <- Hcol in Hin, Hle.
      split; [apply omap_id_In, Hin|].
      intros y Hy. apply Hle, omap_id_In, Hy.
Qed.

Lemma exposure_keys_sorted (exploded : list exploded_row) :
  StronglySorted (fun a b => pair_ltb a b = true)
                 (sorted pair_ltb (fromkeys (map slot_key exploded))).
Proof. apply sorted_strictly; [apply pair_ltb_strict_total|apply fromkeys_NoDup]. Qed.

Lemma fromkeys_fixed {A : Type} `{EqDecision A} (l : list A) :
  List.NoDup l -> fromkeys l = l.
Proof.
  induction 1 as [|x l Hx _ IH]; simpl; [reflexivity|].
  rewrite IH. f_equal.
  rewrite (filter_ext_in (fun y => negb (bool_decide (x = y))) (fun _ => true)).
  - apply filter_true.
  - intros y Hy. rewrite bool_decide_eq_false_2; [reflexivity|].
    intros ->. exact (Hx Hy).
Qed.

Lemma is_unique_NoDup {A : Type} `{EqDecision A} (l : list A) :
  is_unique l = true <-> List.NoDup l.
Proof.
  unfold is_unique. rewrite bool_decide_eq_true. split.
  - intros Hl. rewrite <- Hl. apply fromkeys_NoDup.
  - apply fromkeys_fixed.
Qed.

Lemma nunique_distinct (col : list (option Z)) : distinct_ids col (Aggregate.nunique col).
Proof.
  exists (fromkeys (omap id col)). split; [apply fromkeys_NoDup|].
  split; [|reflexivity]. intros z. rewrite fromkeys_In. apply omap_id_In.
Qed.

Lemma field_pct_of_absent (field_players : list field_player) (player : str) :
  (forall f, In f field_players -> f_player f <> player) ->
  field_pct_of field_players player = 0%Q.
Proof.
  intros Habs. unfold field_pct_of.
  destruct (find _ field_players) as [f|] eqn:Hf; [|reflexivity].
  apply find_some in Hf as [Hin Heq].
  apply bool_decide_eq_true in Heq. destruct (Habs f Hin Heq).
Qed.

Lemma field_pct_of_present (field_players : list field_player) (f : field_player) :
  List.NoDup (map f_player field_players) -> In f field_players ->
  field_pct_of field_players (f_player f) = field_pct f.
Proof.
  intros Hnd Hf. unfold field_pct_of.
  destruct (find _ field_players) as [f'|] eqn:Hfind.
  - apply find_some in Hfind as [Hin Heq]. apply bool_decide_eq_true in Heq.
    rewrite (NoDup_map_injective f_player field_players f' f Hnd Hin Hf Heq). reflexivity.
  - apply (find_none _ _ Hfind) in Hf.
    rewrite bool_decide_eq_true_2 in Hf by reflexivity. discriminate.
Qed.

Lemma user_lineups_spec (entries : list entry) (user : str) :
  let mine := List.filter (fun e => bool_decide (username e = user)) entries in
  (user_lineups entries user = None <-> mine = [])
  /\ (forall n, user_lineups entries user = Some n -> distinct_ids (map entry_id mine) n)
  /\ (user_lineups entries user = Some 0
      <-> (exists e, In e entries /\ username e = user)
          /\ forall e, In e entries -> username e = user -> entry_id e = None).
Proof.
  intros mine. unfold user_lineups. fold mine.
  assert (Hmine : forall e, In e mine <-> In e entries /\ username e = user).
  { intros e. unfold mine. rewrite filter_In, bool_decide_eq_true. reflexivity. }
  destruct mine as [|e0 rest] eqn:Hm.
  - split; [tauto|]. split; [discriminate|]. split; [discriminate|].
    intros [(e & He) _]. apply Hmine in He. destruct He.
  - rewrite <- Hm in *. split; [split; [discriminate|]|].
    { intros Hnil. rewrite Hnil in Hm. discriminate. }
    split.
    + intros n Hn. injection Hn as <-. apply nunique_distinct.
    + split.
      * intros Hz. injection Hz as Hz. split.
        -- exists e0. apply Hmine. rewrite Hm. left. reflexivity.
        -- intros e He Hu. apply (proj1 (nunique_zero _) Hz), in_map, Hmine. auto.
      * intros [_ Hall]. f_equal. apply nunique_zero.
        intros i Hi. apply in_map_iff in Hi as (e & <- & He).
        apply Hmine in He as [He Hu]. apply Hall; assumption.
Qed.

Lemma Forall2_map_back {A B : Type} (f : A -> option B) (g : B -> A)
    (l : list A) (l' : list B) :
  (forall x y, f x = Some y -> g y = x) ->
  List.Forall2 (fun x y => f x = Some y) l l' -> map g l' = l.
Proof.
  intros Hfg. induction 1 as [|x y l l' Hxy _ IH]; simpl; [reflexivity|].
  rewrite IH, (Hfg x y Hxy). reflexivity.
Qed.

(** What a returned exposure table holds: the players of the field table
    are distinct, the keys of the rows are the sorted distinct pairs of the
    exploded rows, and every row is computed from its group. *)
Lemma exposure_table (entries : list entry) (exploded : list exploded_row)
    (field_players : list field_player) (out : list exposure_row) :
  compute_user_exposure entries (Rows exploded) field_players = Some out ->
  List.NoDup (map f_player field_players)
  /\ map exposure_key out = sorted pair_ltb (fromkeys (map slot_key exploded))
  /\ forall row : exposure_row,
       In row out ->
       entry_count row
       = Aggregate.nunique (map x_entry_id (group_rows exploded (exposure_key row)))
       /\ best_rank row = min_skipna (map x_rank (group_rows exploded (exposure_key row)))
       /\ Aggregate.user_total_lineups row = user_lineups entries (e_username row)
       /\ Aggregate.user_total_lineups row <> Some 0
       /\ user_exposure_pct row
          = match Aggregate.user_total_lineups row with
            | Some n => Some (inject_Z (Z.of_nat (entry_count row))
                              / inject_Z (Z.of_nat n) * 100)%Q
            | None => None
            end
       /\ e_field_pct row = field_pct_of field_players (e_player row)
       /\ delta_vs_field row = (default 0%Q (user_exposure_pct row) - e_field_pct row)%Q.
Proof.
  unfold compute_user_exposure. cbv zeta. fold slot_key.
  set (keys := sorted pair_ltb (fromkeys (map slot_key exploded))).
  set (step := fun '(user, player) => _).
  destruct (mapM step keys) as [exposure|] eqn:Hrows; simpl; [|discriminate].
  destruct (is_unique (map f_player field_players)) eqn:Hunique; [|discriminate].
  intros Hout. injection Hout as <-.
  apply mapM_Some_inv in Hrows.
  assert (Hstep : forall k r, step k = Some r ->
            exposure_key r = k
            /\ entry_count r = Aggregate.nunique (map x_entry_id (group_rows exploded k))
            /\ best_rank r = min_skipna (map x_rank (group_rows exploded k))
            /\ Aggregate.user_total_lineups r = user_lineups entries (fst k)
            /\ Aggregate.user_total_lineups r <> Some 0
            /\ user_exposure_pct r
               = match Aggregate.user_total_lineups r with
                 | Some n => Some (inject_Z (Z.of_nat (entry_count r))
                                   / inject_Z (Z.of_nat n) * 100)%Q
                 | None => None
                 end
            /\ e_field_pct r = field_pct_of field_players (snd k)
            /\ delta_vs_field r = (default 0%Q (user_exposure_pct r) - e_field_pct r)%Q).
  { intros [user player] r. unfold step. simpl.
    destruct (user_lineups entries user) as [[|n]|]; simpl; [discriminate| |];
      intros Hr; injection Hr as <-; simpl;
      (split; [reflexivity|]); (split; [reflexivity|]); (split; [reflexivity|]);
      (split; [reflexivity|]); (split; [discriminate|]); auto. }
  assert (Hkeys : map exposure_key exposure = keys).
  { apply (Forall2_map_back step exposure_key); [|exact Hrows].
    intros k r Hr. apply (Hstep k r Hr). }
  assert (Hfixed : sorted (fun a b => pair_ltb (e_username a, e_player a)
                                               (e_username b, e_player b)) exposure
                   = exposure).
  { apply sorted_fixed.
    change (StronglySorted (fun a b => pair_ltb (exposure_key b) (exposure_key a) = false)
                           exposure).
    apply (StronglySorted_unmap exposure_key (fun a b => pair_ltb b a = false)).
    rewrite Hkeys. apply sorted_sorted, pair_ltb_strict_total. }
  rewrite Hfixed. split; [apply is_unique_NoDup, Hunique|]. split; [exact Hkeys|].
  intros row Hrow.
  destruct (Forall2_In_right _ _ _ Hrows row Hrow) as (k & _ & Hk).
  destruct (Hstep k row Hk) as (Hkey & Hcount & Hbest & Htotal & Hnz & Hpct & Hfield & Hdelta).
  rewrite Hkey. subst k. auto 10.
Qed.

(** When no table is returned: the number of lineups of some user of the
    exploded rows is zero, or a player occurs twice in the field table. *)
Lemma exposure_raises (entries : list entry) (exploded : list exploded_row)
    (field_players : list field_player) :
  List.NoDup (map f_player field_players) ->
  compute_user_exposure entries (Rows exploded) field_players = None
  <-> exists x, In x exploded /\ user_lineups entries (x_username x) = Some 0.
Proof.
  intros Hnd. unfold compute_user_exposure. cbv zeta. fold slot_key.
  set (keys := sorted pair_ltb (fromkeys (map slot_key exploded))).
  set (step := fun '(user, player) => _).
  assert (Hstep : forall k, step k = None <-> user_lineups entries (fst k) = Some 0).
  { intros [user player]. unfold step. simpl.
    destruct (user_lineups entries user) as [[|n]|]; simpl; split; congruence. }
  assert (Hin : forall k, In k keys <-> exists x, In x exploded /\ slot_key x = k).
  { intros k. unfold keys. rewrite sorted_In, fromkeys_In, in_map_iff.
    split; intros (x & H1 & H2); exists x; auto. }
  rewrite (proj2 (is_unique_NoDup _) Hnd).
  destruct (mapM step keys) as [exposure|] eqn:Hrows; simpl.
  - split; [discriminate|]. intros (x & Hx & Hz). exfalso.
    assert (Hnone : mapM step keys = None).
    { apply mapM_None_inv. exists (slot_key x). split; [apply Hin; eauto|].
      apply Hstep. exact Hz. }
    congruence.
  - split; [|reflexivity]. intros _.
    apply mapM_None_inv in Hrows as (k & Hk & Hnone).
    apply Hin in Hk as (x & Hx & <-). exists x. split; [exact Hx|].
    apply Hstep in Hnone. exact Hnone.
Qed.

(** C7.  In every row of the user-exposure table that
    [compute_user_exposure] returns, [entry_count] is the number of distinct
    entry ids of the group of the row and [user_total_lineups] that of the
    entries of the user, which is not 0; [user_exposure_pct] is
    [entry_count / user_total_lineups * 100]; [field_pct] is that of the
    player in the field table, and 0 for a player that the table does not
    have; [delta_vs_field] is the difference of the two; and with 2 of 3
    lineups the percentage is 200/3.  For a user without any entry the
    number of lineups is missing, and so is the percentage, which then
    counts as 0 in the delta. *)
Theorem user_exposure_row
    (entries : list entry) (exploded : list exploded_row)
    (field_players : list field_player) (out : list exposure_row) (row : exposure_row) :
  compute_user_exposure entries (Rows exploded) field_players = Some out ->
  In row out ->
  let group := group_rows exploded (exposure_key row) in
  let mine := List.filter (fun e => bool_decide (username e = e_username row)) entries in
  distinct_ids (map x_entry_id group) (entry_count row)
  /\ (Aggregate.user_total_lineups row = None <-> mine = [])
  /\ (forall n : nat,
        Aggregate.user_total_lineups row = Some n ->
        n <> 0
        /\ distinct_ids (map entry_id mine) n
        /\ user_exposure_pct row
           = Some (inject_Z (Z.of_nat (entry_count row)) / inject_Z (Z.of_nat n) * 100)%Q)
  /\ (forall f : field_player,
        In f field_players -> f_player f = e_player row -> e_field_pct row = field_pct f)
  /\ ((forall f, In f field_players -> f_player f <> e_player row) ->
      e_field_pct row = 0%Q)
  /\ (forall p : Q, user_exposure_pct row = Some p ->
        delta_vs_field row = (p - e_field_pct row)%Q)
  /\ (Aggregate.user_total_lineups row = None ->
      user_exposure_pct row = None /\ delta_vs_field row = (0 - e_field_pct row)%Q)
  /\ (entry_count row = 2 -> Aggregate.user_total_lineups row = Some 3 ->
      exists p : Q, user_exposure_pct row = Some p /\ (p == 200 # 3)%Q).
Proof.
  intros Hout Hrow group mine.
  destruct (exposure_table entries exploded field_players out Hout) as (Hnd & _ & Hrows).
  destruct (Hrows row Hrow) as (Hcount & _ & Htotal & Hnz & Hpct & Hfield & Hdelta).
  destruct (user_lineups_spec entries (e_username row)) as (Hnone & Hsome & _).
  fold mine in Hnone, Hsome.
  split; [rewrite Hcount; apply nunique_distinct|].
  split; [rewrite Htotal; exact Hnone|].
  split.
  { intros n Hn. split; [intros ->; exact (Hnz Hn)|].
    split; [apply Hsome; rewrite <- Htotal; exact Hn|].
    rewrite Hpct, Hn. reflexivity. }
  split.
  { intros f Hf Hplayer. rewrite Hfield, <- Hplayer.
    apply field_pct_of_present; assumption. }
  split; [rewrite Hfield; apply field_pct_of_absent|].
  split; [intros p Hp; rewrite Hdelta, Hp; reflexivity|].
  split.
  { intros Hn. rewrite Hn in Hpct. rewrite Hdelta, Hpct. auto. }
  intros Hc Hn. rewrite Hpct, Hn, Hc. eexists. split; reflexivity.
Qed.

Lemma user_exposure_row_witness :
  let entries := [lineup_of 1 "ann"; lineup_of 2 "ann"; lineup_of 3 "ann"] in
  let exploded := [slot_of 1 "ann" "P"; slot_of 1 "ann" "X"; slot_of 2 "ann" "P";
                   slot_of 3 "ann" "Y"] in
  let field_players := [{| f_player := lit "X"; field_pct := 10%Q |}] in
  exists (out : list exposure_row) (row : exposure_row),
    compute_user_exposure entries (Rows exploded) field_players = Some out
    /\ In row out
    /\ e_player row = lit "P"
    /\ entry_count row = 2
    /\ Aggregate.user_total_lineups row = Some 3
    /\ e_field_pct row = 0%Q
    /\ exists p : Q, user_exposure_pct row = Some p /\ (p == 200 # 3)%Q.
Proof.
  cbv zeta.
  destruct (compute_user_exposure
              [lineup_of 1 "ann"; lineup_of 2 "ann"; lineup_of 3 "ann"]
              (Rows [slot_of 1 "ann" "P"; slot_of 1 "ann" "X"; slot_of 2 "ann" "P";
                     slot_of 3 "ann" "Y"])
              [{| f_player := lit "X"; field_pct := 10%Q |}]) as [out|] eqn:Hout;
    [|vm_compute in Hout; discriminate].
  pose proof Hout as Hvalue. vm_compute in Hvalue. injection Hvalue as Hvalue.
  assert (Hrow : In (hd (Vocabulary.no_row) out) out)
    by (rewrite <- Hvalue; left; reflexivity).
  exists out, (hd Vocabulary.no_row out).
  split; [reflexivity|]. split; [exact Hrow|].
  split; [rewrite <- Hvalue; reflexivity|].
  split; [rewrite <- Hvalue; reflexivity|].
  split; [rewrite <- Hvalue; reflexivity|].
  split; [rewrite <- Hvalue; reflexivity|].
  destruct (user_exposure_row _ _ _ out _ Hout Hrow) as (_ & _ & _ & _ & _ & _ & _ & Hlast).
  apply Hlast; rewrite <- Hvalue; reflexivity.
Defined.

(** X14.  [compute_user_exposure] raises on a frame without columns; on a
    frame with its columns, and a field table with distinct players, it
    raises exactly when a user of the exploded rows has entries none of
    which has an entry id.  The table it returns has one row for every
    pair of user name and player that occurs in the exploded rows, in
    strictly increasing order of (user name, player).  The group of a row
    is never empty; its [entry_count] is at most the size of the group and
    is 0 exactly when no row of the group has an entry id; its [best_rank]
    is the least rank of the group, and is missing exactly when every rank
    of the group is. *)
Theorem user_exposure_groups
    (entries : list entry) (exploded : list exploded_row)
    (field_players : list field_player) :
  compute_user_exposure entries NoColumns field_players = None
  /\ (List.NoDup (map f_player field_players) ->
      (compute_user_exposure entries (Rows exploded) field_players = None
       <-> exists x : exploded_row,
             In x exploded
             /\ (exists e, In e entries /\ username e = x_username x)
             /\ forall e, In e entries -> username e = x_username x -> entry_id e = None))
  /\ forall out : list exposure_row,
       compute_user_exposure entries (Rows exploded) field_players = Some out ->
       map exposure_key out = sorted pair_ltb (fromkeys (map slot_key exploded))
       /\ StronglySorted (fun a b => pair_ltb (exposure_key a) (exposure_key b) = true) out
       /\ (forall k : str * str,
             In k (map exposure_key out) <-> exists x, In x exploded /\ slot_key x = k)
       /\ length out <= length exploded
       /\ forall r : exposure_row,
            In r out ->
            let group := group_rows exploded (exposure_key r) in
            1 <= length group
            /\ entry_count r <= length group
            /\ (entry_count r = 0 <-> forall x, In x group -> x_entry_id x = None)
            /\ (best_rank r = None <-> forall x, In x group -> x_rank x = None)
            /\ forall z : Z,
                 best_rank r = Some z ->
                 (exists x, In x group /\ x_rank x = Some z)
                 /\ forall x y, In x group -> x_rank x = Some y -> (z <= y)%Z.
Proof.
  split; [reflexivity|]. split.
  { intros Hnd. rewrite (exposure_raises entries exploded field_players Hnd).
    split; intros (x & Hx & Hz); exists x; (split; [exact Hx|]);
      apply (user_lineups_spec entries (x_username x)); exact Hz. }
  intros out Hout.
  destruct (exposure_table entries exploded field_players out Hout) as (_ & Hkeys & Hrows).
  assert (Hin : forall k, In k (map exposure_key out)
                          <-> exists x, In x exploded /\ slot_key x = k).
  { intros k. rewrite Hkeys, sorted_In, fromkeys_In, in_map_iff.
    split; intros (x & H1 & H2); exists x; auto. }
  split; [exact Hkeys|]. split; [|split; [exact Hin|split]].
  - apply (StronglySorted_unmap exposure_key (fun a b => pair_ltb a b = true)).
    rewrite Hkeys. apply exposure_keys_sorted.
  - rewrite <- (length_map exposure_key), Hkeys, sorted_length.
    etransitivity; [apply fromkeys_length|]. rewrite length_map. lia.
  - intros r Hr group.
    assert (Hgroup : 1 <= length group).
    { destruct (proj1 (Hin (exposure_key r)) (in_map _ _ _ Hr)) as (x & Hx & Hk).
      assert (Hxg : In x group)
        by (apply filter_In; split; [exact Hx|apply bool_decide_eq_true; exact Hk]).
      destruct group; [destruct Hxg|simpl; lia]. }
    destruct (Hrows r Hr) as (Hcount & Hbest & _). fold group in Hcount, Hbest.
    rewrite Hcount, Hbest.
    split; [exact Hgroup|]. split; [|split; [|split]].
    + etransitivity; [apply nunique_le|]. rewrite length_map. lia.
    + rewrite nunique_zero. split.
      * intros Hall x Hx. apply Hall, in_map, Hx.
      * intros Hall i Hi. apply in_map_iff in Hi as (x & <- & Hx). apply Hall, Hx.
    + rewrite (proj1 (min_skipna_spec _)). split.
      * intros Hall x Hx. apply Hall, in_map, Hx.
      * intros Hall i Hi. apply in_map_iff in Hi as (x & <- & Hx). apply Hall, Hx.
    + intros z Hz. destruct (proj2 (min_skipna_spec _) z Hz) as [Hzin Hle]. split.
      * apply in_map_iff in Hzin as (x & Hxz & Hx). exists x. auto.
      * intros x y Hx Hy. apply Hle. rewrite <- Hy. apply in_map, Hx.
Qed.

Lemma user_exposure_groups_witness :
  let entries := [lineup_of 1 "ann"; lineup_of 2 "ann"; lineup_of 3 "bob"] in
  let exploded := [slot_of 1 "ann" "P"; slot_of 1 "ann" "X"; slot_of 2 "ann" "P";
                   slot_of 3 "bob" "P"] in
  let unlisted := {| entry_id := None; username := lit "cat"; rank := Some 4%Z;
                     points := None; percentile := 0%Q; lineup_players := [lit "P"] |} in
  let slot := {| x_entry_id := None; x_username := lit "cat"; x_rank := Some 4%Z;
                 x_percentile := 0%Q; x_points := None; x_player := lit "P" |} in
  (exists out : list exposure_row,
     compute_user_exposure entries (Rows exploded) [] = Some out
     /\ map exposure_key out
        = [(lit "ann", lit "P"); (lit "ann", lit "X"); (lit "bob", lit "P")]
     /\ map entry_count out = [2; 1; 1]
     /\ StronglySorted (fun a b => pair_ltb (exposure_key a) (exposure_key b) = true) out)
  /\ compute_user_exposure (unlisted :: entries) (Rows (slot :: exploded)) [] = None
  /\ compute_user_exposure entries NoColumns [] = None.
Proof.
  cbv zeta. split; [|split].
  - destruct (compute_user_exposure
                [lineup_of 1 "ann"; lineup_of 2 "ann"; lineup_of 3 "bob"]
                (Rows [slot_of 1 "ann" "P"; slot_of 1 "ann" "X"; slot_of 2 "ann" "P";
                       slot_of 3 "bob" "P"]) []) as [out|] eqn:Hout;
      [|vm_compute in Hout; discriminate].
    exists out. split; [reflexivity|].
    destruct (user_exposure_groups
                [lineup_of 1 "ann"; lineup_of 2 "ann"; lineup_of 3 "bob"]
                [slot_of 1 "ann" "P"; slot_of 1 "ann" "X"; slot_of 2 "ann" "P";
                 slot_of 3 "bob" "P"] []) as (_ & _ & Hsome).
    destruct (Hsome out Hout) as (Hkeys & Hsorted & _).
    split; [rewrite Hkeys; vm_compute; reflexivity|].
    split; [|exact Hsorted].
    vm_compute in Hout. injection Hout as <-. reflexivity.
  - match goal with
    | |- compute_user_exposure ?entries (Rows ?exploded) ?fp = None =>
        destruct (user_exposure_groups entries exploded fp) as (_ & Hnone & _)
    end.
    apply (Hnone (List.NoDup_nil _)).
    eexists. split; [left; reflexivity|]. split.
    + eexists. split; [left; reflexivity|reflexivity].
    + intros e [<-|[<-|[<-|[<-|[]]]]] Hu; [reflexivity|..];
        vm_compute in Hu; discriminate.
  - reflexivity.
Defined.

(** X15.  When every exploded row repeats the user name and the id of an
    entry, as the rows built by the ingestion do, every row of a returned
    exposure table has a number of lineups, which is at least 1;
    [entry_count] does not exceed it, and the percentage is present and
    lies between 0 and 100. *)
Theorem user_exposure_at_most_100
    (entries : list entry) (exploded : list exploded_row)
    (field_players : list field_player) (out : list exposure_row) (r : exposure_row) :
  exploded_from entries exploded ->
  compute_user_exposure entries (Rows exploded) field_players = Some out ->
  In r out ->
  exists (n : nat) (p : Q),
    Aggregate.user_total_lineups r = Some n
    /\ 1 <= n
    /\ entry_count r <= n
    /\ user_exposure_pct r = Some p
    /\ (0 <= p)%Q /\ (p <= 100)%Q.
Proof.
  intros Hfrom Hout Hr.
  destruct (exposure_table entries exploded field_players out Hout) as (_ & Hkeys & Hrows).
  destruct (Hrows r Hr) as (Hcount & _ & Htotal & Hnz & Hpct & _).
  assert (Hk : In (exposure_key r) (map exposure_key out)) by (apply in_map, Hr).
  rewrite Hkeys, sorted_In, fromkeys_In in Hk.
  apply in_map_iff in Hk as (x0 & Hk0 & Hx0).
  destruct (Hfrom x0 Hx0) as (e0 & He0 & Hu0 & _).
  assert (Huser : x_username x0 = e_username r)
    by (unfold slot_key, exposure_key in Hk0; congruence).
  unfold user_lineups in Htotal.
  set (mine := List.filter (fun e => bool_decide (username e = e_username r)) entries) in *.
  assert (Hmine : forall e, In e mine <-> In e entries /\ username e = e_username r).
  { intros e. unfold mine. rewrite filter_In, bool_decide_eq_true. reflexivity. }
  assert (He0m : In e0 mine) by (apply Hmine; split; [exact He0|congruence]).
  assert (Hle : entry_count r <= Aggregate.nunique (map entry_id mine)).
  { rewrite Hcount. apply nunique_incl. intros z Hz.
    apply in_map_iff in Hz as (x & Hxz & Hx).
    apply filter_In in Hx as [Hx Hkx]. apply bool_decide_eq_true in Hkx.
    destruct (Hfrom x Hx) as (e & He & Hu & Hid).
    apply in_map_iff. exists e. split; [congruence|].
    apply Hmine. split; [exact He|].
    unfold slot_key, exposure_key in Hkx. congruence. }
  destruct mine as [|e1 mine'] eqn:Hm; [destruct He0m|]. rewrite <- Hm in *.
  destruct (Aggregate.nunique (map entry_id mine)) as [|n] eqn:Hn;
    [destruct (Hnz Htotal)|].
  rewrite Htotal in Hpct.
  set (c := entry_count r) in *.
  assert (H0 : (0 <= inject_Z (Z.of_nat c) / inject_Z (Z.of_nat (S n)))%Q).
  { apply Qle_shift_div_l; [unfold Qlt; simpl; lia|].
    rewrite Qmult_0_l. unfold Qle; simpl; lia. }
  assert (H1 : (inject_Z (Z.of_nat c) / inject_Z (Z.of_nat (S n)) <= 1)%Q).
  { apply Qle_shift_div_r; [unfold Qlt; simpl; lia|].
    rewrite Qmult_1_l. rewrite <- Zle_Qle. lia. }
  eexists. eexists. split; [exact Htotal|]. split; [lia|]. split; [exact Hle|].
  split; [exact Hpct|]. split.
  - apply Qmult_le_0_compat; [exact H0|unfold Qle; simpl; lia].
  - apply Qle_trans with (1 * 100)%Q; [|apply Qle_refl].
    apply Qmult_le_compat_r; [exact H1|unfold Qle; simpl; lia].
Qed.

Lemma user_exposure_at_most_100_witness :
  let entries := [lineup_of 1 "ann"; lineup_of 2 "ann"; lineup_of 3 "bob"] in
  let exploded := [slot_of 1 "ann" "P"; slot_of 1 "ann" "X"; slot_of 2 "ann" "P";
                   slot_of 3 "bob" "P"] in
  exploded_from entries exploded
  /\ exists (out : list exposure_row) (r : exposure_row),
       compute_user_exposure entries (Rows exploded) [] = Some out
       /\ In r out
       /\ e_player r = lit "P"
       /\ exists (n : nat) (p : Q),
            Aggregate.user_total_lineups r = Some n
            /\ 1 <= n
            /\ entry_count r <= n
            /\ user_exposure_pct r = Some p
            /\ (0 <= p)%Q /\ (p <= 100)%Q.
Proof.
  cbv zeta.
  assert (Hfrom : exploded_from
                    [lineup_of 1 "ann"; lineup_of 2 "ann"; lineup_of 3 "bob"]
                    [slot_of 1 "ann" "P"; slot_of 1 "ann" "X"; slot_of 2 "ann" "P";
                     slot_of 3 "bob" "P"]).
  { intros x [<-|[<-|[<-|[<-|[]]]]].
    - exists (lineup_of 1 "ann"). simpl. auto.
    - exists (lineup_of 1 "ann"). simpl. auto.
    - exists (lineup_of 2 "ann"). simpl. auto.
    - exists (lineup_of 3 "bob"). simpl. auto 6. }
  split; [exact Hfrom|].
  destruct (compute_user_exposure
              [lineup_of 1 "ann"; lineup_of 2 "ann"; lineup_of 3 "bob"]
              (Rows [slot_of 1 "ann" "P"; slot_of 1 "ann" "X"; slot_of 2 "ann" "P";
                     slot_of 3 "bob" "P"]) []) as [out|] eqn:Hout;
    [|vm_compute in Hout; discriminate].
  pose proof Hout as Hvalue. vm_compute in Hvalue. injection Hvalue as Hvalue.
  assert (Hr : In (hd Vocabulary.no_row out) out) by (rewrite <- Hvalue; left; reflexivity).
  exists out, (hd Vocabulary.no_row out).
  split; [reflexivity|]. split; [exact Hr|].
  split; [rewrite <- Hvalue; reflexivity|].
  exact (user_exposure_at_most_100 _ _ _ out _ Hfrom Hout Hr).
Defined.

(** ** The records of the name combinations *)

Lemma combinations_size {A : Type} (l : list A) (k : nat) (c : list A) :
  In c (combinations l k) -> length c = k.
Proof.
  revert k c. induction l as [|x l IH]; intros [|k] c Hc; simpl in Hc.
  - destruct Hc as [<-|[]]. reflexivity.
  - destruct Hc.
  - destruct Hc as [<-|[]]. reflexivity.
  - apply in_app_or in Hc as [Hc|Hc].
    + apply in_map_iff in Hc as (c' & <- & Hc'). simpl. f_equal. apply IH, Hc'.
    + apply IH, Hc.
Qed.

Lemma combinations_sorted {A : Type} (R : A -> A -> Prop) (l : list A) (k : nat)
    (c : list A) :
  StronglySorted R l -> In c (combinations l k) -> StronglySorted R c.
Proof.
  intros Hl. revert k c. induction Hl as [|x l Hl IH Hx]; intros [|k] c Hc; simpl in Hc.
  - destruct Hc as [<-|[]]. constructor.
  - destruct Hc.
  - destruct Hc as [<-|[]]. constructor.
  - apply in_app_or in Hc as [Hc|Hc].
    + apply in_map_iff in Hc as (c' & <- & Hc'). constructor; [apply (IH k), Hc'|].
      rewrite List.Forall_forall in Hx |- *. intros y Hy.
      apply Hx. exact (combinations_incl l k c' Hc' y Hy).
    + apply (IH (S k)), Hc.
Qed.

Lemma combinations_complete (l c : list str) :
  ascending l -> ascending c -> incl c l -> In c (combinations l (length c)).
Proof.
  intros Hl. revert c. induction Hl as [|x l Hl IH Hx]; intros c Hc Hincl.
  - destruct c as [|y c]; [left; reflexivity|]. destruct (Hincl y (or_introl eq_refl)).
  - destruct c as [|y c]; [left; reflexivity|]. simpl.
    inversion Hc as [|? ? Hc' Hy]; subst.
    rewrite List.Forall_forall in Hx, Hy.
    apply in_or_app. destruct (Hincl y (or_introl eq_refl)) as [<-|Hyl].
    + left. apply in_map, IH; [exact Hc'|].
      intros z Hz. destruct (Hincl z (or_intror Hz)) as [<-|Hzl]; [|exact Hzl].
      specialize (Hy x Hz). rewrite str_ltb_irrefl in Hy. discriminate.
    + right. apply (IH (y :: c) Hc).
      intros z [<-|Hz]; [exact Hyl|].
      destruct (Hincl z (or_intror Hz)) as [<-|Hzl]; [|exact Hzl].
      specialize (Hy x Hz). specialize (Hx y Hyl).
      rewrite (strict_total_asym str_ltb str_ltb_strict_total x y Hx) in Hy. discriminate.
Qed.

Lemma ascending_NoDup (c : list str) : ascending c -> List.NoDup c.
Proof.
  induction 1 as [|x c Hc IH Hx]; constructor; [|exact IH].
  intros Hin. rewrite List.Forall_forall in Hx. specialize (Hx x Hin).
  rewrite str_ltb_irrefl in Hx. discriminate.
Qed.

Lemma fielded_spec (c : list str) (e : entry) :
  fielded c e = true <-> lineup_players e <> [] /\ incl c (lineup_players e).
Proof.
  unfold fielded. destruct (lineup_players e) as [|p ps].
  - split; [discriminate|]. intros [Hne _]. congruence.
  - rewrite forallb_forall. split.
    + intros Hall. split; [discriminate|]. intros q Hq.
      apply existsb_eq_In, Hall, Hq.
    + intros [_ Hincl] q Hq. apply existsb_eq_In, Hincl, Hq.
Qed.

(** The combinations a row sends: the strictly increasing selections of
    [size] of its players. *)
Lemma row_combos_spec (size : nat) (e : entry) (c : list str) :
  In c (row_combos size e) <-> length c = size /\ ascending c /\ fielded c e = true.
Proof.
  rewrite fielded_spec. unfold row_combos.
  assert (Hu : ascending (sorted str_ltb (fromkeys (lineup_players e))))
    by (apply sorted_strictly; [apply str_ltb_strict_total|apply fromkeys_NoDup]).
  assert (Hin : forall q, In q (sorted str_ltb (fromkeys (lineup_players e)))
                          <-> In q (lineup_players e))
    by (intros q; rewrite sorted_In; apply fromkeys_In).
  destruct (lineup_players e) as [|p ps] eqn:Hp.
  - split; [intros []|]. intros (_ & _ & Hne & _). congruence.
  - rewrite <- Hp in *. destruct (Nat.ltb_spec (length (lineup_players e)) size) as [Hlt|Hge].
    + split; [intros []|]. intros (Hlen & Hc & _ & Hincl). exfalso.
      pose proof (List.NoDup_incl_length (ascending_NoDup c Hc) Hincl). lia.
    + split.
      * intros Hc. split; [eapply combinations_size, Hc|].
        split; [eapply combinations_sorted; [exact Hu|exact Hc]|].
        split; [congruence|].
        intros q Hq. apply Hin. exact (combinations_incl _ _ _ Hc q Hq).
      * intros (Hlen & Hc & _ & Hincl). rewrite <- Hlen.
        apply combinations_complete; [exact Hu|exact Hc|].
        intros q Hq. apply Hin, Hincl, Hq.
Qed.

Lemma combo_records_made (records : list (list str * bucket)) (size : nat)
    (r : combo_record) :
  In r (_combo_dict_to_records records size) ->
  combo r = join (lit " | ") (players r)
  /\ combo_entry_ids r <> []
  /\ count_in_current_percentile r = frequency r.
Proof.
  unfold _combo_dict_to_records. intros Hr.
  apply in_flat_map in Hr as ([k b] & _ & Hr).
  destruct (entry_ids b) as [|i ids]; [destruct Hr|].
  destruct Hr as [<-|[]]. simpl. repeat split. discriminate.
Qed.

Lemma combo_records_found (records : list (list str * bucket)) (size : nat) (c : list str) :
  ids_of c records <> [] ->
  exists r, In r (_combo_dict_to_records records size) /\ players r = c.
Proof.
  unfold _combo_dict_to_records.
  induction records as [|[k b] records IH]; simpl; intros Hc; [congruence|].
  destruct (bool_decide (k = c)) eqn:Hk.
  - apply bool_decide_eq_true in Hk. subst k.
    destruct (entry_ids b) as [|i ids]; [congruence|].
    eexists. split; [left; reflexivity|reflexivity].
  - destruct (IH Hc) as (r & Hr & Hp). exists r. split; [|exact Hp].
    apply in_or_app. right. exact Hr.
Qed.

Lemma row_combos_filter (entries : list entry) (size : nat) (c : list str) :
  length c = size -> ascending c ->
  List.filter (fun e => existsb (fun c' => bool_decide (c' = c)) (row_combos size e)) entries
  = List.filter (fielded c) entries.
Proof.
  intros Hlen Hc. apply filter_ext. intros e. apply eq_true_iff_eq.
  rewrite existsb_eq_In, row_combos_spec. tauto.
Qed.

(** The records that [_combo_records] lists are exactly the strictly
    increasing selections of [size] player names that some entry lists in
    full, each with the ids of the entries that list all its players. *)
Lemma combo_records_listed (entries : list entry) (size : nat) :
  let out := _combo_records entries size in
  (forall r : combo_record,
     In r out ->
     Aggregate.size r = size
     /\ length (players r) = size
     /\ ascending (players r)
     /\ combo r = join (lit " | ") (players r)
     /\ combo_entry_ids r = map entry_id (List.filter (fielded (players r)) entries)
     /\ frequency r = length (List.filter (fielded (players r)) entries)
     /\ 1 <= frequency r
     /\ count_in_current_percentile r = frequency r)
  /\ (forall c : list str,
        length c = size -> ascending c ->
        (exists e : entry, In e entries /\ fielded c e = true) ->
        exists r : combo_record, In r out /\ players r = c).
Proof.
  intros out. destruct (combo_dict_spec entries size) as [Hkeys Hids]. split.
  - intros r Hr.
    destruct (combo_records_In _ _ _ Hkeys Hr) as (_ & Hr_ids & Hsize & Hfreq).
    destruct (combo_records_made _ _ _ Hr) as (Hcombo & Hne & Hcount).
    rewrite Hids in Hr_ids.
    assert (Hsome : exists e, In e entries /\ In (players r) (row_combos size e)).
    { destruct (List.filter _ entries) as [|e es] eqn:Hf;
        [rewrite Hr_ids in Hne; simpl in Hne; congruence|].
      assert (He : In e (e :: es)) by (left; reflexivity).
      rewrite <- Hf in He. apply filter_In in He as [He Hc].
      exists e. split; [exact He|]. apply existsb_eq_In. exact Hc. }
    destruct Hsome as (e & He & Hc). apply row_combos_spec in Hc as (Hlen & Hasc & _).
    rewrite row_combos_filter in Hr_ids by assumption.
    assert (Hf : frequency r = length (List.filter (fielded (players r)) entries))
      by (rewrite Hfreq, Hr_ids; apply length_map).
    repeat split; try assumption.
    rewrite Hfreq. destruct (combo_entry_ids r); [congruence|simpl; lia].
  - intros c Hlen Hasc (e & He & Hf).
    apply combo_records_found. rewrite Hids, row_combos_filter by assumption.
    assert (Hin : In e (List.filter (fielded c) entries))
      by (apply filter_In; auto).
    destruct (List.filter (fielded c) entries); [destruct Hin|discriminate].
Qed.

(** ** Dictionaries of payloads *)

Section Dictionary.
Context {K : Type} `{EqDecision K}.

Lemma payload_at_record_at (row : entry) (k k' : K) (records : list (K * bucket)) :
  payload_at k' (record_at row k records)
  = if bool_decide (k = k') then push row (payload_at k' records)
    else payload_at k' records.
Proof.
  induction records as [|[k0 b] records IH]; simpl.
  - destruct (bool_decide (k = k')); reflexivity.
  - destruct (decide (k0 = k)) as [->|Hk].
    + rewrite bool_decide_eq_true_2 by reflexivity. simpl.
      destruct (bool_decide (k = k')); reflexivity.
    + rewrite (bool_decide_eq_false_2 (k0 = k)) by exact Hk. simpl.
      destruct (decide (k0 = k')) as [->|Hk'].
      * rewrite bool_decide_eq_true_2 by reflexivity.
        rewrite bool_decide_eq_false_2 by congruence. reflexivity.
      * rewrite (bool_decide_eq_false_2 (k0 = k')) by exact Hk'. exact IH.
Qed.

Lemma keys_record_at (row : entry) (k : K) (records : list (K * bucket)) :
  map fst (record_at row k records)
  = if existsb (fun k' => bool_decide (k' = k)) (map fst records)
    then map fst records else map fst records ++ [k].
Proof.
  induction records as [|[k0 b] records IH]; simpl; [reflexivity|].
  destruct (bool_decide (k0 = k)); simpl; [reflexivity|].
  rewrite IH. destruct (existsb _ _); reflexivity.
Qed.

Lemma keys_record_at_In (row : entry) (k k' : K) (records : list (K * bucket)) :
  In k' (map fst (record_at row k records)) <-> In k' (map fst records) \/ k' = k.
Proof.
  rewrite keys_record_at. destruct (existsb _ _) eqn:Hex.
  - apply existsb_eq_In in Hex. split; [auto|]. intros [Hk|Hk]; [|subst k']; assumption.
  - rewrite in_app_iff. simpl. split.
    + intros [Hk|[Hk|[]]]; auto.
    + intros [Hk|Hk]; auto.
Qed.

Lemma keys_record_at_NoDup (row : entry) (k : K) (records : list (K * bucket)) :
  List.NoDup (map fst records) -> List.NoDup (map fst (record_at row k records)).
Proof.
  intros Hnd. rewrite keys_record_at.
  destruct (existsb _ _) eqn:Hex; [exact Hnd|].
  apply List.NoDup_app; [exact Hnd|constructor; [intros []|constructor]|].
  intros k' Hk' [<-|[]].
  apply existsb_eq_In in Hk'. congruence.
Qed.

Lemma record_all (row : entry) (ks : list K) (records : list (K * bucket)) :
  List.NoDup ks ->
  List.NoDup (map fst records) ->
  let records' := fold_left (fun records k => record_at row k records) ks records in
  List.NoDup (map fst records')
  /\ (forall k, In k (map fst records') <-> In k (map fst records) \/ In k ks)
  /\ forall k, payload_at k records'
               = if existsb (fun k' => bool_decide (k' = k)) ks
                 then push row (payload_at k records) else payload_at k records.
Proof.
  intros Hks. revert records.
  induction Hks as [|k0 ks Hk0 _ IH]; intros records Hnd; simpl.
  - split; [exact Hnd|]. split; [|reflexivity]. intros k. tauto.
  - destruct (IH (record_at row k0 records) (keys_record_at_NoDup row k0 records Hnd))
      as (Hnd' & Hkeys & Hpay).
    split; [exact Hnd'|]. split.
    + intros k. rewrite Hkeys, keys_record_at_In. intuition auto.
    + intros k. rewrite Hpay, payload_at_record_at.
      destruct (decide (k0 = k)) as [->|Hne].
      * rewrite bool_decide_eq_true_2 by reflexivity. simpl.
        destruct (existsb _ ks) eqn:Hex; [|reflexivity].
        apply existsb_eq_In in Hex. destruct (Hk0 Hex).
      * rewrite bool_decide_eq_false_2 by exact Hne. reflexivity.
Qed.

Lemma push_collected (row : entry) (rows : list entry) :
  push row (collected rows) = collected (rows ++ [row]).
Proof. unfold push, collected. simpl. rewrite !map_app. reflexivity. Qed.

Lemma payload_at_In (k : K) (b : bucket) (records : list (K * bucket)) :
  List.NoDup (map fst records) -> In (k, b) records -> payload_at k records = b.
Proof.
  induction records as [|[k0 b0] records IH]; simpl; intros Hnd Hin; [destruct Hin|].
  inversion Hnd as [|? ? Hk0 Hnd']; subst.
  destruct Hin as [Heq|Hin].
  - injection Heq as Hk Hb. subst k0 b0.
    rewrite bool_decide_eq_true_2 by reflexivity. reflexivity.
  - rewrite bool_decide_eq_false_2; [exact (IH Hnd' Hin)|].
    intros ->. apply Hk0. apply in_map_iff. exists (k, b). auto.
Qed.

(** The dictionary of a loop: keys are distinct, a key is present when
    some row sent it, and its payload collects the rows that sent it, in
    their order. *)
Lemma dictionary_spec (sends : entry -> list K) (entries : list entry) :
  (forall e, List.NoDup (sends e)) ->
  List.NoDup (map fst (dictionary sends entries))
  /\ (forall k, In k (map fst (dictionary sends entries))
                <-> exists e, In e entries /\ In k (sends e))
  /\ forall k, payload_at k (dictionary sends entries)
               = collected (List.filter
                              (fun e => existsb (fun k' => bool_decide (k' = k)) (sends e))
                              entries).
Proof.
  intros Hsends. unfold dictionary.
  assert (Hgen : forall (done : list entry) (records : list (K * bucket)),
             List.NoDup (map fst records) ->
             (forall k, In k (map fst records) <-> exists e, In e done /\ In k (sends e)) ->
             (forall k, payload_at k records
                        = collected (List.filter
                                       (fun e => existsb (fun k' => bool_decide (k' = k))
                                                         (sends e)) done)) ->
             let records' :=
               fold_left (fun records row =>
                            fold_left (fun records k => record_at row k records)
                                      (sends row) records) entries records in
             List.NoDup (map fst records')
             /\ (forall k, In k (map fst records')
                           <-> exists e, In e (done ++ entries) /\ In k (sends e))
             /\ forall k, payload_at k records'
                          = collected (List.filter
                                         (fun e => existsb (fun k' => bool_decide (k' = k))
                                                           (sends e))
                                         (done ++ entries))).
  { induction entries as [|e entries IH]; intros done records Hnd Hkeys Hpay; simpl.
    - rewrite app_nil_r. auto.
    - destruct (record_all e (sends e) records (Hsends e) Hnd) as (Hnd' & Hkeys' & Hpay').
      specialize (IH (done ++ [e]) _ Hnd').
      rewrite <- app_assoc in IH. simpl in IH. apply IH.
      + intros k. rewrite Hkeys', Hkeys. split.
        * intros [(e' & He' & Hk)|Hk].
          -- exists e'. split; [apply in_or_app; auto|exact Hk].
          -- exists e. split; [apply in_or_app; right; left; reflexivity|exact Hk].
        * intros (e' & He' & Hk). apply in_app_or in He' as [He'|[<-|[]]]; eauto.
      + intros k. rewrite Hpay', Hpay, List.filter_app. simpl.
        destruct (existsb _ (sends e)).
        * apply push_collected.
        * rewrite app_nil_r. reflexivity. }
  apply (Hgen [] []).
  - constructor.
  - intros k. split; [intros []|intros (e & [] & _)].
  - intros k. reflexivity.
Qed.

End Dictionary.

Lemma record_row_record_at (row : entry) (c : list str) (records : list (list str * bucket)) :
  record_row row c records = record_at row c records.
Proof.
  induction records as [|[k b] records IH]; simpl; [reflexivity|].
  rewrite IH. reflexivity.
Qed.

Lemma combo_dict_dictionary (entries : list entry) (size : nat) :
  combo_dict entries size = dictionary (row_combos size) entries.
Proof.
  unfold combo_dict, dictionary.
  generalize (@nil (list str * bucket)).
  induction entries as [|e entries IH]; intros records; simpl; [reflexivity|].
  rewrite IH. f_equal.
  generalize (row_combos size e). intros cs. revert records.
  induction cs as [|c cs IHc]; intros records; simpl; [reflexivity|].
  rewrite record_row_record_at. apply IHc.
Qed.

(** ** The columns computed from a payload *)

Lemma mapM_id_Some {A : Type} (l : list (option A)) (present : list A) :
  mapM id l = Some present <-> l = map Some present.
Proof.
  split.
  - intros Hl. apply mapM_Some_inv in Hl.
    induction Hl as [|x y l present Hxy _ IH]; simpl; [reflexivity|].
    simpl in Hxy. subst x. rewrite IH. reflexivity.
  - intros ->. apply mapM_Some_intro.
    induction present as [|y present IH]; constructor; [reflexivity|exact IH].
Qed.

Section Least.
Context {A : Type} (ltb : A -> A -> bool) (le : A -> A -> Prop).
Hypothesis le_refl : forall x, le x x.
Hypothesis le_trans : forall x y z, le x y -> le y z -> le x z.
Hypothesis ltb_le : forall x y, ltb x y = true -> le x y.
Hypothesis not_ltb_le : forall x y, ltb x y = false -> le y x.

Lemma fold_least (xs : list A) (x : A) :
  let m := fold_left (fun m y => if ltb y m then y else m) xs x in
  In m (x :: xs) /\ forall y, In y (x :: xs) -> le m y.
Proof.
  revert x. induction xs as [|a xs IH]; intros x; simpl.
  - split; [auto|]. intros y [<-|[]]. apply le_refl.
  - destruct (IH (if ltb a x then a else x)) as [Hin Hle]. split.
    + destruct Hin as [Hin|Hin]; [|auto].
      rewrite <- Hin. destruct (ltb a x); auto.
    + assert (Hm := Hle _ (or_introl eq_refl)).
      intros y [<-|[<-|Hy]].
      * eapply le_trans; [exact Hm|].
        destruct (ltb a x) eqn:Hax; [apply ltb_le, Hax|apply le_refl].
      * eapply le_trans; [exact Hm|].
        destruct (ltb a x) eqn:Hax; [apply le_refl|apply not_ltb_le, Hax].
      * apply Hle. right. exact Hy.
Qed.

Lemma builtin_min_spec (xs : list A) :
  (builtin_min ltb xs = None <-> xs = [])
  /\ forall m, builtin_min ltb xs = Some m -> In m xs /\ forall y, In y xs -> le m y.
Proof.
  destruct xs as [|x xs]; simpl.
  - split; [tauto|discriminate].
  - split; [split; discriminate|].
    intros m Hm. injection Hm as <-. apply fold_least.
Qed.

End Least.

Lemma Qltb_true (x y : Q) : Qltb x y = true -> (x <= y)%Q.
Proof.
  unfold Qltb. intros Hxy. apply negb_true_iff in Hxy.
  destruct (Qlt_le_dec x y) as [Hlt|Hle]; [apply Qlt_le_weak, Hlt|].
  apply Qle_bool_iff in Hle. congruence.
Qed.

Lemma Qltb_false (x y : Q) : Qltb x y = false -> (y <= x)%Q.
Proof.
  unfold Qltb. intros Hxy. apply negb_false_iff in Hxy. apply Qle_bool_iff, Hxy.
Qed.

Lemma builtin_min_ranks (xs : list Z) :
  (builtin_min Z.ltb xs = None <-> xs = [])
  /\ forall m, builtin_min Z.ltb xs = Some m -> In m xs /\ forall y, In y xs -> (m <= y)%Z.
Proof.
  apply builtin_min_spec; intros; lia.
Qed.

Lemma builtin_min_percentiles (xs : list Q) :
  (builtin_min Qltb xs = None <-> xs = [])
  /\ forall m, builtin_min Qltb xs = Some m -> In m xs /\ forall y, In y xs -> (m <= y)%Q.
Proof.
  apply builtin_min_spec.
  - apply Qle_refl.
  - apply Qle_trans.
  - apply Qltb_true.
  - apply Qltb_false.
Qed.

(** The greatest of a list of floats: NaN stays when it comes first, and
    is passed over otherwise. *)
Lemma fold_greatest_nan (xs : list (option Q)) :
  fold_left (fun m y => if float_ltb m y then y else m) xs None = None.
Proof. induction xs as [|a xs IH]; simpl; [reflexivity|exact IH]. Qed.

Lemma fold_greatest (xs : list (option Q)) (x : Q) :
  exists q : Q,
    fold_left (fun m y => if float_ltb m y then y else m) xs (Some x) = Some q
    /\ In (Some q) (Some x :: xs)
    /\ forall y, In (Some y) (Some x :: xs) -> (y <= q)%Q.
Proof.
  revert x. induction xs as [|a xs IH]; intros x; simpl.
  - exists x. split; [reflexivity|]. split; [auto|].
    intros y [Hy|[]]. injection Hy as <-. apply Qle_refl.
  - destruct a as [a|]; simpl.
    + destruct (IH (if Qltb x a then a else x)) as (q & Hq & Hin & Hle).
      exists q. split; [destruct (Qltb x a); exact Hq|]. split.
      * destruct Hin as [Hin|Hin]; [|auto].
        rewrite <- Hin. destruct (Qltb x a); auto.
      * assert (Hm := Hle _ (or_introl eq_refl)).
        intros y [Hy|[Hy|Hy]].
        -- injection Hy as <-. eapply Qle_trans; [|exact Hm].
           destruct (Qltb x a) eqn:Hxa; [apply Qltb_true, Hxa|apply Qle_refl].
        -- injection Hy as <-. eapply Qle_trans; [|exact Hm].
           destruct (Qltb x a) eqn:Hxa; [apply Qle_refl|apply Qltb_false, Hxa].
        -- apply Hle. right. exact Hy.
    + destruct (IH x) as (q & Hq & Hin & Hle).
      exists q. split; [exact Hq|]. split.
      * destruct Hin as [Hin|Hin]; auto.
      * intros y [Hy|[Hy|Hy]]; [apply Hle; left; exact Hy|discriminate|].
        apply Hle. right. exact Hy.
Qed.

Lemma builtin_max_points (xs : list (option Q)) :
  (builtin_max float_ltb xs = None <-> xs = [])
  /\ (builtin_max float_ltb xs = Some None <-> exists xs', xs = None :: xs')
  /\ forall q : Q,
       builtin_max float_ltb xs = Some (Some q) ->
       In (Some q) xs /\ forall y, In (Some y) xs -> (y <= q)%Q.
Proof.
  destruct xs as [|[x|] xs]; simpl.
  - split; [tauto|]. split; [|discriminate].
    split; [discriminate|]. intros (xs' & Hxs). discriminate.
  - destruct (fold_greatest xs x) as (q & Hq & Hin & Hle). rewrite Hq.
    split; [split; discriminate|]. split.
    + split; [discriminate|]. intros (xs' & Hxs). discriminate.
    + intros q' Hq'. injection Hq' as <-. auto.
  - rewrite fold_greatest_nan.
    split; [split; discriminate|]. split.
    + split; [eauto|reflexivity].
    + discriminate.
Qed.

(** The median of integers: at least half of them are at most it, and at
    least half are at least it. *)
Lemma Z_ltb_strict_total : strict_total Z.ltb.
Proof.
  constructor.
  - intros a. apply Z.ltb_irrefl.
  - intros a b c Hab Hbc. apply Z.ltb_lt. apply Z.ltb_lt in Hab, Hbc. lia.
  - intros a b Hab Hba. apply Z.ltb_ge in Hab, Hba. lia.
Qed.

Lemma StronglySorted_middle {A : Type} (R : A -> A -> Prop) (l1 l2 : list A) (a : A) :
  StronglySorted R (l1 ++ a :: l2) ->
  List.Forall (fun x => R x a) l1 /\ List.Forall (R a) l2.
Proof.
  induction l1 as [|x l1 IH]; simpl; intros Hs.
  - split; [constructor|]. inversion Hs; assumption.
  - inversion Hs as [|? ? Hs' Hx]; subst. destruct (IH Hs') as [H1 H2].
    split; [|exact H2]. constructor; [|exact H1].
    rewrite List.Forall_forall in Hx. apply Hx, in_or_app. right. left. reflexivity.
Qed.

Lemma filter_length_perm {A : Type} (p : A -> bool) (l l' : list A) :
  Permutation l l' -> length (List.filter p l) = length (List.filter p l').
Proof.
  induction 1 as [|x l l' _ IH|x y l|l l' l'' _ IH1 _ IH2]; simpl.
  - reflexivity.
  - destruct (p x); simpl; congruence.
  - destruct (p x), (p y); reflexivity.
  - congruence.
Qed.

Lemma filter_length_all {A : Type} (p : A -> bool) (l : list A) :
  List.Forall (fun x => p x = true) l -> length (List.filter p l) = length l.
Proof.
  induction 1 as [|x l Hx _ IH]; simpl; [reflexivity|]. rewrite Hx. simpl. congruence.
Qed.

Lemma count_around {A : Type} (p : A -> bool) (l1 l2 : list A) (a : A) :
  p a = true ->
  (List.Forall (fun x => p x = true) l1 ->
   length l1 + 1 <= length (List.filter p (l1 ++ a :: l2)))
  /\ (List.Forall (fun x => p x = true) l2 ->
      1 + length l2 <= length (List.filter p (l1 ++ a :: l2))).
Proof.
  intros Ha. rewrite List.filter_app, length_app. simpl. rewrite Ha. simpl. split; intros Hl.
  - rewrite (filter_length_all p l1 Hl). lia.
  - rewrite (filter_length_all p l2 Hl). lia.
Qed.

Lemma half_between (a b : Z) :
  (a <= b)%Z ->
  (inject_Z a <= inject_Z (a + b) / 2)%Q /\ (inject_Z (a + b) / 2 <= inject_Z b)%Q.
Proof. intros Hab. unfold Qle, Qdiv, Qmult, Qinv, inject_Z. simpl. lia. Qed.

Lemma median_sorted (s : list Z) :
  StronglySorted (fun a b => (b <? a)%Z = false) s -> s <> [] ->
  exists m : Q,
    match length s with
    | O => None
    | _ =>
        if Nat.odd (length s) then inject_Z <$> s !! (length s / 2)
        else
          a ← s !! (length s / 2 - 1);
          b ← s !! (length s / 2);
          Some (inject_Z (wrap64 (a + b)) / 2)%Q
    end = Some m
    /\ (List.Forall (fun x => - 2 ^ 62 <= x < 2 ^ 62)%Z s ->
        length s <= 2 * length (List.filter (fun x => Qle_bool (inject_Z x) m) s)
        /\ length s <= 2 * length (List.filter (fun x => Qle_bool m (inject_Z x)) s))
    /\ (forall x, s = [x] -> m = inject_Z x).
Proof.
  intros Hsorted Hne.
  assert (Hpos : 1 <= length s) by (destruct s; [congruence|simpl; lia]).
  remember (length s) as n eqn:Hns. set (i := n / 2).
  assert (Hi : i < n) by (apply Nat.div_lt; lia).
  assert (Hn : n = 2 * i + (if Nat.odd n then 1 else 0)).
  { pose proof (Nat.div_mod_eq n 2) as Hdm. fold i in Hdm.
    rewrite <- Nat.bit0_mod in Hdm. rewrite Nat.bit0_odd in Hdm.
    destruct (Nat.odd n); simpl in Hdm; lia. }
  destruct (lookup_lt_is_Some_2 s i) as [b Hb]; [lia|].
  destruct (list_elem_of_split_length s i b Hb) as (l1 & l2 & Hs & Hl1).
  assert (Hlen : n = length l1 + 1 + length l2)
    by (rewrite Hns, Hs, length_app; simpl; lia).
  pose proof Hsorted as Hmid. rewrite Hs in Hmid.
  apply StronglySorted_middle in Hmid as [Hbelow Habove].
  assert (HleQ : forall x y : Z, (x <= y)%Z -> Qle_bool (inject_Z x) (inject_Z y) = true)
    by (intros x y Hxy; apply Qle_bool_iff; rewrite <- Zle_Qle; exact Hxy).
  destruct n as [|n']; [lia|]. fold i. destruct (Nat.odd (S n')) eqn:Hodd.
  - exists (inject_Z b). rewrite Hb. split; [reflexivity|].
    destruct (count_around (fun x => Qle_bool (inject_Z x) (inject_Z b)) l1 l2 b
                (HleQ b b (Z.le_refl b))) as [Hc _].
    destruct (count_around (fun x => Qle_bool (inject_Z b) (inject_Z x)) l1 l2 b
                (HleQ b b (Z.le_refl b))) as [_ Hc'].
    rewrite <- Hs in Hc, Hc'. split; [intros _; split|].
    + assert (length l1 + 1 <= length (List.filter (fun x => Qle_bool (inject_Z x) (inject_Z b)) s)).
      { apply Hc. eapply List.Forall_impl; [|exact Hbelow].
        intros x Hx. apply HleQ. apply Z.ltb_ge in Hx. exact Hx. }
      lia.
    + assert (1 + length l2 <= length (List.filter (fun x => Qle_bool (inject_Z b) (inject_Z x)) s)).
      { apply Hc'. eapply List.Forall_impl; [|exact Habove].
        intros x Hx. apply HleQ. apply Z.ltb_ge in Hx. exact Hx. }
      lia.
    + intros x Hx. rewrite Hx in Hs.
      destruct l1 as [|y l1]; simpl in Hs; [congruence|].
      destruct l1; discriminate.
  - assert (Hi1 : i - 1 < length l1) by lia.
    destruct (lookup_lt_is_Some_2 s (i - 1)) as [a Ha]; [lia|].
    destruct (list_elem_of_split_length s (i - 1) a Ha) as (k1 & k2 & Hs' & Hk1).
    pose proof Hsorted as Hmid'. rewrite Hs' in Hmid'.
    apply StronglySorted_middle in Hmid' as [Hbelow' _].
    assert (Hab : (a <= b)%Z).
    { rewrite Hs, lookup_app_l in Ha by exact Hi1.
      apply list_elem_of_lookup_2, list_elem_of_In in Ha.
      rewrite List.Forall_forall in Hbelow. apply Z.ltb_ge, Hbelow, Ha. }
    exists (inject_Z (wrap64 (a + b)) / 2)%Q. rewrite Ha. simpl. rewrite Hb. simpl.
    split; [reflexivity|]. split;
      [|intros x Hx; rewrite Hx in Hns; simpl in Hns; injection Hns as Hn'; subst n';
        discriminate].
    intros Hbound. rewrite List.Forall_forall in Hbound.
    assert (Hina : In a s) by (apply list_elem_of_In, (list_elem_of_lookup_2 _ _ _ Ha)).
    assert (Hinb : In b s) by (apply list_elem_of_In, (list_elem_of_lookup_2 _ _ _ Hb)).
    pose proof (Hbound a Hina) as Hra. pose proof (Hbound b Hinb) as Hrb.
    rewrite wrap64_small by lia.
    destruct (half_between a b Hab) as [Hlo Hhi].
    assert (Hpa : Qle_bool (inject_Z a) (inject_Z (a + b) / 2) = true)
      by (apply Qle_bool_iff, Hlo).
    assert (Hpb : Qle_bool (inject_Z (a + b) / 2) (inject_Z b) = true)
      by (apply Qle_bool_iff, Hhi).
    destruct (count_around (fun x => Qle_bool (inject_Z x) (inject_Z (a + b) / 2)) k1 k2 a Hpa)
      as [Hc _].
    destruct (count_around (fun x => Qle_bool (inject_Z (a + b) / 2) (inject_Z x)) l1 l2 b Hpb)
      as [_ Hc'].
    rewrite <- Hs' in Hc. rewrite <- Hs in Hc'. split.
    + assert (length k1 + 1
              <= length (List.filter (fun x => Qle_bool (inject_Z x) (inject_Z (a + b) / 2)) s)).
      { apply Hc. eapply List.Forall_impl; [|exact Hbelow'].
        intros x Hx. apply Qle_bool_iff. apply Qle_trans with (inject_Z a); [|exact Hlo].
        rewrite <- Zle_Qle. apply Z.ltb_ge, Hx. }
      lia.
    + assert (1 + length l2
              <= length (List.filter (fun x => Qle_bool (inject_Z (a + b) / 2) (inject_Z x)) s)).
      { apply Hc'. eapply List.Forall_impl; [|exact Habove].
        intros x Hx. apply Qle_bool_iff. apply Qle_trans with (inject_Z b); [exact Hhi|].
        rewrite <- Zle_Qle. apply Z.ltb_ge, Hx. }
      lia.
Qed.

Lemma median_halves (data : list Z) :
  (median data = None <-> data = [])
  /\ forall m : Q,
       median data = Some m ->
       (List.Forall (fun x => - 2 ^ 62 <= x < 2 ^ 62)%Z data ->
        length data <= 2 * length (List.filter (fun x => Qle_bool (inject_Z x) m) data)
        /\ length data <= 2 * length (List.filter (fun x => Qle_bool m (inject_Z x)) data))
       /\ (forall x, data = [x] -> m = inject_Z x).
Proof.
  unfold median. cbv zeta.
  pose proof (sorted_perm Z.ltb data) as Hperm.
  pose proof (sorted_sorted Z.ltb Z_ltb_strict_total data) as Hsorted.
  pose proof (sorted_length Z.ltb data) as Hlen.
  destruct data as [|x data].
  - split; [split; reflexivity|]. simpl. discriminate.
  - assert (Hne : sorted Z.ltb (x :: data) <> []).
    { intros Hnil. rewrite Hnil in Hlen. discriminate. }
    destruct (median_sorted _ Hsorted Hne) as (m & Hm & Hhalves & Hone).
    split.
    + split; [|discriminate]. intros Hnone. rewrite Hm in Hnone. discriminate.
    + intros m' Hm'. rewrite Hm in Hm'. injection Hm' as <-. split.
      * intros Hbound.
        rewrite (filter_length_perm _ _ _ (Permutation_sym Hperm)).
        rewrite (filter_length_perm (fun x => Qle_bool m (inject_Z x)) _ _
                   (Permutation_sym Hperm)).
        rewrite <- Hlen. apply Hhalves.
        rewrite List.Forall_forall in *. intros y Hy. apply Hbound.
        apply (Permutation_in _ Hperm), Hy.
      * intros y Hy. apply Hone. injection Hy as -> ->. reflexivity.
Qed.

Lemma ranks_present_filter (p : Z -> bool) (rows : list entry) (present : list Z) :
  map rank rows = map Some present ->
  length (List.filter (fun e => match rank e with Some x => p x | None => false end) rows)
  = length (List.filter p present).
Proof.
  revert present. induction rows as [|e rows IH]; intros [|x present] Hmap;
    simpl in *; try discriminate; [reflexivity|].
  injection Hmap as Hx Hmap. rewrite Hx. specialize (IH present Hmap).
  destruct (p x); simpl; congruence.
Qed.

(** The columns computed from the payload that a non-empty sequence of
    rows leaves. *)
Lemma stats_of_collected (rows : list entry) :
  rows <> [] ->
  (stats_of (collected rows) = None <-> exists e, In e rows /\ rank e = None)
  /\ forall s : payload_stats,
       stats_of (collected rows) = Some s ->
       (exists e, In e rows /\ rank e = Some (stat_best_rank s))
       /\ (forall e x, In e rows -> rank e = Some x -> (stat_best_rank s <= x)%Z)
       /\ (exists e, In e rows /\ percentile e = stat_best_percentile s)
       /\ (forall e, In e rows -> (stat_best_percentile s <= percentile e)%Q)
       /\ ((forall e x, In e rows -> rank e = Some x -> (- 2 ^ 62 <= x < 2 ^ 62)%Z) ->
           length rows <= 2 * length (List.filter (rank_at_most (stat_median_rank s)) rows)
           /\ length rows
              <= 2 * length (List.filter (rank_at_least (stat_median_rank s)) rows))
       /\ (stat_max_points s = None <-> exists e rest, rows = e :: rest /\ points e = None)
       /\ forall q : Q,
            stat_max_points s = Some q ->
            (exists e, In e rows /\ points e = Some q)
            /\ forall e y, In e rows -> points e = Some y -> (y <= q)%Q.
Proof.
  intros Hne. unfold stats_of. simpl.
  destruct (mapM id (map rank rows)) as [present|] eqn:Hpresent.
  - apply mapM_id_Some in Hpresent. simpl.
    assert (Hlen : length present = length rows)
      by (rewrite <- (length_map Some present), <- Hpresent; apply length_map).
    assert (Hp : present <> []) by (intros ->; destruct rows; [congruence|discriminate]).
    destruct (builtin_min_ranks present) as [Hr0 Hr].
    destruct (builtin_min Z.ltb present) as [best|]; [|destruct Hp; apply Hr0; reflexivity].
    destruct (builtin_min_percentiles (map percentile rows)) as [Hq0 Hq].
    destruct (builtin_min Qltb (map percentile rows)) as [best_pct|];
      [|destruct rows; [congruence|discriminate (proj1 Hq0 eq_refl)]].
    destruct (median_halves present) as [Hm0 Hm].
    destruct (median present) as [middle|]; [|destruct Hp; apply Hm0; reflexivity].
    destruct (builtin_max_points (map points rows)) as (Ht0 & Htnan & Ht).
    destruct (builtin_max float_ltb (map points rows)) as [top|];
      [|destruct rows; [congruence|discriminate (proj1 Ht0 eq_refl)]].
    simpl. split.
    + split; [discriminate|]. intros (e & He & Hrank). exfalso.
      apply (in_map rank) in He. rewrite Hpresent, Hrank in He.
      apply in_map_iff in He as (x & Hx & _). discriminate.
    + intros s Hs. injection Hs as <-. simpl.
      destruct (Hr best eq_refl) as [Hbest_in Hbest_le].
      destruct (Hq best_pct eq_refl) as [Hpct_in Hpct_le].
      destruct (Hm middle eq_refl) as (Hhalves & _).
      split; [|split; [|split; [|split; [|split; [|split]]]]].
      * apply (in_map Some) in Hbest_in. rewrite <- Hpresent in Hbest_in.
        apply in_map_iff in Hbest_in as (e & He & Hin). eauto.
      * intros e x He Hx. apply Hbest_le.
        apply (in_map rank) in He. rewrite Hpresent, Hx in He.
        apply in_map_iff in He as (x' & Hx' & Hin). congruence.
      * apply in_map_iff in Hpct_in as (e & He & Hin). eauto.
      * intros e He. apply Hpct_le, in_map, He.
      * intros Hbound. unfold rank_at_most, rank_at_least.
        rewrite (ranks_present_filter (fun x => Qle_bool (inject_Z x) middle) rows present Hpresent).
        rewrite (ranks_present_filter (fun x => Qle_bool middle (inject_Z x)) rows present Hpresent).
        rewrite <- Hlen. apply Hhalves. apply List.Forall_forall. intros x Hx.
        apply (in_map Some) in Hx. rewrite <- Hpresent in Hx.
        apply in_map_iff in Hx as (e & He & Hin). exact (Hbound e x Hin He).
      * split.
        -- intros ->. destruct (proj1 Htnan eq_refl) as (xs' & Hxs).
           destruct rows as [|e rest]; [congruence|]. simpl in Hxs.
           injection Hxs as Hpts _. eauto.
        -- intros (e & rest & Hrows & Hpts).
           assert (Hsome : Some top = Some None).
           { apply Htnan. exists (map points rest). rewrite Hrows. simpl.
             rewrite Hpts. reflexivity. }
           congruence.
      * intros q ->. destruct (Ht q eq_refl) as [Hin Hle]. split.
        -- apply in_map_iff in Hin as (e & He & Hin). eauto.
        -- intros e y He Hy. apply Hle. rewrite <- Hy. apply in_map, He.
  - apply mapM_None_inv in Hpresent as (x & Hx & Hnone). simpl in Hnone. subst x.
    apply in_map_iff in Hx as (e & He & Hin).
    split; [|discriminate]. split; [|reflexivity]. intros _. eauto.
Qed.

Lemma combo_payload (entries : list entry) (size : nat) (c : list str) (payload : bucket) :
  In (c, payload) (combo_dict entries size) ->
  payload = collected (List.filter (fielded c) entries)
  /\ List.filter (fielded c) entries <> [].
Proof.
  intros Hin. rewrite combo_dict_dictionary in Hin.
  destruct (dictionary_spec (row_combos size) entries (row_combos_NoDup size))
    as (Hnd & Hkeys & Hpay).
  assert (Hc : In c (map fst (dictionary (row_combos size) entries)))
    by (apply in_map_iff; exists (c, payload); auto).
  apply Hkeys in Hc as (e & He & Hc).
  pose proof Hc as Hc'. apply row_combos_spec in Hc' as (Hlen & Hasc & Hf).
  rewrite <- (payload_at_In c payload _ Hnd Hin), Hpay.
  rewrite row_combos_filter by assumption. split; [reflexivity|].
  assert (Hin' : In e (List.filter (fielded c) entries)) by (apply filter_In; auto).
  destruct (List.filter (fielded c) entries); [destruct Hin'|discriminate].
Qed.



(** ** Frames: records with their columns, sorted *)

Lemma lex_strict_total {A B : Type} `{EqDecision A} (lta : A -> A -> bool)
    (ltb : B -> B -> bool) :
  strict_total lta -> strict_total ltb -> strict_total (lex_ltb lta ltb).
Proof.
  intros [Ha_irr Ha_tr Ha_tot] [Hb_irr Hb_tr Hb_tot]. constructor; unfold lex_ltb.
  - intros [a b]; simpl. rewrite Ha_irr, Hb_irr, andb_false_r. reflexivity.
  - intros [a1 a2] [b1 b2] [c1 c2]; simpl. intros H1 H2.
    apply orb_prop in H1 as [H1|H1]; apply orb_prop in H2 as [H2|H2].
    + rewrite (Ha_tr _ _ _ H1 H2). reflexivity.
    + apply andb_prop in H2 as [E _]. apply bool_decide_eq_true in E. subst.
      rewrite H1. reflexivity.
    + apply andb_prop in H1 as [E _]. apply bool_decide_eq_true in E. subst.
      rewrite H2. reflexivity.
    + apply andb_prop in H1 as [E1 L1]. apply andb_prop in H2 as [E2 L2].
      apply bool_decide_eq_true in E1, E2. subst.
      rewrite (Hb_tr _ _ _ L1 L2), bool_decide_eq_true_2 by reflexivity.
      apply orb_true_r.
  - intros [a1 a2] [b1 b2]; simpl. intros H1 H2.
    apply orb_false_elim in H1 as [H1 H1'], H2 as [H2 H2'].
    assert (a1 = b1) by (apply Ha_tot; assumption). subst.
    rewrite bool_decide_eq_true_2 in H1', H2' by reflexivity. simpl in *.
    f_equal. apply Hb_tot; assumption.
Qed.

Lemma nat_ltb_strict_total : strict_total Nat.ltb.
Proof.
  constructor.
  - intros a. apply Nat.ltb_irrefl.
  - intros a b c Hab Hbc. apply Nat.ltb_lt. apply Nat.ltb_lt in Hab, Hbc. lia.
  - intros a b Hab Hba. apply Nat.ltb_ge in Hab, Hba. lia.
Qed.

Section SortedByKey.
Context {A B : Type} (ltb : A -> A -> bool) (f : A -> B) (ltB : B -> B -> bool).
Hypothesis ltb_key : forall a b, ltb a b = ltB (f a) (f b).

Lemma insert_before_map (x : A) (l : list A) :
  map f (insert_before ltb x l) = insert_before ltB (f x) (map f l).
Proof.
  induction l as [|y l IH]; simpl; [reflexivity|].
  rewrite ltb_key. destruct (ltB (f y) (f x)); simpl; [rewrite IH|]; reflexivity.
Qed.

Lemma sorted_map (l : list A) : map f (sorted ltb l) = sorted ltB (map f l).
Proof.
  induction l as [|x l IH]; simpl; [reflexivity|].
  rewrite insert_before_map, IH. reflexivity.
Qed.

(** A stable sort by a key: no row comes after a row of a greater key. *)
Lemma sorted_by_key (Hord : strict_total ltB) (l : list A) :
  StronglySorted (fun a b => ltb b a = false) (sorted ltb l).
Proof.
  apply StronglySorted_weaken with (R := fun a b => ltB (f b) (f a) = false).
  - intros a b Hab. rewrite ltb_key. exact Hab.
  - apply (StronglySorted_unmap f (fun a b => ltB b a = false)).
    rewrite sorted_map. apply sorted_sorted, Hord.
Qed.

End SortedByKey.

Section Rows.
Context {A B : Type} (f : A -> option (list B)).

Lemma rows_None (l : list A) :
  @List.concat _ <$> mapM f l = None <-> exists x, In x l /\ f x = None.
Proof.
  rewrite <- mapM_None_inv. destruct (mapM f l); simpl; split; congruence.
Qed.

Lemma rows_Some (l : list A) (rows : list B) :
  @List.concat _ <$> mapM f l = Some rows ->
  exists parts : list (list B),
    List.Forall2 (fun x part => f x = Some part) l parts /\ rows = List.concat parts.
Proof.
  destruct (mapM f l) as [parts|] eqn:Hl; simpl; [|discriminate].
  intros Hrows. injection Hrows as <-. exists parts.
  split; [apply mapM_Some_inv, Hl|reflexivity].
Qed.

Lemma rows_In (l : list A) (rows : list B) (r : B) :
  @List.concat _ <$> mapM f l = Some rows ->
  In r rows <-> exists x part, In x l /\ f x = Some part /\ In r part.
Proof.
  intros Hrows. apply rows_Some in Hrows as (parts & Hparts & ->).
  induction Hparts as [|x part l parts Hx _ IH]; simpl.
  - split; [intros []|intros (x & part & [] & _)].
  - rewrite in_app_iff, IH. split.
    + intros [Hr|(x' & part' & Hx' & Hf & Hr)].
      * exists x, part. auto.
      * exists x', part'. auto.
    + intros (x' & part' & [<-|Hx'] & Hf & Hr).
      * left. congruence.
      * right. eauto.
Qed.

End Rows.

Lemma combo_rows_records (records : list (list str * bucket)) (size : nat)
    (rows : list (combo_record * payload_stats)) :
  @List.concat _ <$> mapM (combo_record_of size) records = Some rows ->
  map fst rows = _combo_dict_to_records records size.
Proof.
  intros Hrows. apply rows_Some in Hrows as (parts & Hparts & ->).
  unfold _combo_dict_to_records.
  induction Hparts as [|[c payload] part l parts Hx _ IH]; simpl; [reflexivity|].
  rewrite map_app, IH. f_equal.
  unfold combo_record_of in Hx. destruct (entry_ids payload) as [|i ids].
  - injection Hx as <-. reflexivity.
  - destruct (stats_of payload) as [s|]; simpl in Hx; [|discriminate].
    injection Hx as <-. reflexivity.
Qed.

Lemma combo_record_of_made (size : nat) (c : list str) (payload : bucket)
    (part : list (combo_record * payload_stats)) (r : combo_record) (s : payload_stats) :
  combo_record_of size (c, payload) = Some part -> In (r, s) part ->
  players r = c /\ stats_of payload = Some s.
Proof.
  unfold combo_record_of. destruct (entry_ids payload) as [|i ids].
  - intros Hpart. injection Hpart as <-. intros [].
  - destruct (stats_of payload) as [s'|]; simpl; [|discriminate].
    intros Hpart. injection Hpart as <-. intros [Heq|[]].
    injection Heq as <- <-. auto.
Qed.

Lemma binom_positive (n k : nat) : k <= n -> 1 <= binom n k.
Proof.
  revert k. induction n as [|n IH]; intros [|k] Hk; simpl; try lia.
  specialize (IH k). lia.
Qed.

Lemma binom_zero (n k : nat) : n < k -> binom n k = 0.
Proof.
  revert k. induction n as [|n IH]; intros [|k] Hk; simpl; try lia.
  rewrite (IH k), (IH (S k)) by lia. reflexivity.
Qed.

(** A row sends some combination when it lists at least [size] distinct
    players. *)
Lemma row_combos_some (size : nat) (e : entry) :
  row_combos size e <> []
  <-> lineup_players e <> [] /\ size <= length (fromkeys (lineup_players e)).
Proof.
  unfold row_combos.
  pose proof (fromkeys_length (lineup_players e)) as Hu.
  destruct (lineup_players e) as [|p ps] eqn:Hp; [tauto|]. rewrite <- Hp in *.
  assert (Hlen : forall k, length (combinations (sorted str_ltb (fromkeys (lineup_players e))) k)
                           = binom (length (fromkeys (lineup_players e))) k)
    by (intros k; rewrite combinations_length, sorted_length; reflexivity).
  destruct (Nat.ltb_spec (length (lineup_players e)) size) as [Hlt|Hge].
  - split; [congruence|]. intros [_ Hsize]. lia.
  - split.
    + intros Hne. split; [congruence|].
      destruct (Nat.le_gt_cases size (length (fromkeys (lineup_players e)))) as [Hle|Hgt];
        [exact Hle|exfalso].
      apply Hne. apply length_zero_iff_nil. rewrite Hlen. apply binom_zero, Hgt.
    + intros [_ Hsize] Hnil.
      pose proof (binom_positive _ _ Hsize) as Hpos.
      rewrite <- Hlen, Hnil in Hpos. simpl in Hpos. lia.
Qed.

Lemma combo_rows_spec (entries : list entry) (size : nat) :
  (combo_rows entries size = None
   <-> exists e, In e entries /\ rank e = None /\ row_combos size e <> [])
  /\ forall rows,
       combo_rows entries size = Some rows ->
       map fst rows = _combo_records entries size
       /\ forall r s, In (r, s) rows ->
            stats_of (collected (List.filter (fielded (players r)) entries)) = Some s.
Proof.
  unfold combo_rows. split.
  - rewrite rows_None. split.
    + intros ([c payload] & Hin & Hnone).
      destruct (combo_payload entries size c payload Hin) as [Hpay Hne].
      unfold combo_record_of in Hnone. rewrite Hpay in Hnone. simpl in Hnone.
      destruct (map entry_id _) eqn:Hids; [discriminate|].
      destruct (stats_of _) eqn:Hstats; [discriminate|].
      apply (stats_of_collected _ Hne) in Hstats as (e & He & Hrank).
      apply filter_In in He as [He Hf].
      exists e. split; [exact He|]. split; [exact Hrank|].
      rewrite combo_dict_dictionary in Hin.
      destruct (dictionary_spec (row_combos size) entries (row_combos_NoDup size))
        as (_ & Hkeys & _).
      assert (Hc : In c (map fst (dictionary (row_combos size) entries)))
        by (apply in_map_iff; exists (c, payload); auto).
      apply Hkeys in Hc as (e' & _ & Hc). apply row_combos_spec in Hc as (Hlen & Hasc & _).
      assert (Hce : In c (row_combos size e)) by (apply row_combos_spec; auto).
      intros Hnil. rewrite Hnil in Hce. destruct Hce.
    + intros (e & He & Hrank & Hsome).
      destruct (row_combos size e) as [|c cs] eqn:Hcs; [congruence|].
      assert (Hc : In c (row_combos size e)) by (rewrite Hcs; left; reflexivity).
      destruct (dictionary_spec (row_combos size) entries (row_combos_NoDup size))
        as (_ & Hkeys & _).
      assert (Hkey : In c (map fst (dictionary (row_combos size) entries)))
        by (apply Hkeys; eauto).
      rewrite <- combo_dict_dictionary in Hkey.
      apply in_map_iff in Hkey as ([c' payload] & Hc' & Hin). simpl in Hc'. subst c'.
      exists (c, payload). split; [exact Hin|].
      destruct (combo_payload entries size c payload Hin) as [Hpay Hne].
      assert (Hf : In e (List.filter (fielded c) entries))
        by (apply filter_In; split; [exact He|]; apply row_combos_spec in Hc; tauto).
      assert (Hstats : stats_of payload = None).
      { rewrite Hpay. apply (stats_of_collected _ Hne). eauto. }
      unfold combo_record_of. rewrite Hstats.
      rewrite Hpay. simpl. destruct (List.filter (fielded c) entries); [destruct Hf|reflexivity].
  - intros rows Hrows. split; [apply combo_rows_records, Hrows|].
    intros r s Hr.
    apply (rows_In _ _ _ _ Hrows) in Hr as ([c payload] & part & Hin & Hpart & Hr).
    destruct (combo_record_of_made _ _ _ _ _ _ Hpart Hr) as [-> Hstats].
    destruct (combo_payload entries size _ payload Hin) as [Hpay _].
    rewrite <- Hpay. exact Hstats.
Qed.

(** X16.  [_combo_dict_to_records] raises exactly when an entry without
    rank lists at least [size] distinct players.  The records it returns
    otherwise are exactly the strictly increasing selections of [size]
    player names that some entry lists in full.  Each record has that
    size, names its players joined by " | ", and lists the ids of the
    entries that list all its players, in the order of the entries; its
    frequency is their number, which is at least one; and every one of
    these entries has a rank. *)
Theorem combo_records_exact (entries : list entry) (size : nat) :
  (combo_rows entries size = None
   <-> exists e : entry,
         In e entries /\ rank e = None
         /\ lineup_players e <> [] /\ size <= length (fromkeys (lineup_players e)))
  /\ forall rows : list (combo_record * payload_stats),
       combo_rows entries size = Some rows ->
       let out := map fst rows in
       (forall r : combo_record,
          In r out ->
          Aggregate.size r = size
          /\ length (players r) = size
          /\ ascending (players r)
          /\ combo r = join (lit " | ") (players r)
          /\ combo_entry_ids r = map entry_id (List.filter (fielded (players r)) entries)
          /\ frequency r = length (List.filter (fielded (players r)) entries)
          /\ 1 <= frequency r
          /\ count_in_current_percentile r = frequency r
          /\ forall e : entry,
               In e entries -> fielded (players r) e = true -> rank e <> None)
       /\ (forall c : list str,
             length c = size -> ascending c ->
             (exists e : entry, In e entries /\ fielded c e = true) ->
             exists r : combo_record, In r out /\ players r = c).
Proof.
  destruct (combo_rows_spec entries size) as [Hnone Hsome]. split.
  - rewrite Hnone. split; intros (e & He & Hrank & Hc); exists e;
      (split; [exact He|]); (split; [exact Hrank|]); apply row_combos_some; exact Hc.
  - intros rows Hrows out. destruct (Hsome rows Hrows) as [Hfst Hstats].
    destruct (combo_records_listed entries size) as [Hrecords Hfound].
    unfold out. rewrite Hfst. split; [|exact Hfound].
    intros r Hr.
    destruct (Hrecords r Hr)
      as (Hsize & Hlen & Hasc & Hcombo & Hids & Hfreq & Hone & Hcount).
    repeat (split; [assumption|]).
    intros e He Hf Hrank.
    rewrite <- Hfst in Hr. apply in_map_iff in Hr as ([r' s] & Hr' & Hin).
    simpl in Hr'. subst r'. pose proof (Hstats r s Hin) as Hs.
    assert (Hin' : In e (List.filter (fielded (players r)) entries))
      by (apply filter_In; auto).
    assert (Hne : List.filter (fielded (players r)) entries <> [])
      by (intros Hnil; rewrite Hnil in Hin'; destruct Hin').
    assert (Hfail : stats_of (collected (List.filter (fielded (players r)) entries)) = None)
      by (apply (stats_of_collected _ Hne); eauto).
    congruence.
Qed.

Lemma combo_records_exact_witness :
  let entries := [lineup_with 3 "ann" ["A"; "B"]%string;
                  lineup_with 1 "bob" ["B"; "A"; "C"]%string] in
  exists rows : list (combo_record * payload_stats),
    combo_rows entries 2 = Some rows
    /\ map (fun r => (combo r, frequency r)) (map fst rows)
       = [(lit "A | B", 2); (lit "A | C", 1); (lit "B | C", 1)]
    /\ forall r : combo_record,
         In r (map fst rows) ->
         length (players r) = 2
         /\ combo_entry_ids r = map entry_id (List.filter (fielded (players r)) entries)
         /\ 1 <= frequency r.
Proof.
  cbv zeta.
  destruct (combo_rows [lineup_with 3 "ann" ["A"; "B"]%string;
                        lineup_with 1 "bob" ["B"; "A"; "C"]%string] 2)
    as [rows|] eqn:Hrows; [|vm_compute in Hrows; discriminate].
  exists rows. split; [reflexivity|]. split.
  - pose proof Hrows as Hvalue. vm_compute in Hvalue. injection Hvalue as <-.
    vm_compute. reflexivity.
  - intros r Hr.
    destruct (combo_records_exact
                [lineup_with 3 "ann" ["A"; "B"]%string;
                 lineup_with 1 "bob" ["B"; "A"; "C"]%string] 2) as [_ Hsome].
    destruct (Hsome rows Hrows) as [Hrecords _].
    destruct (Hrecords r Hr) as (_ & Hlen & _ & _ & Hids & _ & Hone & _).
    auto.
Defined.

Lemma StronglySorted_weaken_In {A : Type} (R R' : A -> A -> Prop) (l : list A) :
  (forall a b, In a l -> In b l -> R a b -> R' a b) ->
  StronglySorted R l -> StronglySorted R' l.
Proof.
  intros HR Hs. induction Hs as [|x l Hl IH Hx]; constructor.
  - apply IH. intros a b Ha Hb. apply HR; right; assumption.
  - rewrite List.Forall_forall in Hx |- *. intros y Hy.
    apply HR; [left; reflexivity|right; exact Hy|apply Hx, Hy].
Qed.

Lemma combo_before_key (a b : combo_record * payload_stats) :
  combo_before a b
  = lex_ltb Nat.ltb (lex_ltb Z.ltb Z.ltb)
      (Aggregate.size (fst a), ((- Z.of_nat (frequency (fst a)))%Z, stat_best_rank (snd a)))
      (Aggregate.size (fst b), ((- Z.of_nat (frequency (fst b)))%Z, stat_best_rank (snd b))).
Proof.
  unfold combo_before, lex_ltb. simpl. f_equal.
  destruct (Nat.eqb_spec (Aggregate.size (fst a)) (Aggregate.size (fst b))) as [Hs|Hs];
    [rewrite bool_decide_eq_true_2 by exact Hs|rewrite bool_decide_eq_false_2 by exact Hs];
    simpl; [|reflexivity].
  f_equal.
  - destruct (Nat.ltb_spec (frequency (fst b)) (frequency (fst a))),
             (Z.ltb_spec (- Z.of_nat (frequency (fst a))) (- Z.of_nat (frequency (fst b))));
      try reflexivity; lia.
  - destruct (Nat.eqb_spec (frequency (fst a)) (frequency (fst b))) as [Hf|Hf].
    + rewrite bool_decide_eq_true_2 by (rewrite Hf; reflexivity). reflexivity.
    + rewrite bool_decide_eq_false_2 by lia. reflexivity.
Qed.

Lemma combo_frame_sorted (size : nat) (rows : list (combo_record * payload_stats)) :
  (forall r, In r rows -> Aggregate.size (fst r) = size) ->
  StronglySorted combo_order (sorted combo_before rows).
Proof.
  intros Hsize.
  apply StronglySorted_weaken_In with (R := fun a b => combo_before b a = false).
  - intros a b Ha Hb Hab. apply sorted_In, Hsize in Ha. apply sorted_In, Hsize in Hb.
    unfold combo_before in Hab. rewrite Ha, Hb, Nat.ltb_irrefl, Nat.eqb_refl in Hab.
    simpl in Hab. apply orb_false_elim in Hab as [Hf Hr]. apply Nat.ltb_ge in Hf.
    split; [exact Hf|]. intros Heq. rewrite Heq, Nat.eqb_refl in Hr. simpl in Hr.
    apply Z.ltb_ge in Hr. exact Hr.
  - apply (sorted_by_key combo_before _ _ combo_before_key).
    apply lex_strict_total; [apply nat_ltb_strict_total|].
    apply lex_strict_total; apply Z_ltb_strict_total.
Qed.

Lemma Forall2_map_fst {A B C : Type} (f : A -> option (C * B)) (g : A -> C)
    (l : list A) (l' : list (C * B)) :
  (forall x y, f x = Some y -> fst y = g x) ->
  List.Forall2 (fun x y => f x = Some y) l l' -> map fst l' = map g l.
Proof.
  intros Hfg. induction 1 as [|x y l l' Hxy _ IH]; simpl; [reflexivity|].
  rewrite IH, (Hfg x y Hxy). reflexivity.
Qed.

(** X18.  [compute_name_combos] gives one frame for every size from
    [min_size] to [max_size], in this order, and fails exactly when an
    entry without rank lists at least as many distinct players as one of
    these sizes.  The frame of a size holds the records of
    [_combo_records], each with the columns computed from the entries that
    list all its players, in the order of [sort_values]: frequencies do not
    increase, and among equal frequencies best ranks do not decrease. *)
Theorem compute_name_combos_frames (entries : list entry) (config : ComboConfig) :
  (compute_name_combos entries config = None
   <-> exists (size : nat) (e : entry),
         min_size config <= size <= max_size config
         /\ In e entries /\ rank e = None
         /\ lineup_players e <> [] /\ size <= length (fromkeys (lineup_players e)))
  /\ forall frames : list (nat * list (combo_record * payload_stats)),
       compute_name_combos entries config = Some frames ->
       map fst frames = seq (min_size config) (max_size config + 1 - min_size config)
       /\ forall size frame,
            In (size, frame) frames ->
            Permutation (map fst frame) (_combo_records entries size)
            /\ StronglySorted combo_order frame
            /\ forall r s,
                 In (r, s) frame ->
                 stats_of (collected (List.filter (fielded (players r)) entries)) = Some s.
Proof.
  unfold compute_name_combos. split.
  - rewrite mapM_None_inv. split.
    + intros (size & Hsize & Hnone). apply in_seq in Hsize.
      destruct (combo_rows entries size) as [rows|] eqn:Hrows; [discriminate|].
      apply (combo_rows_spec entries size) in Hrows as (e & He & Hrank & Hsome).
      apply row_combos_some in Hsome as [Hne Hu].
      exists size, e. repeat split; try assumption; lia.
    + intros (size & e & Hsize & He & Hrank & Hne & Hu).
      exists size. split; [apply in_seq; lia|].
      assert (Hnone : combo_rows entries size = None).
      { apply (combo_rows_spec entries size). exists e.
        split; [exact He|]. split; [exact Hrank|]. apply row_combos_some. auto. }
      rewrite Hnone. reflexivity.
  - intros frames Hframes. apply mapM_Some_inv in Hframes. split.
    + rewrite <- (map_id (seq _ _)).
      apply (Forall2_map_fst _ (fun size => size) _ _) in Hframes; [exact Hframes|].
      intros size y Hy. simpl in Hy.
      destruct (combo_rows entries size); [|discriminate].
      simpl in Hy. injection Hy as <-. reflexivity.
    + intros size frame Hin.
      destruct (Forall2_In_right _ _ _ Hframes _ Hin) as (size' & _ & Hf).
      destruct (combo_rows entries size') as [rows|] eqn:Hrows; [|discriminate].
      simpl in Hf. injection Hf as -> <-.
      destruct (proj2 (combo_rows_spec entries size) rows Hrows) as [Hfst Hstats].
      split; [|split].
      * rewrite <- Hfst. apply Permutation_map, sorted_perm.
      * apply (combo_frame_sorted size). intros r Hr.
        apply (in_map fst) in Hr. rewrite Hfst in Hr.
        destruct (combo_dict_spec entries size) as [Hkeys _].
        apply (combo_records_In _ _ _ Hkeys Hr).
      * intros r s Hr. apply Hstats. apply sorted_In in Hr. exact Hr.
Qed.

(** ** The stack tables *)

Lemma omap_In {A B : Type} (f : A -> option B) (l : list A) (y : B) :
  In y (omap f l) <-> exists x, In x l /\ f x = Some y.
Proof.
  induction l as [|a l IH].
  - simpl. split; [intros []|intros (x & [] & _)].
  - change (omap f (a :: l)) with (match f a with Some b => b :: omap f l | None => omap f l end).
    destruct (f a) as [b|] eqn:Hfa; simpl; rewrite IH.
    + split.
      * intros [<-|(x & Hx & Hfx)]; [exists a; auto|exists x; auto].
      * intros (x & [<-|Hx] & Hfx); [left; congruence|right; eauto].
    + split.
      * intros (x & Hx & Hfx). exists x. auto.
      * intros (x & [<-|Hx] & Hfx); [congruence|eauto].
Qed.

Lemma NoDup_flat_map {A B : Type} (f : A -> list B) (l : list A) :
  List.NoDup l ->
  (forall x, In x l -> List.NoDup (f x)) ->
  (forall x y b, In x l -> In y l -> In b (f x) -> In b (f y) -> x = y) ->
  List.NoDup (flat_map f l).
Proof.
  induction 1 as [|a l Ha Hl IH]; intros Hf Hdisj; simpl; [constructor|].
  apply List.NoDup_app.
  - apply Hf. left. reflexivity.
  - apply IH.
    + intros x Hx. apply Hf. right. exact Hx.
    + intros x y b Hx Hy. apply Hdisj; right; assumption.
  - intros b Hb Hb'. apply in_flat_map in Hb' as (x & Hx & Hbx).
    apply Ha.
    rewrite (Hdisj a x b (or_introl eq_refl) (or_intror Hx) Hb Hbx). exact Hx.
Qed.

Lemma NoDup_map_pair {A B : Type} (a : A) (l : list B) :
  List.NoDup l -> List.NoDup (map (pair a) l).
Proof.
  induction 1 as [|b l Hb _ IH]; simpl; constructor; [|exact IH].
  intros Hin. apply in_map_iff in Hin as (b' & Heq & Hin).
  injection Heq as ->. exact (Hb Hin).
Qed.

Section StackFacts.
Variable key : stack_row -> option str.
Variable lowest stack_max : nat.

Let players_of (group : list stack_row) (team : str) : list str :=
  sorted str_ltb
    (fromkeys (map s_player (List.filter (fun x => bool_decide (key x = Some team)) group))).

Lemma players_of_In (group : list stack_row) (team p : str) :
  In p (players_of group team)
  <-> exists x, In x group /\ key x = Some team /\ s_player x = p.
Proof.
  unfold players_of. rewrite sorted_In, fromkeys_In, in_map_iff. split.
  - intros (x & Hp & Hx). apply filter_In in Hx as [Hx Hk].
    apply bool_decide_eq_true in Hk. eauto.
  - intros (x & Hx & Hk & Hp). exists x. split; [exact Hp|].
    apply filter_In. split; [exact Hx|apply bool_decide_eq_true, Hk].
Qed.

Lemma players_of_ascending (group : list stack_row) (team : str) :
  ascending (players_of group team).
Proof. apply sorted_strictly; [apply str_ltb_strict_total|apply fromkeys_NoDup]. Qed.

Lemma group_stacks_In (group : list stack_row) (t : str) (c : list str) :
  In (t, c) (group_stacks key lowest stack_max group)
  <-> (exists x, In x group /\ key x = Some t)
      /\ lowest <= length c <= stack_max
      /\ ascending c
      /\ forall p, In p c -> exists x, In x group /\ key x = Some t /\ s_player x = p.
Proof.
  unfold group_stacks. rewrite in_flat_map. fold players_of. split.
  - intros (team & Hteam & Hc). cbv zeta in Hc. fold (players_of group team) in Hc.
    apply in_flat_map in Hc as (size & Hsize & Hc).
    apply in_map_iff in Hc as (c' & Heq & Hc). injection Heq as -> ->.
    apply sorted_In, fromkeys_In, omap_In in Hteam.
    apply in_seq in Hsize.
    pose proof (combinations_size _ _ _ Hc) as Hlen.
    split; [exact Hteam|]. split; [lia|]. split.
    + eapply combinations_sorted; [apply players_of_ascending|exact Hc].
    + intros p Hp. apply players_of_In. exact (combinations_incl _ _ _ Hc p Hp).
  - intros (Hteam & Hsize & Hasc & Hincl). exists t. split.
    + apply sorted_In, fromkeys_In, omap_In. exact Hteam.
    + cbv zeta. fold (players_of group t). apply in_flat_map. exists (length c).
      assert (Hsub : incl c (players_of group t))
        by (intros p Hp; apply players_of_In, Hincl, Hp).
      pose proof (List.NoDup_incl_length (ascending_NoDup c Hasc) Hsub) as Hle.
      split; [apply in_seq; lia|].
      apply in_map. apply combinations_complete; [apply players_of_ascending|exact Hasc|exact Hsub].
Qed.

Lemma group_stacks_NoDup (group : list stack_row) :
  List.NoDup (group_stacks key lowest stack_max group).
Proof.
  unfold group_stacks. apply NoDup_flat_map.
  - apply sorted_NoDup, fromkeys_NoDup.
  - intros team _. cbv zeta. apply NoDup_flat_map.
    + apply seq_NoDup.
    + intros size _. apply NoDup_map_pair, combinations_NoDup.
      apply sorted_NoDup, fromkeys_NoDup.
    + intros size size' [t c] _ _ Hc Hc'.
      apply in_map_iff in Hc as (c1 & Heq & Hc). injection Heq as _ ->.
      apply in_map_iff in Hc' as (c2 & Heq & Hc'). injection Heq as _ ->.
      apply combinations_size in Hc, Hc'. congruence.
  - intros team team' [t c] _ _ Hc Hc'. cbv zeta in Hc, Hc'.
    apply in_flat_map in Hc as (size & _ & Hc).
    apply in_flat_map in Hc' as (size' & _ & Hc').
    apply in_map_iff in Hc as (c1 & Heq & _). injection Heq as -> _.
    apply in_map_iff in Hc' as (c2 & Heq & _). injection Heq as -> _.
    reflexivity.
Qed.

Lemma stack_keys_NoDup (exploded : list stack_row) (e : entry) :
  List.NoDup (stack_keys key lowest stack_max exploded e).
Proof.
  unfold stack_keys. destruct (entry_id e) as [id|]; [|constructor].
  destruct (List.filter _ exploded) as [|x group]; [constructor|].
  apply group_stacks_NoDup.
Qed.

(** The keys an entry sends: the strictly increasing selections, of a size
    within the bounds, of players that have the same key in the exploded
    rows of the entry. *)
Lemma stack_keys_spec (exploded : list stack_row) (e : entry) (t : str) (c : list str) :
  In (t, c) (stack_keys key lowest stack_max exploded e)
  <-> lowest <= length c <= stack_max /\ ascending c
      /\ stacked key exploded t c e = true.
Proof.
  unfold stack_keys, stacked. destruct (entry_id e) as [id|]; [|simpl; intuition discriminate].
  cbv zeta.
  set (group := List.filter (fun x => bool_decide (s_entry_id x = Some id)) exploded).
  assert (Hkeyed : forall x, In x (List.filter (fun x => bool_decide (key x = Some t)) group)
                             <-> In x group /\ key x = Some t)
    by (intros x; rewrite filter_In, bool_decide_eq_true; reflexivity).
  assert (Hstacked :
            match List.filter (fun x => bool_decide (key x = Some t)) group with
            | [] => false
            | _ :: _ =>
                forallb (fun p => existsb (fun x => bool_decide (s_player x = p))
                                          (List.filter (fun x => bool_decide (key x = Some t)) group))
                        c
            end = true
            <-> (exists x, In x group /\ key x = Some t)
                /\ forall p, In p c -> exists x, In x group /\ key x = Some t /\ s_player x = p).
  { destruct (List.filter (fun x => bool_decide (key x = Some t)) group) as [|x0 keyed] eqn:Hk.
    - split; [discriminate|]. intros [(x & Hx) _]. apply Hkeyed in Hx. destruct Hx.
    - rewrite forallb_forall. split.
      + intros Hall. split; [exists x0; apply Hkeyed; left; reflexivity|].
        intros p Hp. apply Hall, existsb_exists in Hp as (x & Hx & Hpx).
        apply bool_decide_eq_true in Hpx. apply Hkeyed in Hx as [Hx Hkx]. eauto.
      + intros [_ Hall] p Hp. destruct (Hall p Hp) as (x & Hx & Hkx & Hpx).
        apply existsb_exists. exists x. split; [apply Hkeyed; auto|].
        apply bool_decide_eq_true, Hpx. }
  rewrite Hstacked.
  destruct group as [|x0 group'] eqn:Hgroup.
  - split; [intros []|]. intros (_ & _ & (x & [] & _) & _).
  - rewrite <- Hgroup. rewrite group_stacks_In. tauto.
Qed.

End StackFacts.

Section StackTable.
Variable key : stack_row -> option str.
Variable lowest stack_max : nat.
Variable entries : list entry.
Variable exploded : list stack_row.

Lemma stack_dict_dictionary :
  stack_dict key lowest stack_max entries exploded
  = dictionary (stack_keys key lowest stack_max exploded) entries.
Proof. reflexivity. Qed.

Lemma stack_keys_filter (t : str) (c : list str) :
  lowest <= length c <= stack_max -> ascending c ->
  List.filter (fun e => existsb (fun k => bool_decide (k = (t, c)))
                                (stack_keys key lowest stack_max exploded e)) entries
  = List.filter (stacked key exploded t c) entries.
Proof.
  intros Hlen Hasc. apply filter_ext. intros e. apply eq_true_iff_eq.
  rewrite existsb_eq_In, stack_keys_spec. tauto.
Qed.

Lemma stack_payload (t : str) (c : list str) (payload : bucket) :
  In (t, c, payload) (stack_dict key lowest stack_max entries exploded) ->
  payload = collected (List.filter (stacked key exploded t c) entries)
  /\ List.filter (stacked key exploded t c) entries <> []
  /\ lowest <= length c <= stack_max
  /\ ascending c.
Proof.
  intros Hin. rewrite stack_dict_dictionary in Hin.
  destruct (dictionary_spec (stack_keys key lowest stack_max exploded) entries
              (stack_keys_NoDup key lowest stack_max exploded))
    as (Hnd & Hkeys & Hpay).
  assert (Hc : In (t, c) (map fst (dictionary (stack_keys key lowest stack_max exploded) entries)))
    by (apply in_map_iff; exists (t, c, payload); auto).
  apply Hkeys in Hc as (e & He & Hc).
  apply stack_keys_spec in Hc as (Hlen & Hasc & Hst).
  rewrite <- (payload_at_In (t, c) payload _ Hnd Hin), Hpay.
  rewrite stack_keys_filter by assumption.
  split; [reflexivity|]. split; [|auto].
  assert (Hin' : In e (List.filter (stacked key exploded t c) entries))
    by (apply filter_In; auto).
  destruct (List.filter (stacked key exploded t c) entries); [destruct Hin'|discriminate].
Qed.

Lemma stack_key_present (t : str) (c : list str) (e : entry) :
  In e entries -> lowest <= length c <= stack_max -> ascending c ->
  stacked key exploded t c e = true ->
  exists payload, In (t, c, payload) (stack_dict key lowest stack_max entries exploded).
Proof.
  intros He Hlen Hasc Hst.
  destruct (dictionary_spec (stack_keys key lowest stack_max exploded) entries
              (stack_keys_NoDup key lowest stack_max exploded))
    as (_ & Hkeys & _).
  assert (Hkey : In (t, c) (map fst (dictionary (stack_keys key lowest stack_max exploded)
                                                entries))).
  { apply Hkeys. exists e. split; [exact He|]. apply stack_keys_spec. auto. }
  apply in_map_iff in Hkey as ([k payload] & Hk & Hin). simpl in Hk. subst k.
  exists payload. exact Hin.
Qed.

Lemma stack_record_of_made (t : str) (c : list str) (payload : bucket)
    (part : list stack_record) :
  In (t, c, payload) (stack_dict key lowest stack_max entries exploded) ->
  stack_record_of (t, c, payload) = Some part ->
  exists r, part = [r]
            /\ stack_id r = (t, c)
            /\ stack_combo r = join (lit " | ") c
            /\ stack_size r = length c
            /\ stack_entry_ids r = entry_ids payload
            /\ stack_frequency r = length (entry_ids payload)
            /\ stack_count_in_current_percentile r = length (entry_ids payload)
            /\ stats_of payload = Some (stack_stats r).
Proof.
  intros Hin. destruct (stack_payload t c payload Hin) as (Hpay & Hne & _).
  unfold stack_record_of.
  destruct (entry_ids payload) as [|i ids] eqn:Hids.
  - exfalso. rewrite Hpay in Hids. simpl in Hids.
    destruct (List.filter _ entries); [congruence|discriminate].
  - destruct (stats_of payload) as [[best pct mid top]|]; simpl; [|discriminate].
    intros Hpart. injection Hpart as <-. eexists. split; [reflexivity|].
    unfold stack_id, stack_stats. simpl. auto 10.
Qed.

Lemma stack_parts_ids (l : list (str * list str * bucket)) (parts : list (list stack_record)) :
  (forall item, In item l -> In item (stack_dict key lowest stack_max entries exploded)) ->
  List.Forall2 (fun x part => stack_record_of x = Some part) l parts ->
  map stack_id (List.concat parts) = map fst l.
Proof.
  intros Hl Hparts. induction Hparts as [|[[t c] payload] part l parts Hx _ IH];
    simpl; [reflexivity|].
  destruct (stack_record_of_made t c payload part (Hl _ (or_introl eq_refl)) Hx)
    as (r & -> & Hid & _).
  simpl. rewrite Hid, IH; [reflexivity|].
  intros item Hitem. apply Hl. right. exact Hitem.
Qed.

Lemma stack_rows_ids (rows : list stack_record) :
  stack_rows key lowest stack_max entries exploded = Some rows ->
  map stack_id rows = map fst (stack_dict key lowest stack_max entries exploded).
Proof.
  unfold stack_rows. intros Hrows. apply rows_Some in Hrows as (parts & Hparts & ->).
  apply stack_parts_ids; [auto|exact Hparts].
Qed.

Lemma stack_before_key (a b : stack_record) :
  stack_before a b
  = lex_ltb str_ltb (lex_ltb Z.ltb Z.ltb)
      (stack_key a, ((- Z.of_nat (stack_frequency a))%Z, stack_best_rank a))
      (stack_key b, ((- Z.of_nat (stack_frequency b))%Z, stack_best_rank b)).
Proof.
  unfold stack_before, lex_ltb. simpl. f_equal. f_equal. f_equal.
  - destruct (Nat.ltb_spec (stack_frequency b) (stack_frequency a)),
             (Z.ltb_spec (- Z.of_nat (stack_frequency a)) (- Z.of_nat (stack_frequency b)));
      try reflexivity; lia.
  - destruct (Nat.eqb_spec (stack_frequency a) (stack_frequency b)) as [Hf|Hf].
    + rewrite bool_decide_eq_true_2 by (rewrite Hf; reflexivity). reflexivity.
    + rewrite bool_decide_eq_false_2 by lia. reflexivity.
Qed.

Lemma stack_frame_sorted (rows : list stack_record) :
  StronglySorted stack_order (sorted stack_before rows).
Proof.
  apply StronglySorted_weaken with (R := fun a b => stack_before b a = false).
  - intros a b Hab. unfold stack_before in Hab.
    apply orb_false_elim in Hab as [Hk Hrest]. split; [exact Hk|].
    intros Heq. rewrite bool_decide_eq_true_2 in Hrest by (symmetry; exact Heq).
    simpl in Hrest. apply orb_false_elim in Hrest as [Hf Hr]. apply Nat.ltb_ge in Hf.
    split; [exact Hf|]. intros Hfeq. rewrite Hfeq, Nat.eqb_refl in Hr. simpl in Hr.
    apply Z.ltb_ge in Hr. exact Hr.
  - apply (sorted_by_key stack_before _ _ stack_before_key).
    apply lex_strict_total; [apply str_ltb_strict_total|].
    apply lex_strict_total; apply Z_ltb_strict_total.
Qed.

Lemma stack_rows_None :
  stack_rows key lowest stack_max entries exploded = None
  <-> exists e t c,
        In e entries /\ rank e = None
        /\ lowest <= length c <= stack_max /\ ascending c
        /\ stacked key exploded t c e = true.
Proof.
  unfold stack_rows. rewrite rows_None. split.
  - intros ([[t c] payload] & Hin & Hnone).
    destruct (stack_payload t c payload Hin) as (Hpay & Hne & Hlen & Hasc).
    unfold stack_record_of in Hnone. rewrite Hpay in Hnone. simpl in Hnone.
    destruct (map entry_id _) eqn:Hids; [discriminate|].
    destruct (stats_of _) eqn:Hstats; [discriminate|].
    apply (stats_of_collected _ Hne) in Hstats as (e & He & Hrank).
    apply filter_In in He as [He Hst]. exists e, t, c. auto 10.
  - intros (e & t & c & He & Hrank & Hlen & Hasc & Hst).
    destruct (stack_key_present t c e He Hlen Hasc Hst) as (payload & Hin).
    exists (t, c, payload). split; [exact Hin|].
    destruct (stack_payload t c payload Hin) as (Hpay & Hne & _).
    assert (Hf : In e (List.filter (stacked key exploded t c) entries))
      by (apply filter_In; auto).
    assert (Hstats : stats_of payload = None).
    { rewrite Hpay. apply (stats_of_collected _ Hne). eauto. }
    unfold stack_record_of. rewrite Hstats. rewrite Hpay. simpl.
    destruct (List.filter (stacked key exploded t c) entries); [destruct Hf|reflexivity].
Qed.

Lemma stack_rows_In (rows : list stack_record) (r : stack_record) :
  stack_rows key lowest stack_max entries exploded = Some rows ->
  In r rows
  <-> exists payload,
        In (stack_key r, stack_players r, payload)
           (stack_dict key lowest stack_max entries exploded)
        /\ stack_record_of (stack_key r, stack_players r, payload) = Some [r].
Proof.
  unfold stack_rows. intros Hrows. rewrite (rows_In _ _ _ _ Hrows). split.
  - intros ([[t c] payload] & part & Hin & Hpart & Hr).
    destruct (stack_record_of_made t c payload part Hin Hpart) as (r' & -> & Hid & _).
    destruct Hr as [<-|[]]. unfold stack_id in Hid. injection Hid as -> ->.
    exists payload. auto.
  - intros (payload & Hin & Hpart). exists (stack_key r, stack_players r, payload), [r].
    split; [exact Hin|]. split; [exact Hpart|left; reflexivity].
Qed.

End StackTable.

(** X19.  The stack tables; [compute_team_stacks] is [compute_stacks] on
    the column [team] with [team_stack_max], and [compute_game_stacks] on
    the column [game_id] with [game_stack_max].  The computation fails
    exactly when an entry without rank has, in its exploded rows, at least
    [min_size] players with the same key.  Otherwise the table has one row
    for every key and strictly increasing selection of players, of a size
    between [min_size] and the maximum, that have this key in the exploded
    rows of some entry with an id.  The row lists the ids of these entries
    in their order, its frequency is their number, its other columns are
    computed from their ranks, percentiles and points, and the rows are in
    the order of [sort_values]: by key, then by decreasing frequency, then
    by increasing best rank. *)
Theorem compute_stacks_table (key : stack_row -> option str) (lowest stack_max : nat)
    (entries : list entry) (exploded : list stack_row) :
  (compute_stacks key lowest stack_max entries exploded = None
   <-> exists e t c,
         In e entries /\ rank e = None
         /\ lowest <= length c <= stack_max /\ ascending c
         /\ stacked key exploded t c e = true)
  /\ forall out : list stack_record,
       compute_stacks key lowest stack_max entries exploded = Some out ->
       List.NoDup (map stack_id out)
       /\ StronglySorted stack_order out
       /\ (forall r : stack_record,
             In r out ->
             let rows :=
               List.filter (stacked key exploded (stack_key r) (stack_players r)) entries in
             lowest <= stack_size r <= stack_max
             /\ stack_size r = length (stack_players r)
             /\ ascending (stack_players r)
             /\ stack_combo r = join (lit " | ") (stack_players r)
             /\ stack_entry_ids r = map entry_id rows
             /\ stack_frequency r = length rows
             /\ 1 <= stack_frequency r
             /\ stack_count_in_current_percentile r = stack_frequency r
             /\ stats_of (collected rows) = Some (stack_stats r))
       /\ (forall (t : str) (c : list str),
             lowest <= length c <= stack_max -> ascending c ->
             (exists e, In e entries /\ stacked key exploded t c e = true) ->
             exists r, In r out /\ stack_id r = (t, c)).
Proof.
  unfold compute_stacks. split.
  - rewrite <- stack_rows_None.
    destruct (stack_rows key lowest stack_max entries exploded); simpl; split; congruence.
  - intros out Hout.
    destruct (stack_rows key lowest stack_max entries exploded) as [rows|] eqn:Hrows;
      [|discriminate].
    simpl in Hout. injection Hout as <-.
    destruct (dictionary_spec (stack_keys key lowest stack_max exploded) entries
                (stack_keys_NoDup key lowest stack_max exploded)) as (Hnd & _ & _).
    split; [|split; [|split]].
    + eapply Permutation_NoDup.
      * apply Permutation_map. symmetry. apply sorted_perm.
      * rewrite (stack_rows_ids _ _ _ _ _ _ Hrows). exact Hnd.
    + apply stack_frame_sorted.
    + intros r Hr. apply sorted_In in Hr.
      set (rows' := List.filter (stacked key exploded (stack_key r) (stack_players r)) entries).
      apply (stack_rows_In _ _ _ _ _ _ _ Hrows) in Hr as (payload & Hin & Hpart).
      destruct (stack_payload _ _ _ _ _ _ _ _ Hin) as (Hpay & Hne & Hlen & Hasc).
      fold rows' in Hpay, Hne.
      destruct (stack_record_of_made _ _ _ _ _ _ _ _ _ Hin Hpart)
        as (r' & Hr' & _ & Hcombo & Hsize & Hids & Hfreq & Hcount & Hstats).
      injection Hr' as <-.
      rewrite Hpay in Hids, Hfreq, Hcount, Hstats. simpl in Hids, Hfreq, Hcount.
      rewrite length_map in Hfreq, Hcount.
      repeat split; try assumption; try lia.
      rewrite Hfreq. destruct rows'; [congruence|simpl; lia].
    + intros t c Hlen Hasc (e & He & Hst).
      destruct (stack_key_present _ _ _ _ _ t c e He Hlen Hasc Hst) as (payload & Hin).
      assert (Hkey : In (t, c) (map stack_id rows)).
      { rewrite (stack_rows_ids _ _ _ _ _ _ Hrows). apply in_map_iff.
        exists (t, c, payload). auto. }
      apply in_map_iff in Hkey as (r & Hid & Hr).
      exists r. split; [apply sorted_In, Hr|exact Hid].
Qed.

(** ** Game information *)

Lemma search_from_sound (r : regex) (n : nat) (s : str) (m : mstate) :
  search_from r n s = Some m ->
  exists before after : str,
    s = before ++ after
    /\ In m (run r {| caps := []; pos := n + length before; rest := after |}).
Proof.
  revert n. induction s as [|c s IH]; intros n; simpl.
  - destruct (run r _) as [|m' ms] eqn:Hrun; simpl; [discriminate|].
    intros Hm. injection Hm as <-. exists [], []. split; [reflexivity|].
    simpl. rewrite Nat.add_0_r, Hrun. left. reflexivity.
  - destruct (run r _) as [|m' ms] eqn:Hrun; simpl.
    + intros Hm. destruct (IH _ Hm) as (before & after & -> & Hin).
      exists (c :: before), after. split; [reflexivity|].
      simpl. rewrite Nat.add_succ_r. exact Hin.
    + intros Hm. injection Hm as <-. exists [], (c :: s). split; [reflexivity|].
      simpl. rewrite Nat.add_0_r, Hrun. left. reflexivity.
Qed.

Lemma search_from_complete (r : regex) (n : nat) (before after : str) :
  run r {| caps := []; pos := n + length before; rest := after |} <> [] ->
  search_from r n (before ++ after) <> None.
Proof.
  revert n. induction before as [|c before IH]; intros n Hrun; simpl in *.
  - rewrite Nat.add_0_r in Hrun.
    destruct after as [|c after]; simpl;
      (destruct (run r _) as [|m ms]; [congruence|simpl; discriminate]).
  - destruct (run r {| caps := []; pos := n; rest := c :: before ++ after |}) as [|m ms];
      simpl; [|discriminate].
    apply IH. rewrite Nat.add_succ_r in Hrun. exact Hrun.
Qed.

Lemma code_run (st st' : mstate) :
  In st' (run (Chr is_AZ >> Chr is_AZ >> Opt (Chr is_AZ)) st) ->
  exists w, team_code w /\ rest st = w ++ rest st'
            /\ pos st' = pos st + length w /\ caps st' = caps st.
Proof.
  intros Hin.
  destruct (run_sound _ _ _ Hin) as (w & Hrest & Hpos & Hlang).
  destruct (run_caps _ _ _ Hin) as (new & Hcaps & Hnew).
  exists w. split; [|split; [exact Hrest|split; [exact Hpos|]]].
  - simpl in Hlang.
    destruct Hlang as (w1 & w23 & -> & (c1 & -> & Hc1) & w2 & w3 & -> & (c2 & -> & Hc2) & Hw3).
    destruct Hw3 as [->|(c3 & -> & Hc3)]; split; simpl; try lia;
      repeat constructor; assumption.
  - destruct new as [|gv new]; [exact Hcaps|].
    inversion Hnew as [|? ? Hgv _]; subst. destruct Hgv.
Qed.

Lemma group_code_run (g : String.string) (st st' : mstate) :
  In st' (run (Group g (Chr is_AZ >> Chr is_AZ >> Opt (Chr is_AZ))) st) ->
  exists w, team_code w /\ rest st = w ++ rest st'
            /\ pos st' = pos st + length w /\ caps st' = (g, w) :: caps st.
Proof.
  intros Hin. change (run (Group g ?r) st)
    with (map (fun st' => set_group g (firstn (pos st' - pos st) (rest st)) st') (run r st))
    in Hin.
  apply in_map_iff in Hin as (st1 & <- & Hin).
  destruct (code_run _ _ Hin) as (w & Hw & Hrest & Hpos & Hcaps).
  exists w. simpl. split; [exact Hw|]. split; [exact Hrest|]. split; [exact Hpos|].
  rewrite Hcaps, Hpos, Hrest. f_equal. f_equal.
  replace (pos st + length w - pos st) with (length w + 0) by lia.
  rewrite firstn_app_2. simpl. apply app_nil_r.
Qed.

Lemma game_run_sound (st m : mstate) :
  caps st = [] -> In m (run _GAME_RE st) ->
  exists away home : str,
    team_code away /\ team_code home
    /\ rest st = away ++ lit "@" ++ home ++ rest m
    /\ group m "away" = Some away /\ group m "home" = Some home.
Proof.
  intros Hcaps Hin. unfold _GAME_RE in Hin.
  change (run (?r1 >> ?r2) st) with (flat_map (run r2) (run r1 st)) in Hin.
  apply in_flat_map in Hin as (st1 & H1 & Hin).
  change (run (?r1 >> ?r2) st1) with (flat_map (run r2) (run r1 st1)) in Hin.
  apply in_flat_map in Hin as (st2 & H2 & H3).
  destruct (group_code_run _ _ _ H1) as (away & Haway & Hrest1 & _ & Hcaps1).
  destruct (group_code_run _ _ _ H3) as (home & Hhome & Hrest3 & _ & Hcaps3).
  simpl in H2. destruct (rest st1) as [|c s] eqn:Hs; [destruct H2|].
  unfold char in H2. destruct (N.eqb_spec c 0x40) as [->|Hne]; [|destruct H2].
  destruct H2 as [<-|[]]. simpl in Hrest3, Hcaps3.
  exists away, home. split; [exact Haway|]. split; [exact Hhome|].
  split; [rewrite Hrest1, Hrest3; reflexivity|].
  unfold group. rewrite Hcaps3, Hcaps1, Hcaps. split; reflexivity.
Qed.

Lemma team_code_letters (w : str) :
  team_code w ->
  exists c1 c2 more,
    w = c1 :: c2 :: more /\ is_AZ c1 = true /\ is_AZ c2 = true
    /\ (more = [] \/ exists c3, more = [c3] /\ is_AZ c3 = true).
Proof.
  intros [Hlen Hall]. destruct w as [|c1 [|c2 [|c3 [|c4 w]]]]; simpl in Hlen; try lia.
  - inversion Hall as [|? ? H1 Hall1]; subst. inversion Hall1 as [|? ? H2 _]; subst.
    exists c1, c2, []. auto.
  - inversion Hall as [|? ? H1 Hall1]; subst. inversion Hall1 as [|? ? H2 Hall2]; subst.
    inversion Hall2 as [|? ? H3 _]; subst.
    exists c1, c2, [c3]. split; [reflexivity|]. split; [exact H1|]. split; [exact H2|].
    right. exists c3. auto.
Qed.

Lemma code_run_complete (g : String.string) (st : mstate) (w after : str) :
  team_code w -> rest st = w ++ after ->
  (match after with c :: _ => is_AZ c = false | [] => True end) ->
  exists st', In st' (run (Group g (Chr is_AZ >> Chr is_AZ >> Opt (Chr is_AZ))) st)
              /\ rest st' = after.
Proof.
  intros Hw Hrest Hafter.
  destruct (team_code_letters w Hw) as (c1 & c2 & more & -> & H1 & H2 & Hmore).
  simpl in Hrest. simpl. rewrite Hrest, H1. simpl. rewrite H2. simpl.
  destruct Hmore as [->|(c3 & -> & H3)]; simpl.
  - destruct after as [|c after]; simpl.
    + eexists. split; [left; reflexivity|reflexivity].
    + rewrite Hafter. simpl. eexists. split; [left; reflexivity|reflexivity].
  - rewrite H3. simpl. eexists. split; [left; reflexivity|reflexivity].
Qed.

Lemma code_run_some (g : String.string) (st : mstate) (w after : str) :
  team_code w -> rest st = w ++ after ->
  run (Group g (Chr is_AZ >> Chr is_AZ >> Opt (Chr is_AZ))) st <> [].
Proof.
  intros Hw Hrest.
  destruct (team_code_letters w Hw) as (c1 & c2 & more & -> & H1 & H2 & _).
  simpl in Hrest. simpl. rewrite Hrest, H1. simpl. rewrite H2. simpl.
  rewrite app_nil_r.
  destruct (more ++ after) as [|c s]; simpl; [discriminate|].
  destruct (is_AZ c); simpl; discriminate.
Qed.

Lemma game_run_complete (n : nat) (away home after : str) :
  team_code away -> team_code home ->
  run _GAME_RE {| caps := []; pos := n; rest := away ++ lit "@" ++ home ++ after |} <> [].
Proof.
  intros Haway Hhome. unfold _GAME_RE.
  set (st := {| caps := []; pos := n; rest := away ++ lit "@" ++ home ++ after |}).
  destruct (code_run_complete "away" st away (lit "@" ++ home ++ after) Haway eq_refl)
    as (st1 & H1 & Hrest1); [reflexivity|].
  change (run (?r1 >> ?r2) st) with (flat_map (run r2) (run r1 st)).
  intros Hnil.
  assert (Hnone : forall m, ~ In m (flat_map
                     (run (Chr (char 64) >>
                           Group "home" (Chr is_AZ >> Chr is_AZ >> Opt (Chr is_AZ))))
                     (run (Group "away" (Chr is_AZ >> Chr is_AZ >> Opt (Chr is_AZ))) st)))
    by (intros m Hm; rewrite Hnil in Hm; destruct Hm).
  destruct (run (Group "home" (Chr is_AZ >> Chr is_AZ >> Opt (Chr is_AZ)))
                (advance st1 (S (pos st1), home ++ after))) as [|m ms] eqn:Hrun.
  - revert Hrun. apply (code_run_some "home" _ home after Hhome). reflexivity.
  - apply (Hnone m). apply in_flat_map. exists st1. split; [exact H1|].
    change (run (?r1 >> ?r2) st1) with (flat_map (run r2) (run r1 st1)).
    apply in_flat_map. exists (advance st1 (S (pos st1), home ++ after)).
    split; [|rewrite Hrun; left; reflexivity].
    simpl. rewrite Hrest1. simpl. left. reflexivity.
Qed.

(** X20.  [parse_game_info] raises only on an integer other than zero.
    Its three fields are missing together, and they are exactly when the
    upper-cased, stripped text has no two team codes of two or three
    letters from A to Z around an ["@"]; otherwise the teams are such codes
    of that text, and the game id is the two joined by ["@"]. *)
Theorem parse_game_info_result `{UnicodeData} (info : cell) :
  (parse_game_info info = None <-> exists z : Z, info = CInt z /\ z <> 0%Z)
  /\ forall g : GameInfo.t,
       parse_game_info info = Some g ->
       ((GameInfo.away_team g = None /\ GameInfo.home_team g = None
         /\ GameInfo.game_id g = None)
        \/ exists text away home : str,
             info = CStr text
             /\ GameInfo.away_team g = Some away /\ GameInfo.home_team g = Some home
             /\ GameInfo.game_id g = Some (away ++ lit "@" ++ home)
             /\ names_game (str_upper (strip text)) away home)
       /\ forall text : str,
            info = CStr text ->
            (GameInfo.game_id g = None
             <-> forall away home, ~ names_game (str_upper (strip text)) away home).
Proof.
  split.
  - destruct info as [text|z|q|]; simpl.
    + split; [|intros (z & Hz & _); discriminate].
      destruct text as [|c text]; [discriminate|].
      destruct (re_search _ _); discriminate.
    + destruct (Z.eqb_spec z 0) as [->|Hz].
      * split; [discriminate|]. intros (z & Hz & Hne). congruence.
      * split; [eauto|reflexivity].
    + split; [discriminate|]. intros (z & Hz & _). discriminate.
    + split; [discriminate|]. intros (z & Hz & _). discriminate.
  - intros g Hg.
    assert (Hnone : forall text, (forall away home, ~ names_game text away home)
                                 <-> re_search _GAME_RE text = None).
    { intros text. unfold re_search. split.
      - intros Hno. destruct (search_from _GAME_RE 0 text) as [m|] eqn:Hm; [exfalso|reflexivity].
        apply search_from_sound in Hm as (before & after & -> & Hin).
        apply game_run_sound in Hin as (away & home & Ha & Hh & Hrest & _); [|reflexivity].
        cbn [rest] in Hrest. apply (Hno away home). split; [exact Ha|]. split; [exact Hh|].
        exists before, (rest m). rewrite Hrest. reflexivity.
      - intros Hsearch away home (Ha & Hh & before & after & ->).
        revert Hsearch. apply search_from_complete, game_run_complete; assumption. }
    destruct info as [text|z|q|]; simpl in Hg.
    + destruct text as [|c text].
      * injection Hg as <-. simpl. split; [left; auto|].
        intros text' Htext. injection Htext as <-. split; [|reflexivity].
        intros _ away home (Ha & _ & before & after & Hcat).
        destruct (team_code_letters away Ha) as (c1 & c2 & more & -> & _).
        simpl in Hcat. destruct before; discriminate.
      * set (upper_text := str_upper (strip (c :: text))) in *.
        destruct (re_search _GAME_RE upper_text) as [m|] eqn:Hm.
        -- injection Hg as <-. simpl.
           unfold re_search in Hm. apply search_from_sound in Hm as (before & after & Hcat & Hin).
           apply game_run_sound in Hin as (away & home & Ha & Hh & Hrest & Haway & Hhome);
             [|reflexivity].
           cbn [rest] in Hrest. rewrite Haway, Hhome.
           cbn [GameInfo.away_team GameInfo.home_team GameInfo.game_id default].
           assert (Hnames : names_game upper_text away home).
           { split; [exact Ha|]. split; [exact Hh|].
             exists before, (rest m). rewrite Hcat, Hrest. reflexivity. }
           split.
           ++ right. exists (c :: text), away, home.
              split; [reflexivity|]. split; [reflexivity|]. split; [reflexivity|].
              split; [reflexivity|]. exact Hnames.
           ++ intros text' Htext. injection Htext as <-. fold upper_text.
              split; [discriminate|]. intros Hno. exfalso. exact (Hno away home Hnames).
        -- injection Hg as <-. simpl. split; [left; auto|].
           intros text' Htext. injection Htext as <-. fold upper_text.
           split; [|reflexivity]. intros _. apply Hnone, Hm.
    + destruct (z =? 0)%Z; [|discriminate]. injection Hg as <-. simpl.
      split; [left; auto|]. intros text Htext. discriminate.
    + injection Hg as <-. simpl. split; [left; auto|]. intros text Htext. discriminate.
    + injection Hg as <-. simpl. split; [left; auto|]. intros text Htext. discriminate.
Qed.

(** ** Slugs *)

Section Slug.
Variable sep : N.

Lemma lstrip_char_snoc (l : str) (c : N) :
  lstrip_char sep (l ++ [c])
  = match lstrip_char sep l with
    | [] => if (c =? sep)%N then [] else [c]
    | kept => kept ++ [c]
    end.
Proof.
  induction l as [|a l IH]; simpl; [reflexivity|].
  destruct (a =? sep)%N; [exact IH|reflexivity].
Qed.

Lemma strip_tail_char (c : N) (x : str) :
  rev (lstrip_char sep (rev (c :: x)))
  = match rev (lstrip_char sep (rev x)) with
    | [] => if (c =? sep)%N then [] else [c]
    | kept => c :: kept
    end.
Proof.
  simpl. rewrite lstrip_char_snoc.
  destruct (lstrip_char sep (rev x)) as [|a kept] eqn:Hk; simpl.
  - destruct (c =? sep)%N; reflexivity.
  - rewrite rev_app_distr. simpl.
    destruct (rev kept ++ [a]) eqn:Hr; [destruct (rev kept); discriminate|reflexivity].
Qed.

Hypothesis sep_not_kept : _PUNCT_RE_keeps sep = true -> sep = 0x20%N.

Lemma kept_space (c : N) :
  _PUNCT_RE_keeps c = true ->
  (c = 0x20%N /\ is_space c = true) \/ (c <> 0x20%N /\ c <> sep /\ is_space c = false).
Proof.
  intros Hc. destruct (N.eq_dec c 0x20%N) as [->|Hne]; [left; split; reflexivity|].
  right. split; [exact Hne|]. split.
  - intros ->. apply Hne, sep_not_kept, Hc.
  - unfold _PUNCT_RE_keeps in Hc. unfold is_space.
    apply orb_prop in Hc as [Hc|Hc]; [|apply N.eqb_eq in Hc; congruence].
    apply orb_prop in Hc as [Hc|Hc]; apply andb_prop in Hc as [Hlo Hhi];
      apply N.leb_le in Hlo, Hhi;
      repeat match goal with
             | |- context [(?a <=? c)%N] =>
                 destruct (N.leb_spec a c); try lia
             | |- context [(c <=? ?a)%N] =>
                 destruct (N.leb_spec c a); try lia
             | |- context [(c =? ?a)%N] =>
                 destruct (N.eqb_spec c a); try lia
             end; reflexivity.
Qed.

Lemma split_from_words (cur s : str) : Forall (fun w => w <> []) (split_from cur s).
Proof.
  revert cur. induction s as [|c s IH]; intros cur; simpl.
  - destruct cur as [|a cur]; constructor; [|constructor].
    intros Hnil. apply (f_equal (@length N)) in Hnil.
    rewrite length_rev in Hnil. discriminate.
  - destruct (is_space c); [|apply IH].
    destruct cur as [|a cur]; [apply IH|]. constructor; [|apply IH].
    intros Hnil. apply (f_equal (@length N)) in Hnil.
    rewrite length_rev in Hnil. discriminate.
Qed.

Lemma join_nil (parts : list str) :
  Forall (fun w => w <> []) parts -> join [sep] parts = [] -> parts = [].
Proof.
  intros Hparts Hjoin. destruct parts as [|w parts]; [reflexivity|exfalso].
  inversion Hparts as [|? ? Hw _]; subst. simpl in Hjoin.
  destruct parts; [congruence|]. destruct w; [congruence|discriminate].
Qed.

Lemma join_cons_words (w : str) (parts : list str) :
  join [sep] (w :: parts) = match parts with [] => w | _ => w ++ sep :: join [sep] parts end.
Proof. destruct parts; reflexivity. Qed.

(** After the spaces are replaced and the runs collapsed, stripping the
    separator at the end leaves the words joined. *)
Lemma collapse_words (s : str) :
  Forall (fun c => _PUNCT_RE_keeps c = true) s ->
  (forall cur, cur <> [] ->
     rev cur ++ rev (lstrip_char sep (rev (collapse_runs sep false (replace 0x20%N sep s))))
     = join [sep] (split_from cur s))
  /\ rev (lstrip_char sep (rev (collapse_runs sep true (replace 0x20%N sep s))))
     = join [sep] (split_from [] s)
  /\ lstrip_char sep (collapse_runs sep true (replace 0x20%N sep s))
     = collapse_runs sep true (replace 0x20%N sep s)
  /\ lstrip_char sep (collapse_runs sep false (replace 0x20%N sep s))
     = collapse_runs sep true (replace 0x20%N sep s).
Proof.
  induction 1 as [|c s Hc _ IH]; simpl.
  - split; [|auto]. intros cur Hcur. rewrite app_nil_r.
    destruct cur; [congruence|reflexivity].
  - destruct IH as (IHa & IHb & IHc & IHd).
    destruct (kept_space c Hc) as [[-> Hsp]|(Hne & Hsep & Hsp)].
    + rewrite Hsp. simpl. rewrite N.eqb_refl.
      split; [|split; [exact IHb|split; [exact IHc|]]].
      * intros cur Hcur.
        change (rev (lstrip_char sep (rev (collapse_runs sep true (replace 32%N sep s)) ++ [sep])))
          with (rev (lstrip_char sep (rev (sep :: collapse_runs sep true (replace 32%N sep s))))).
        rewrite strip_tail_char, IHb, N.eqb_refl.
        destruct cur as [|a cur]; [congruence|].
        rewrite join_cons_words.
        destruct (join [sep] (split_from [] s)) eqn:Hjoin.
        -- rewrite (join_nil _ (split_from_words [] s) Hjoin). apply app_nil_r.
        -- destruct (split_from [] s); [discriminate|reflexivity].
      * simpl. rewrite N.eqb_refl. exact IHc.
    + rewrite Hsp. replace (c =? 32%N)%N with false by (symmetry; apply N.eqb_neq, Hne).
      replace (c =? sep)%N with false by (symmetry; apply N.eqb_neq, Hsep).
      assert (Htail : rev (lstrip_char sep (rev (c :: collapse_runs sep false (replace 32%N sep s))))
                      = c :: rev (lstrip_char sep (rev (collapse_runs sep false (replace 32%N sep s))))).
      { rewrite strip_tail_char.
        replace (c =? sep)%N with false by (symmetry; apply N.eqb_neq, Hsep).
        destruct (rev (lstrip_char sep _)); reflexivity. }
      simpl in Htail. simpl lstrip_char.
      replace (c =? sep)%N with false by (symmetry; apply N.eqb_neq, Hsep).
      split; [|split; [|split; reflexivity]].
      * intros cur Hcur. rewrite Htail.
        rewrite <- (IHa (c :: cur)) by discriminate. simpl.
        rewrite <- app_assoc. reflexivity.
      * rewrite Htail. rewrite <- (IHa [c]) by discriminate. reflexivity.
Qed.

End Slug.

(** X21.  For a separator that stands for itself in a pattern and is not a
    lower-case letter or a digit, [slugify] joins the words of the
    comparable name by the separator:
    [sep.join(comparable_name(value).split())]. *)
Theorem slugify_words `{UnicodeData} (value : str) (sep : N) :
  plain_char sep = true ->
  (_PUNCT_RE_keeps sep = true -> sep = 0x20%N) ->
  slugify value sep = join [sep] (split (comparable_name (Some value))).
Proof.
  intros _ Hsep. unfold slugify, strip_char, split.
  assert (Hkept : Forall (fun c => _PUNCT_RE_keeps c = true) (comparable_name (Some value))).
  { unfold comparable_name. apply List.Forall_forall. intros c Hc.
    apply filter_In in Hc. apply Hc. }
  destruct (collapse_words sep Hsep _ Hkept) as (_ & Hwords & _ & Hleft).
  rewrite Hleft. exact Hwords.
Qed.

Lemma slugify_words_witness :
  slugify (H := latin1_unicode) (lit "LeBron  James, Jr.") 0x2D%N = lit "lebron-james-jr"
  /\ slugify (H := latin1_unicode) (lit "LeBron  James, Jr.") 0x2D%N
     = join [0x2D%N] (split (comparable_name (H := latin1_unicode)
                                             (Some (lit "LeBron  James, Jr.")))).
Proof.
  split; [vm_compute; reflexivity|].
  apply (slugify_words (H := latin1_unicode)); [reflexivity|].
  vm_compute. discriminate.
Defined.

(** ** The number of lineups of a user *)

Lemma omap_id_NoDup (col : list (option Z)) : List.NoDup col -> List.NoDup (omap id col).
Proof.
  induction 1 as [|i col Hi _ IH]; [constructor|].
  destruct i as [z|].
  - change (omap id (Some z :: col)) with (z :: omap id col).
    constructor; [|exact IH]. intros Hz. apply Hi, omap_id_In, Hz.
  - exact IH.
Qed.

Lemma nunique_count (col : list (option Z)) :
  List.NoDup col -> Ingest.nunique col = count col.
Proof.
  intros Hcol. unfold Ingest.nunique, count.
  rewrite fromkeys_fixed by (apply omap_id_NoDup, Hcol). reflexivity.
Qed.

Lemma user_total_lineups_as_filter `{UnicodeData}
    (standings : list standings_row) (e : entry_row) :
  In e (entries_raw standings) ->
  Ingest.user_total_lineups e
  = length (List.filter (fun e' => same_user e e' && has_id e') (entries_raw standings)).
Proof.
  unfold entries_raw. intros He. apply in_map_iff in He as (r & <- & Hr).
  cbv beta zeta. rewrite filter_map_comm, length_map.
  unfold same_user, has_id. simpl.
  rewrite nunique_count by (apply NoDup_map_filter, drop_duplicates_NoDup).
  rewrite count_as_filter, filter_filter. reflexivity.
Qed.

(** X22.  Since the entries have no repeated entry id, the
    [user_total_lineups] of an entry is the number of entries of its user
    that have an entry id; it is at least 1 for an entry with an id, it is
    the same for all entries of a user, and it is the number of the user's
    entries when each of them has an id. *)
Theorem user_total_lineups_counts `{UnicodeData}
    (standings : list standings_row) (e : entry_row) :
  In e (entries_raw standings) ->
  Ingest.user_total_lineups e
  = length (List.filter (fun e' => same_user e e' && has_id e') (entries_raw standings))
  /\ (has_id e = true -> 1 <= Ingest.user_total_lineups e)
  /\ (forall e', In e' (entries_raw standings) -> same_user e e' = true ->
        Ingest.user_total_lineups e' = Ingest.user_total_lineups e)
  /\ ((forall e', In e' (entries_raw standings) -> same_user e e' = true ->
         has_id e' = true) ->
      Ingest.user_total_lineups e
      = length (List.filter (same_user e) (entries_raw standings))).
Proof.
  intros He. pose proof (user_total_lineups_as_filter standings e He) as Hcount.
  split; [exact Hcount|]. split; [|split].
  - intros Hid. rewrite Hcount.
    assert (Hin : In e (List.filter (fun e' => same_user e e' && has_id e')
                          (entries_raw standings))).
    { apply filter_In. split; [exact He|]. rewrite Hid, andb_true_r.
      apply bool_decide_eq_true. reflexivity. }
    destruct (List.filter _ _); [destruct Hin|simpl; lia].
  - intros e' He' Hsame. rewrite Hcount, (user_total_lineups_as_filter standings e' He').
    f_equal. apply filter_ext. intros x. f_equal.
    unfold same_user in *. apply bool_decide_eq_true in Hsame.
    rewrite Hsame. reflexivity.
  - intros Hall. rewrite Hcount. f_equal. apply filter_ext_in.
    intros e' He'. destruct (same_user e e') eqn:Hsame; [|reflexivity].
    rewrite (Hall e' He' Hsame). reflexivity.
Qed.

Lemma user_total_lineups_counts_witness :
  let standings := [entry_line (Some 1%Z) "ann (1/3)" "PG A SG B";
                    entry_line (Some 2%Z) "bob" "PG B SG A";
                    entry_line (Some 3%Z) "ann (2/3)" "PG A SG D";
                    entry_line None "ann (3/3)" "PG C SG D"] in
  map Ingest.user_total_lineups (entries_raw standings) = [2; 1; 2; 2]
  /\ exists e : entry_row,
       In e (entries_raw standings)
       /\ Ingest.user_total_lineups e
          = length (List.filter (fun e' => same_user e e' && has_id e')
                                (entries_raw standings))
       /\ (has_id e = true -> 1 <= Ingest.user_total_lineups e).
Proof.
  cbv zeta. split; [vm_compute; reflexivity|].
  eexists. split; [left; reflexivity|].
  pose proof (user_total_lineups_counts
                [entry_line (Some 1%Z) "ann (1/3)" "PG A SG B";
                 entry_line (Some 2%Z) "bob" "PG B SG A";
                 entry_line (Some 3%Z) "ann (2/3)" "PG A SG D";
                 entry_line None "ann (3/3)" "PG C SG D"] _ (or_introl eq_refl)) as H.
  destruct H as (Hcount & Hpos & _). split; [exact Hcount|exact Hpos].
Defined.
